(** * gohome automata service: a shallow embedding of
    [services/automata/main.go] and the properties of its rule engine glue.

    Go values are modelled as follows: a [string] is a byte string, a
    [map[string]T] is a [gmap string T], [interface{}] is the tagged union
    [Value] (extended by [Iface] where an execution context can be passed), a
    [float64] is a primitive binary64 float, an [int]/[int64] is a [Z] with the
    wrap-around written out where the code can overflow.  A Go panic is the
    outcome [Panic]; nothing in the service recovers from one. *)

From Stdlib Require Import ZArith Ascii String.
From Stdlib Require PrimFloat FloatOps Uint63.
From stdpp Require Import base strings list gmap fin_maps sorting.

Set Warnings "-register-all".

Local Open Scope string_scope.
Local Open Scope list_scope.
Local Open Scope Z_scope.

(** ** The slice of package [strings] the service uses *)

Module GoStrings.

(** [strings.HasPrefix]. *)
Definition HasPrefix (s p : string) : bool := String.prefix p s.

(** [strings.Contains]: [sub] occurs in [s] at some offset. *)
Fixpoint Contains (s sub : string) : bool :=
  if String.prefix sub s then true
  else match s with
       | EmptyString => false
       | String _ s' => Contains s' sub
       end.

(** [strings.Split(s, sep)] for a one-byte separator: the pieces between the
    separators, of which there is always at least one. *)
Fixpoint Split (s : string) (sep : ascii) : list string :=
  match s with
  | EmptyString => [EmptyString]
  | String c s' =>
      if Ascii.eqb c sep then EmptyString :: Split s' sep
      else match Split s' sep with
           | p :: ps => String c p :: ps
           | [] => [String c EmptyString]
           end
  end.

(** The text before and after the first separator, when there is one. *)
Fixpoint cut (s : string) (sep : ascii) : option (string * string) :=
  match s with
  | EmptyString => None
  | String c s' =>
      if Ascii.eqb c sep then Some (EmptyString, s')
      else match cut s' sep with
           | Some (a, b) => Some (String c a, b)
           | None => None
           end
  end.

(** [strings.SplitN(s, sep, 2)]. *)
Definition SplitN2 (s : string) (sep : ascii) : list string :=
  match cut s sep with
  | Some (a, b) => [a; b]
  | None => [s]
  end.

(** [strings.Replace(s, old, new, 1)] for a one-byte [old]. *)
Definition Replace1 (s : string) (old : ascii) (new : string) : string :=
  match cut s old with
  | Some (a, b) => a +:+ new +:+ b
  | None => s
  end.

End GoStrings.

(** ** Values held by [interface{}] *)

Inductive Value : Type :=
| VNil
| VBool (b : bool)
| VString (s : string)
| VFloat (f : PrimFloat.float)
| VInt (n : Z)
| VInt64 (n : Z)
| VTime (t : Z).

(** A run-time outcome of Go code: a result, or a panic that unwinds the
    goroutine. *)
Inductive Outcome (A : Type) : Type :=
| Ret (a : A)
| Panic (msg : string).
Arguments Ret {A} a.
Arguments Panic {A} msg.

(** ** Package [pubsub] *)

Module pubsub.

(** Modelled from the spec: [pubsub.Event] (event.go is not part of the
    sources at hand).  An event has a topic, named field values, a timestamp
    and a retained flag; its entity identifier is the field "device". *)
Record Event : Type := mkEvent {
  Topic : string;
  Fields : gmap string Value;
  Timestamp : Z;
  Retained : bool
}.

Definition NewEvent (now : Z) (topic : string) (fields : gmap string Value) : Event :=
  {| Topic := topic; Fields := fields; Timestamp := now; Retained := false |}.

Definition StringField (ev : Event) (name : string) : string :=
  match Fields ev !! name with
  | Some (VString s) => s
  | _ => ""
  end.

Definition Device (ev : Event) : string := StringField ev "device".
Definition Command (ev : Event) : string := StringField ev "command".

Definition SetField (ev : Event) (name : string) (v : Value) : Event :=
  {| Topic := Topic ev; Fields := <[name := v]> (Fields ev);
     Timestamp := Timestamp ev; Retained := Retained ev |}.

Definition SetRetained (ev : Event) (r : bool) : Event :=
  {| Topic := Topic ev; Fields := Fields ev;
     Timestamp := Timestamp ev; Retained := r |}.

End pubsub.

(** ** Package [config]: the device inventory *)

Module config.

(** Modelled from the spec: [config.DeviceConf] (package config is not part
    of the sources at hand).  A device carries the entity metadata an
    execution context resolves - id, display name, capabilities, group -
    in the fields the service reads: [Caps] is the list of capabilities,
    [Cap] the same as a set. *)
Record DeviceConf : Type := mkDeviceConf {
  Id : string;
  Name : string;
  Caps : list string;
  Group : string;
  Cap : gmap string bool
}.

(** The zero value, which a lookup of a missing key returns. *)
Definition zeroDeviceConf : DeviceConf :=
  {| Id := ""; Name := ""; Caps := []; Group := ""; Cap := ∅ |}.

End config.

(** ** Package [gofsm]: the automata the service drives *)

Module gofsm.

Record State : Type := mkState {
  Name : string;
  Entering : list string;
  Leaving : list string
}.

Record Transition : Type := mkTransition {
  When : string;
  Actions : list string;
  To : string
}.

Record Automaton : Type := mkAutomaton {
  States : gmap string State;
  Transitions : gmap string (list Transition);
  CurState : State;
  Since : Z
}.

(** [AutomatonState] and [AutomataState], the snapshot. *)
Record AutomatonState : Type := mkAutomatonState {
  SnapState : string;
  SnapSince : Z
}.

End gofsm.

(** ** Triggers: the two implementations of [gofsm.Event] *)

Inductive DummyEvent : Type := mkDummyEvent.

Definition DummyEvent_String (d : DummyEvent) : string := "user".
Definition DummyEvent_Match (d : DummyEvent) (s : string) : bool := false.

(** [EventContext] wraps the bus event (the service it points back to is the
    one service of the process). *)
Record EventContext : Type := mkEventContext {
  event : pubsub.Event
}.

Inductive Trigger : Type :=
| TriggerEvent (c : EventContext)
| TriggerDummy (d : DummyEvent).

Module gofsm_run.
Import gofsm.

(** A state change notification, and a scheduled action. *)
Record Change : Type := mkChange {
  ChAutomaton : string;
  Old : string;
  New : string;
  Duration : Z;
  ChTrigger : Trigger
}.

Record Action : Type := mkAction {
  ActName : string;
  ActTrigger : Trigger;
  ActChange : Change
}.

(** [gofsm.Automata]: the automatons by name and the two channels the
    service loop drains, as queues. *)
Record Automata : Type := mkAutomata {
  AutomatonMap : gmap string Automaton;
  Actions : list Action;
  Changes : list Change
}.

Definition setState (aut : Automaton) (st : State) (since : Z) : Automaton :=
  {| States := States aut; Transitions := Transitions aut;
     CurState := st; Since := since |}.

(** Modelled from the spec: [Automaton.ChangeState] (package gofsm is not
    part of the sources at hand).  The administrative override sets the
    current state and [since], emits a Change and schedules the leaving
    actions of the old state and the entering actions of the new one. *)
Definition ChangeState (now : Z) (name to : string) (trigger : Trigger)
    (a : Automata) : Automata :=
  match AutomatonMap a !! name with
  | None => a
  | Some aut =>
      match States aut !! to with
      | None => a
      | Some st =>
          let change :=
            {| ChAutomaton := name; Old := Name (CurState aut); New := to;
               Duration := now - Since aut; ChTrigger := trigger |} in
          let scheduled :=
            (fun code => mkAction code trigger change)
              <$> (Leaving (CurState aut) ++ Entering st) in
          {| AutomatonMap := <[name := setState aut st now]> (AutomatonMap a);
             Actions := Actions a ++ scheduled;
             Changes := Changes a ++ [change] |}
      end
  end.

(** Modelled from the spec: [Automata.Restore].  It sets current state and
    [since] of the named automatons and touches neither channel. *)
Definition restoreOne (snap : gmap string AutomatonState) (name : string)
    (aut : Automaton) : Automaton :=
  match snap !! name with
  | Some s =>
      match States aut !! SnapState s with
      | Some st => setState aut st (SnapSince s)
      | None => aut
      end
  | None => aut
  end.

Definition Restore (snap : gmap string AutomatonState) (a : Automata) : Automata :=
  {| AutomatonMap := map_imap (fun k aut => Some (restoreOne snap k aut)) (AutomatonMap a);
     Actions := Actions a;
     Changes := Changes a |}.

(** Modelled from the spec: [Automata.Persist], the snapshot of all
    automatons. *)
Definition Persist (a : Automata) : gmap string AutomatonState :=
  (fun aut => {| SnapState := Name (CurState aut); SnapSince := Since aut |})
    <$> AutomatonMap a.

End gofsm_run.

(** ** The execution context of an action *)

Record ChangeContext : Type := mkChangeContext {
  ccEvent : pubsub.Event;
  ccChange : gofsm_run.Change
}.

(** What an expression function receives: a plain value, or the context the
    action runs under. *)
Inductive Iface : Type :=
| IVal (v : Value)
| IContext (c : ChangeContext).

(** Errors the service builds. *)
Inductive GoError : Type :=
| ErrorString (s : string)
| ErrArity (expected got : nat)
| ErrArgType (ty : string) (i : nat) (arg : Iface)
| ErrBadExpression (source reason : string)
| ErrAutomataNotFound (name : string)
| MultiError (errs : list GoError).

(** The pair [(interface{}, error)] an expression function returns. *)
Definition Result : Type := (Value + GoError)%type.

(** ** The world the service acts on *)

(** Calls that leave the process, in the order they are made. *)
Inductive Effect : Type :=
| Emit (ev : pubsub.Event)
| LogPrint (format : string) (args : list Value)
| LogError (format : string) (err : GoError)
| AppendLog (msg : string)
| OpenFile (path : string)
| SendAlert (msg target : string)
| QueryChannel (query : string)
| AsyncScript (command : string).

(** A [*time.Timer] made by [time.AfterFunc]: the name its callback closes
    over, its delay in nanoseconds, and whether it can still fire. *)
Record Timer : Type := mkTimer {
  tName : string;
  tDelay : Z;
  tPending : bool
}.

(** A compiled expression, identified by the text it was compiled from. *)
Record EvaluableExpression : Type := mkExpr {
  inputExpression : string
}.

Record World : Type := mkWorld {
  automata : gofsm_run.Automata;
  parsingCache : gmap string EvaluableExpression;
  timers : gmap string nat;
  restoredAutomaton : gmap string bool;
  runtimeTimers : list Timer;
  clock : Z;
  randPos : nat;
  trace : list Effect
}.

Definition set_automata (a : gofsm_run.Automata) (w : World) : World :=
  {| automata := a; parsingCache := parsingCache w; timers := timers w;
     restoredAutomaton := restoredAutomaton w; runtimeTimers := runtimeTimers w;
     clock := clock w; randPos := randPos w; trace := trace w |}.

Definition set_parsingCache (c : gmap string EvaluableExpression) (w : World) : World :=
  {| automata := automata w; parsingCache := c; timers := timers w;
     restoredAutomaton := restoredAutomaton w; runtimeTimers := runtimeTimers w;
     clock := clock w; randPos := randPos w; trace := trace w |}.

Definition set_timers (t : gmap string nat) (rt : list Timer) (w : World) : World :=
  {| automata := automata w; parsingCache := parsingCache w; timers := t;
     restoredAutomaton := restoredAutomaton w; runtimeTimers := rt;
     clock := clock w; randPos := randPos w; trace := trace w |}.

Definition set_restoredAutomaton (r : gmap string bool) (w : World) : World :=
  {| automata := automata w; parsingCache := parsingCache w; timers := timers w;
     restoredAutomaton := r; runtimeTimers := runtimeTimers w;
     clock := clock w; randPos := randPos w; trace := trace w |}.

Definition set_randPos (n : nat) (w : World) : World :=
  {| automata := automata w; parsingCache := parsingCache w; timers := timers w;
     restoredAutomaton := restoredAutomaton w; runtimeTimers := runtimeTimers w;
     clock := clock w; randPos := n; trace := trace w |}.

(** Perform one outside call. *)
Definition perform (e : Effect) (w : World) : World :=
  {| automata := automata w; parsingCache := parsingCache w; timers := timers w;
     restoredAutomaton := restoredAutomaton w; runtimeTimers := runtimeTimers w;
     clock := clock w; randPos := randPos w; trace := trace w ++ [e] |}.

(** The events handed to [services.Publisher.Emit] so far. *)
Definition published (w : World) : list pubsub.Event :=
  omap (fun e => match e with Emit ev => Some ev | _ => None end) (trace w).

(** ** Panics and type assertions *)

Global Instance Outcome_ret : MRet Outcome := fun _ a => Ret a.
Global Instance Outcome_bind : MBind Outcome := fun _ _ k m =>
  match m with
  | Ret a => k a
  | Panic msg => Panic msg
  end.

(** [args[i]]: an index out of range panics. *)
Definition index {A : Type} (l : list A) (i : nat) : Outcome A :=
  match l !! i with
  | Some a => Ret a
  | None => Panic "index out of range"
  end.

(** The forced assertions [x.(string)], [x.(float64)], [x.(bool)] and
    [x.(ChangeContext)]: a value of another type panics. *)
Definition assertString (x : Iface) : Outcome string :=
  match x with
  | IVal (VString s) => Ret s
  | _ => Panic "interface conversion: not string"
  end.

Definition assertFloat64 (x : Iface) : Outcome PrimFloat.float :=
  match x with
  | IVal (VFloat f) => Ret f
  | _ => Panic "interface conversion: not float64"
  end.

Definition assertChangeContext (x : Iface) : Outcome ChangeContext :=
  match x with
  | IContext c => Ret c
  | _ => Panic "interface conversion: not ChangeContext"
  end.

Definition assertBool (v : Value) : Outcome bool :=
  match v with
  | VBool b => Ret b
  | _ => Panic "interface conversion: not bool"
  end.

(** The comma-ok assertion [b, ok := x.(bool)]: the zero value [false] and
    [ok = false] for a value of another type. *)
Definition commaOkBool (v : Value) : bool * bool :=
  match v with
  | VBool b => (b, true)
  | _ => (false, false)
  end.

(** ** Numeric conversions *)

(** [float64(n)] for an [int] or [int64]. *)
Definition float64_of_int (n : Z) : PrimFloat.float :=
  if n =? - 2 ^ 63 then
    PrimFloat.opp (PrimFloat.mul (PrimFloat.of_uint63 (Uint63.of_Z (2 ^ 62)))
                                 (PrimFloat.of_uint63 (Uint63.of_Z 2)))
  else if n <? 0 then PrimFloat.opp (PrimFloat.of_uint63 (Uint63.of_Z (- n)))
  else PrimFloat.of_uint63 (Uint63.of_Z n).

(** A signed 64-bit integer: wrap-around of a mathematical integer. *)
Definition wrap64 (z : Z) : Z := (z + 2 ^ 63) mod 2 ^ 64 - 2 ^ 63.

(** The integral part of a float, towards zero, when it has one. *)
Definition truncate (f : PrimFloat.float) : option Z :=
  match FloatOps.Prim2SF f with
  | SpecFloat.S754_zero _ => Some 0
  | SpecFloat.S754_finite s m e =>
      let a := if 0 <=? e then Z.pos m * 2 ^ e else Z.pos m / 2 ^ (- e) in
      Some (if s then - a else a)
  | _ => None
  end.

(** [time.Duration(d)] for a [float64] d: truncation to an [int64]; a value
    that does not fit (or is not a number) converts to the smallest [int64],
    as on amd64. *)
Definition Duration_of_float64 (d : PrimFloat.float) : Z :=
  match truncate d with
  | Some z => if (- 2 ^ 63 <=? z) && (z <? 2 ^ 63) then z else - 2 ^ 63
  | None => - 2 ^ 63
  end.

(** [time.Second], in nanoseconds. *)
Definition Second : Z := 1000000000.

(** ** The environment the service runs in *)

Record Env : Type := mkEnv {
  (** [services.Config.Devices] *)
  Devices : gmap string config.DeviceConf;
  (** [services.Configured["config/automata"].Get()] *)
  configDocument : string;
  (** [text/template]: parsing the document, and rendering it against the
      device inventory *)
  template_Parse : string -> option GoError;
  template_Execute : string -> gmap string config.DeviceConf -> string + GoError;
  (** [gofsm.Load] *)
  gofsm_Load : string -> gofsm_run.Automata + GoError;
  (** [govaluate]: the parser's verdict on a text, and evaluation of a
      compiled expression against a parameter lookup; evaluation calls the
      registered functions, so it acts on the world and can panic *)
  syntaxError : string -> option string;
  Eval : EvaluableExpression -> (string -> option Iface) -> World ->
         Outcome (Result * World);
  (** [os.Open] with the content read, and [json.Decoder.Decode] *)
  os_Open : string -> string + GoError;
  json_Decode : string -> gmap string gofsm.AutomatonState + GoError;
  (** [os.OpenFile] for appending, creating the file if need be: the error,
      if it fails *)
  os_OpenFile : string -> option GoError;
  (** the values [rand.Float64] returns, in order: each in [0, 1) *)
  rand_Float64 : nat -> PrimFloat.float;
  (** [strconv.ParseFloat(s, 64)] *)
  ParseFloat : string -> option PrimFloat.float;
  (** [util.FriendlyDuration], [time.Time.Format] and [fmt.Sprint] of a
      number or time *)
  FriendlyDuration : Z -> string;
  time_Format : string -> Z -> string;
  Sprint_number : Value -> string
}.

(** [config.ConfigPath("automata.state")] *)
Definition automataStatePath : string := "automata.state".
(** [config.LogPath("events.log")] *)
Definition eventsLogPath : string := "events.log".
(** [os.DevNull] *)
Definition DevNull : string := "/dev/null".

(** ** The service *)

(** Modelled from the spec: [services.Question] (package services is not
    part of the sources at hand), a query of the administrative surface; the
    service reads its argument text only. *)
Record Question : Type := mkQuestion {
  Args : string
}.

(** [log.Printf] and [log.Println]. *)
Definition logPrint (format : string) (args : list Value) (w : World) : World :=
  perform (LogPrint format args) w.

(** [EventContext.Get] *)
Definition EventContext_Get (c : EventContext) (name : string) : Outcome Value :=
  if String.eqb name "type" then
    ty ← index (GoStrings.SplitN2 (pubsub.Device (event c)) ".") 0;
    mret (VString ty)
  else if String.eqb name "topic" then mret (VString (pubsub.Topic (event c)))
  else if String.eqb name "timestamp" then mret (VTime (pubsub.Timestamp (event c)))
  else mret (default VNil (pubsub.Fields (event c) !! name)).

(** [State]: the current state of a named automaton. *)
Definition State (args : list Iface) (w : World) : Outcome (Result * World) :=
  if negb (length args =? 1)%nat then
    Ret (inr (ErrorString "Expected 1 arguments to State()"), w)
  else
    a0 ← index args 0;
    name ← assertString a0;
    match gofsm_run.AutomatonMap (automata w) !! name with
    | None => Ret (inr (ErrAutomataNotFound name), w)
    | Some aut => Ret (inl (VString (gofsm.Name (gofsm.CurState aut))), w)
    end.

(** [checkArguments]: arity, then each position against its declared type;
    an [int] or [int64] at a "float64" position is overwritten in the slice
    by its conversion.  The slice as left behind is returned with the
    verdict. *)
Fixpoint checkTypes (i : nat) (args : list Iface) (types : list string)
    : list Iface * option GoError :=
  match args, types with
  | arg :: args', ty :: types' =>
      if String.eqb ty "string" then
        match arg with
        | IVal (VString _) =>
            let '(rest, err) := checkTypes (S i) args' types' in (arg :: rest, err)
        | _ => (arg :: args', Some (ErrArgType ty i arg))
        end
      else if String.eqb ty "float64" then
        match arg with
        | IVal (VInt n) =>
            let '(rest, err) := checkTypes (S i) args' types' in
            (IVal (VFloat (float64_of_int n)) :: rest, err)
        | IVal (VInt64 n) =>
            let '(rest, err) := checkTypes (S i) args' types' in
            (IVal (VFloat (float64_of_int n)) :: rest, err)
        | IVal (VFloat _) =>
            let '(rest, err) := checkTypes (S i) args' types' in (arg :: rest, err)
        | _ => (arg :: args', Some (ErrArgType ty i arg))
        end
      else
        let '(rest, err) := checkTypes (S i) args' types' in (arg :: rest, err)
  | _, _ => (args, None)
  end.

Definition checkArguments (args : list Iface) (types : list string)
    : list Iface * option GoError :=
  if negb (length args =? length types)%nat then
    (args, Some (ErrArity (length types) (length args)))
  else checkTypes 0 args types.

(** [isSwitchable] *)
Definition isSwitchable (dev : config.DeviceConf) : bool :=
  default false (config.Cap dev !! "switch").

(** [publishState]: the retained "state" event. *)
Definition publishState (device state trigger : string) (w : World) : World :=
  let fields : gmap string Value :=
    {[ "device" := VString device; "state" := VString state;
       "trigger" := VString trigger ]} in
  let ev := pubsub.NewEvent (clock w) "state" fields in
  let ev := pubsub.SetRetained ev true in
  perform (Emit ev) w.

(** [Service.stateRestored]: one round of the loop over the automatons, and
    the loop. *)
Definition stateRestored_body (w : World) (kv : string * gofsm.Automaton) : World :=
  match restoredAutomaton w !! kv.1 with
  | Some _ => w
  | None =>
      let name := gofsm.Name (gofsm.CurState kv.2) in
      let w := publishState kv.1 name "initial" w in
      let w := logPrint "Initial state %s: %s" [VString kv.1; VString name] w in
      set_restoredAutomaton (<[kv.1 := true]> (restoredAutomaton w)) w
  end.

Definition stateRestored (w : World) : World :=
  foldl stateRestored_body w (map_to_list (gofsm_run.AutomatonMap (automata w))).

(** [Service.restoreState]: a retained "state" event of a known automaton
    is replayed into [Restore]. *)
Definition restoreState (ev : pubsub.Event) (w : World) : World :=
  let k := pubsub.Device ev in
  match gofsm_run.AutomatonMap (automata w) !! k with
  | Some _ =>
      let state : gmap string gofsm.AutomatonState :=
        {[ k := {| gofsm.SnapState := pubsub.StringField ev "state";
                   gofsm.SnapSince := pubsub.Timestamp ev |} ]} in
      let restored := gofsm_run.Restore state (automata w) in
      let w := set_automata restored w in
      let w :=
        match gofsm_run.AutomatonMap restored !! k with
        | Some aut =>
            logPrint "Restored %s: %s at %s"
              [VString k; VString (gofsm.Name (gofsm.CurState aut));
               VTime (gofsm.Since aut)] w
        | None => w
        end in
      set_restoredAutomaton (<[k := true]> (restoredAutomaton w)) w
  | None => w
  end.

(** [Service.queryState]: the administrative state override. *)
Definition queryState (q : Question) (w : World) : string * World :=
  match GoStrings.Split (Args q) " " with
  | [a0; a1] =>
      match gofsm_run.AutomatonMap (automata w) !! a0 with
      | None => ("automata: '" +:+ a0 +:+ "' not found", w)
      | Some aut =>
          match gofsm.States aut !! a1 with
          | None => ("automata state: '" +:+ a1 +:+ "' not found", w)
          | Some _ =>
              ("Change " +:+ a0 +:+ " state to " +:+ a1,
               set_automata
                 (gofsm_run.ChangeState (clock w) a0 a1 (TriggerDummy mkDummyEvent)
                    (automata w)) w)
          end
      end
  | _ => ("usage: state automata state", w)
  end.

(** [Service.startTimer]: a timer already registered under the name is
    stopped, a new one is made and registered. *)
Definition stopTimer (h : nat) (rt : list Timer) : list Timer :=
  alter (fun t => {| tName := tName t; tDelay := tDelay t; tPending := false |}) h rt.

Definition startTimer (name : string) (d : PrimFloat.float) (w : World) : World :=
  let w := logPrint "Starting timer: %s for %.1fs" [VString name; VFloat d] w in
  let duration := wrap64 (Duration_of_float64 d * Second) in
  let rt :=
    match timers w !! name with
    | Some h => stopTimer h (runtimeTimers w)
    | None => runtimeTimers w
    end in
  let timer := {| tName := name; tDelay := duration; tPending := true |} in
  set_timers (<[name := length rt]> (timers w)) (rt ++ [timer]) w.

(** The callback of a timer, run by the runtime when the timer expires and
    has not been stopped: it publishes the "timer" event. *)
Definition timerEvent (now : Z) (name : string) : pubsub.Event :=
  pubsub.NewEvent now "timer"
    {[ "device" := VString ("timer." +:+ name); "command" := VString "on" ]}.

Definition fireTimer (h : nat) (w : World) : World :=
  match runtimeTimers w !! h with
  | Some t =>
      if tPending t then
        perform (Emit (timerEvent (clock w) (tName t)))
          (set_timers (timers w) (stopTimer h (runtimeTimers w)) w)
      else w
  | None => w
  end.

(** [Service.StartTimer] *)
Definition StartTimer (args : list Iface) (w : World) : Outcome (Result * World) :=
  match checkArguments args [""; "string"; "float64"] with
  | (_, Some err) => Ret (inr err, w)
  | (args, None) =>
      a1 ← index args 1; name ← assertString a1;
      a2 ← index args 2; d ← assertFloat64 a2;
      Ret (inl VNil, startTimer name d w)
  end.

Section Service.
Context (E : Env).

(** [matchDevices]: the exact key if it is configured, else the switchable
    devices whose key contains the query. *)
Definition matchDevices (n : string) : list string :=
  match Devices E !! n with
  | Some _ => [n]
  | None =>
      (map_to_list (Devices E)) ≫= (fun kv =>
        if GoStrings.Contains kv.1 n && isSwitchable kv.2 then [kv.1] else [])
  end.

(** [keywordArgs], [parseArgs] and [sendCommand] *)
Definition keywordArgs (args : list string) : gmap string string :=
  foldl (fun ret arg =>
           match GoStrings.SplitN2 arg "=" with
           | [k; v] => <[k := v]> ret
           | p0 :: _ => <["" := p0]> ret
           | [] => ret
           end) ∅ args.

Definition parseArgs (args : list string) : string * gmap string Value :=
  let kwargs := keywordArgs args in
  (default "on" (kwargs !! ""),
   (fun value => match ParseFloat E value with
                 | Some num => VFloat num
                 | None => VString value
                 end) <$> delete "" kwargs).

Definition sendCommand (name command : string) (params : gmap string Value)
    (w : World) : World :=
  let ev := pubsub.NewEvent (clock w) "command" params in
  let ev := pubsub.SetField ev "command" (VString command) in
  let ev := pubsub.SetField ev "device" (VString name) in
  perform (Emit ev) w.

(** [fmt.Sprint] of a value. *)
Definition Sprint (v : Value) : string :=
  match v with
  | VString s => s
  | VBool true => "true"
  | VBool false => "false"
  | VNil => "<nil>"
  | _ => Sprint_number E v
  end.

(** [ChangeContext.Get] *)
Definition ChangeContext_Get (c : ChangeContext) (name : string) (w : World)
    : Outcome (option Value) :=
  let device := pubsub.Device (ccEvent c) in
  let d := default config.zeroDeviceConf (Devices E !! device) in
  let now := clock w in
  if String.eqb name "id" then mret (Some (VString (config.Id d)))
  else if String.eqb name "name" then mret (Some (VString (config.Name d)))
  else if String.eqb name "type" then
    ty ← index (GoStrings.Split (config.Id d) ".") 0; mret (Some (VString ty))
  else if String.eqb name "cap" then
    cap ← index (config.Caps d) 0; mret (Some (VString cap))
  else if String.eqb name "group" then mret (Some (VString (config.Group d)))
  else if String.eqb name "duration" then
    mret (Some (VString (FriendlyDuration E (gofsm_run.Duration (ccChange c)))))
  else if String.eqb name "timestamp" then
    mret (Some (VString (time_Format E "Kitchen" now)))
  else if String.eqb name "datetime" then
    mret (Some (VString (time_Format E "StampMilli" now)))
  else mret (pubsub.Fields (ccEvent c) !! name).

(** The matches of [reSub], the pattern [\$(\w+)]: the text is cut into
    literal bytes and maximal [$name] occurrences, left to right. *)
Inductive Token : Type :=
| Lit (c : ascii)
| Var (name : string).

Definition isWord (c : ascii) : bool :=
  let n := nat_of_ascii c in
  ((48 <=? n) && (n <=? 57) || (65 <=? n) && (n <=? 90)
   || (97 <=? n) && (n <=? 122) || (n =? 95))%nat.

Definition isDollar (c : ascii) : bool := Ascii.eqb c "$".

(** The token a pending [$] and the word bytes after it amount to. *)
Definition flush (cur : option string) : list Token :=
  match cur with
  | None => []
  | Some EmptyString => [Lit "$"]
  | Some name => [Var name]
  end.

Fixpoint scan (s : string) (cur : option string) : list Token :=
  match s with
  | EmptyString => flush cur
  | String c s' =>
      match cur with
      | Some name =>
          if isWord c then scan s' (Some (name +:+ String c EmptyString))
          else flush cur ++
               (if isDollar c then scan s' (Some EmptyString)
                else Lit c :: scan s' None)
      | None =>
          if isDollar c then scan s' (Some EmptyString)
          else Lit c :: scan s' None
      end
  end.

(** The replacement function handed to [ReplaceAllStringFunc]. *)
Definition substitute (c : ChangeContext) (w : World) (name : string) : Outcome string :=
  r ← ChangeContext_Get c name w;
  match r with
  | Some value => mret (Sprint value)
  | None => mret (String "$" name)
  end.

Fixpoint render (c : ChangeContext) (w : World) (ts : list Token) : Outcome string :=
  match ts with
  | [] => mret EmptyString
  | Lit b :: ts' => rest ← render c w ts'; mret (String b rest)
  | Var name :: ts' =>
      piece ← substitute c w name;
      rest ← render c w ts';
      mret (piece +:+ rest)
  end.

(** [ChangeContext.Format] *)
Definition Format (c : ChangeContext) (msg : string) (w : World) : Outcome string :=
  render c w (scan msg None).

(** [Service.appendLog] *)
Definition appendLog (msg : string) (w : World) : World :=
  let logMsg := time_Format E "StampMilli" (clock w) +:+ ": " +:+ msg in
  let w := perform (AppendLog logMsg) w in
  let fields : gmap string Value :=
    {[ "message" := VString msg; "source" := VString "event" ]} in
  perform (Emit (pubsub.NewEvent (clock w) "log" fields)) w.

(** [Service.Log] *)
Definition Log (args : list Iface) (w : World) : Outcome (Result * World) :=
  match checkArguments args [""; "string"] with
  | (_, Some err) => Ret (inr err, w)
  | (args, None) =>
      a0 ← index args 0; context ← assertChangeContext a0;
      a1 ← index args 1; msg ← assertString a1;
      msg ← Format context msg w;
      let w := appendLog msg w in
      let w := logPrint "Log: " [VString msg] w in
      Ret (inl VNil, w)
  end.

(** [Service.Script]: the script runs on a goroutine of its own. *)
Definition Script (args : list Iface) (w : World) : Outcome (Result * World) :=
  match checkArguments args [""; "string"] with
  | (_, Some err) => Ret (inr err, w)
  | (args, None) =>
      a0 ← index args 0; context ← assertChangeContext a0;
      a1 ← index args 1; cmd ← assertString a1;
      cmd ← Format context cmd w;
      Ret (inl VNil, perform (AsyncScript cmd) w)
  end.

(** [Service.Alert] (the log line shows the target with [strings.Title]
    applied; the alert itself carries it as given). *)
Definition Alert (args : list Iface) (w : World) : Outcome (Result * World) :=
  match checkArguments args [""; "string"; "string"] with
  | (_, Some err) => Ret (inr err, w)
  | (args, None) =>
      a0 ← index args 0; context ← assertChangeContext a0;
      a1 ← index args 1; msg ← assertString a1;
      a2 ← index args 2; target ← assertString a2;
      msg ← Format context msg w;
      let w := logPrint "%s: %s" [VString target; VString msg] w in
      Ret (inl VNil, perform (SendAlert msg target) w)
  end.

(** [Service.Query] *)
Definition Query (args : list Iface) (w : World) : Outcome (Result * World) :=
  match checkArguments args [""; "string"] with
  | (_, Some err) => Ret (inr err, w)
  | (args, None) =>
      a1 ← index args 1; query ← assertString a1;
      let w := logPrint "Query %s" [VString query] w in
      Ret (inl VNil, perform (QueryChannel query) w)
  end.

(** [Service.Command] *)
Definition Command (args : list Iface) (w : World) : Outcome (Result * World) :=
  match checkArguments args [""; "string"] with
  | (_, Some err) => Ret (inr err, w)
  | (args, None) =>
      a0 ← index args 0; context ← assertChangeContext a0;
      a1 ← index args 1; text ← assertString a1;
      text ← Format context text w;
      let argv := GoStrings.Split text " " in
      device ← index argv 0;
      let '(command, fields) := parseArgs (drop 1 argv) in
      Ret (inl VNil, sendCommand device command fields w)
  end.

(** [Service.Snapshot] *)
Definition Snapshot (args : list Iface) (w : World) : Outcome (Result * World) :=
  match checkArguments args [""; "string"; "string"; "string"] with
  | (_, Some err) => Ret (inr err, w)
  | (args, None) =>
      a0 ← index args 0; context ← assertChangeContext a0;
      a1 ← index args 1; device ← assertString a1;
      a2 ← index args 2; target ← assertString a2;
      a3 ← index args 3; msg ← assertString a3;
      msg ← Format context msg w;
      let fields : gmap string Value :=
        {[ "device" := VString device; "command" := VString "snapshot" ]} in
      let ev := pubsub.NewEvent (clock w) "command" fields in
      let ev := pubsub.SetField ev "message" (VString msg) in
      let ev := pubsub.SetField ev "notify" (VString target) in
      Ret (inl VNil, perform (Emit ev) w)
  end.

(** [Service.RandomTimer] *)
Definition RandomTimer (args : list Iface) (w : World) : Outcome (Result * World) :=
  match checkArguments args [""; "string"; "float64"; "float64"] with
  | (_, Some err) => Ret (inr err, w)
  | (args, None) =>
      a1 ← index args 1; name ← assertString a1;
      a2 ← index args 2; min ← assertFloat64 a2;
      a3 ← index args 3; max ← assertFloat64 a3;
      if PrimFloat.leb max min then
        Ret (inr (ErrorString "RandomTimer max must be greater than min"), w)
      else
        let r := rand_Float64 E (randPos w) in
        let w := set_randPos (S (randPos w)) w in
        let d := PrimFloat.add (PrimFloat.mul r (PrimFloat.sub max min)) min in
        Ret (inl VNil, startTimer name d w)
  end.

(** [Service.defineFunctions]: the function table handed to govaluate. *)
Definition functions : gmap string (list Iface -> World -> Outcome (Result * World)) :=
  {[ "State" := State; "Alert" := Alert; "Command" := Command; "Log" := Log;
     "Query" := Query; "Script" := Script; "Snapshot" := Snapshot;
     "StartTimer" := StartTimer; "RandomTimer" := RandomTimer ]}.

(** [govaluate.NewEvaluableExpressionWithFunctions] *)
Definition NewEvaluableExpressionWithFunctions (s : string)
    : EvaluableExpression + string :=
  match syntaxError E s with
  | Some reason => inr reason
  | None => inl (mkExpr s)
  end.

(** [Service.ParseCached]: a hit returns the cached expression; a miss
    compiles, and caches what compiled. *)
Definition ParseCached (s : string) (w : World)
    : (EvaluableExpression + GoError) * World :=
  match parsingCache w !! s with
  | Some expr => (inl expr, w)
  | None =>
      match NewEvaluableExpressionWithFunctions s with
      | inr reason => (inr (ErrBadExpression s reason), w)
      | inl expr => (inl expr, set_parsingCache (<[s := expr]> (parsingCache w)) w)
      end
  end.

(** The parameters a guard is evaluated against: [EventContext.Get]. *)
Definition guardParameters (self : EventContext) (name : string) : option Iface :=
  match EventContext_Get self name with
  | Ret v => Some (IVal v)
  | Panic _ => None
  end.

(** [EventContext.Match]: the guard of a transition against an event. *)
Definition Match (self : EventContext) (when : string) (w : World)
    : Outcome (bool * World) :=
  match ParseCached when w with
  | (inr err, w) =>
      Ret (false, perform (LogError "Error parsing expression '%s': %s" err) w)
  | (inl expr, w) =>
      r ← Eval E expr (guardParameters self) w;
      match r with
      | (inr err, w) =>
          Ret (false, perform (LogError "Error evaluating expression '%s': %s" err) w)
      | (inl result, w) =>
          (* result, ok := result.(bool): [result] now holds a bool *)
          let '(b, ok) := commaOkBool result in
          let result := VBool b in
          let w :=
            if ok then w
            else logPrint "Expression didn't evaluate to boolean '%s'" [VString when] w in
          b ← assertBool result;
          Ret (b, w)
      end
  end.

(** [EventContext.String]: the device, then every other field as
    [key=value]. *)
Definition EventContext_String (self : EventContext) : string :=
  foldl (fun s kv =>
           if String.eqb kv.1 "device" then s
           else s +:+ " " +:+ kv.1 +:+ "=" +:+ Sprint kv.2)
    (pubsub.Device (event self)) (map_to_list (pubsub.Fields (event self))).

(** [String()] of a trigger, as [fmt.Sprint] calls it. *)
Definition Trigger_String (t : Trigger) : string :=
  match t with
  | TriggerEvent c => EventContext_String c
  | TriggerDummy d => DummyEvent_String d
  end.

(** [changeState]: a Change taken from the channel is logged and published
    as the retained state of its automaton. *)
Definition changeState (change : gofsm_run.Change) (w : World) : World :=
  let w :=
    logPrint "%-40s (event: %s)"
      [VString (gofsm_run.ChAutomaton change); VString (gofsm_run.Old change);
       VString (gofsm_run.New change);
       VString (Trigger_String (gofsm_run.ChTrigger change))] w in
  publishState (gofsm_run.ChAutomaton change) (gofsm_run.New change)
    (Trigger_String (gofsm_run.ChTrigger change)) w.

(** [handleCommand]: a command to a scene is acknowledged. *)
Definition handleCommand (ev : pubsub.Event) (w : World) : World :=
  if GoStrings.HasPrefix (pubsub.Device ev) "scene." then
    let fields : gmap string Value :=
      {[ "device" := VString (pubsub.Device ev);
         "command" := VString (pubsub.Command ev) ]} in
    perform (Emit (pubsub.NewEvent (clock w) "ack" fields)) w
  else w.

(** [Service.performAction]: the action text gets the context as first
    argument, is compiled through the cache and evaluated with the context
    bound; an error of either step is logged. *)
Definition performAction (action : gofsm_run.Action) (w : World) : Outcome World :=
  let code := GoStrings.Replace1 (gofsm_run.ActName action) "(" "(context, " in
  match ParseCached code w with
  | (inr err, w) => Ret (perform (LogError "Error parsing action:" err) w)
  | (inl expr, w) =>
      match gofsm_run.ActTrigger action with
      | TriggerDummy _ => Panic "interface conversion: not EventContext"
      | TriggerEvent e =>
          let context :=
            {| ccEvent := event e; ccChange := gofsm_run.ActChange action |} in
          r ← Eval E expr (fun name =>
                             if String.eqb name "context" then Some (IContext context)
                             else None) w;
          match r with
          | (inr err, w) => Ret (perform (LogError "Error action '%s': %s" err) w)
          | (inl _, w) => Ret w
          end
      end
  end.


(** The expressions of a rule set that [loadAutomata] precompiles: of every
    automaton, guard and actions of every transition, then entering and
    leaving actions of every state. *)
Definition transitionExpressions (t : gofsm.Transition) : list string :=
  gofsm.When t :: gofsm.Actions t.

Definition automatonExpressions (aut : gofsm.Automaton) : list string :=
  ((map_to_list (gofsm.Transitions aut)) ≫= (fun kv => kv.2 ≫= transitionExpressions))
  ++ ((map_to_list (gofsm.States aut)) ≫= (fun kv =>
        gofsm.Entering kv.2 ++ gofsm.Leaving kv.2)).

Definition expressions (a : gofsm_run.Automata) : list string :=
  (map_to_list (gofsm_run.AutomatonMap a)) ≫= (fun kv => automatonExpressions kv.2).

(** One [ParseCached] of the precompile loop, with the errors so far. *)
Definition precompile (acc : list GoError * World) (s : string)
    : list GoError * World :=
  match ParseCached s acc.2 with
  | (inr err, w) => (acc.1 ++ [err], w)
  | (inl _, w) => (acc.1, w)
  end.

(** [Service.loadAutomata] *)
Definition loadAutomata (w : World) : option GoError * World :=
  match template_Parse E (configDocument E) with
  | Some err => (Some err, w)
  | None =>
      match template_Execute E (configDocument E) (Devices E) with
      | inr err => (Some err, w)
      | inl generated =>
          match gofsm_Load E generated with
          | inr err => (Some err, w)
          | inl updated =>
              let w := set_parsingCache ∅ w in
              let '(errors, w) := foldl precompile ([], w) (expressions updated) in
              match errors with
              | [] => (None, set_automata updated w)
              | _ => (Some (MultiError errors), w)
              end
          end
      end
  end.

(** [openLogFile]: the event log is opened; when that fails the failure
    is logged and the null device is opened in its place. *)
Definition openLogFile (w : World) : World :=
  let w := perform (OpenFile eventsLogPath) w in
  match os_OpenFile E eventsLogPath with
  | Some err =>
      let w := perform (LogError "Couldn't open events.log:" err) w in
      perform (OpenFile DevNull) w
  | None => w
  end.

(** [Service.Run], up to the event loop: the fields of the service are
    initialised and the rule set is loaded. *)
Definition Run_init (w : World) : option GoError * World :=
  let w := openLogFile w in
  let w := set_timers ∅ (runtimeTimers w) w in
  let w := set_restoredAutomaton ∅ w in
  loadAutomata w.

(** The case [<-self.configUpdated] of the event loop: live reload. *)
Definition Run_configUpdated (w : World) : World :=
  let w := logPrint "Automata config updated, reloading" [] w in
  let state := gofsm_run.Persist (automata w) in
  match loadAutomata w with
  | (Some err, w) => perform (LogError "Failed to reload automata:" err) w
  | (None, w) =>
      let w := set_automata (gofsm_run.Restore state (automata w)) w in
      let w := logPrint "Automata reloaded successfully" [] w in
      stateRestored w
  end.

End Service.

(** The case [ev := <-ch] of the event loop for a retained event that is
    not a command: a "state" event is replayed, any other is ignored. *)
Definition Run_retained (ev : pubsub.Event) (w : World) : World :=
  if String.eqb (pubsub.Topic ev) "state" then restoreState ev w else w.

(** The cases of the event loop that decide which automatons count as
    restored: a retained event, a reload (under the environment of that
    moment), the expiry of the reconciliation timer; and any other
    processing, which may leave the automatons in other states. *)
Inductive LoopCase : Type :=
| CaseRetained (ev : pubsub.Event)
| CaseConfigUpdated (E : Env)
| CaseStateRestored
| CaseEngine (a : gofsm_run.Automata).

Definition Run_select (c : LoopCase) (w : World) : World :=
  match c with
  | CaseRetained ev => Run_retained ev w
  | CaseConfigUpdated E => Run_configUpdated E w
  | CaseStateRestored => stateRestored w
  | CaseEngine a => set_automata a w
  end.

Definition Run_loop (cs : list LoopCase) (w : World) : World :=
  foldl (fun w c => Run_select c w) w cs.

(** The steps timers take: the service starts one, or the runtime fires
    one. *)
Inductive TimerStep : Type :=
| StepStart (name : string) (d : PrimFloat.float)
| StepFire (h : nat).

Definition timerStep (s : TimerStep) (w : World) : World :=
  match s with
  | StepStart name d => startTimer name d w
  | StepFire h => fireTimer h w
  end.

Definition timerSteps (ss : list TimerStep) (w : World) : World :=
  foldl (fun w s => timerStep s w) w ss.


(** ** Vocabulary of the properties *)

(** What a declared type accepts, and what is stored back. *)
Definition accepts (ty : string) (arg : Iface) : bool :=
  if String.eqb ty "string" then
    match arg with IVal (VString _) => true | _ => false end
  else if String.eqb ty "float64" then
    match arg with
    | IVal (VInt _) | IVal (VInt64 _) | IVal (VFloat _) => true
    | _ => false
    end
  else true.

Definition coerce (ty : string) (arg : Iface) : Iface :=
  if String.eqb ty "float64" then
    match arg with
    | IVal (VInt n) | IVal (VInt64 n) => IVal (VFloat (float64_of_int n))
    | _ => arg
    end
  else arg.

(** The text a token stands for in the message, and the text of a list of
    tokens. *)
Definition tokenText (t : Token) : string :=
  match t with
  | Lit c => String c EmptyString
  | Var name => String "$" name
  end.

Definition verbatim (ts : list Token) : string :=
  foldr (fun t rest => tokenText t +:+ rest) EmptyString ts.

(** The text a scan in progress has consumed and not yet emitted. *)
Definition pendingText (cur : option string) : string :=
  match cur with
  | None => EmptyString
  | Some name => String "$" name
  end.

(** The names a token list refers to. *)
Definition names (ts : list Token) : list string :=
  omap (fun t => match t with Var name => Some name | Lit _ => None end) ts.

(** What [Format] puts in the place of a token: the string form of the
    value the name resolves to, or the occurrence itself. *)
Definition replacement (E : Env) (c : ChangeContext) (w : World) (t : Token) : string :=
  match t with
  | Lit b => String b EmptyString
  | Var name =>
      match ChangeContext_Get E c name w with
      | Ret (Some value) => Sprint E value
      | _ => String "$" name
      end
  end.

(** The device record an execution context resolves metadata from. *)
Definition contextDevice (E : Env) (c : ChangeContext) : config.DeviceConf :=
  default config.zeroDeviceConf (Devices E !! pubsub.Device (ccEvent c)).

(** The compiled form of a text, when it compiles. *)
Definition compiled (E : Env) (s : string) : option EvaluableExpression :=
  match NewEvaluableExpressionWithFunctions E s with
  | inl expr => Some expr
  | inr _ => None
  end.

(** The error [ParseCached] reports for a text in a world, if any: the text
    is not cached and does not compile. *)
Definition compileError (E : Env) (w : World) (s : string) : option GoError :=
  match parsingCache w !! s with
  | Some _ => None
  | None =>
      match syntaxError E s with
      | Some reason => Some (ErrBadExpression s reason)
      | None => None
      end
  end.

(** The candidate rule set of a reload: the document parsed as a template,
    rendered against the inventory and loaded. *)
Definition loadCandidate (E : Env) : gofsm_run.Automata + GoError :=
  match template_Parse E (configDocument E) with
  | Some err => inr err
  | None =>
      match template_Execute E (configDocument E) (Devices E) with
      | inr err => inr err
      | inl generated => gofsm_Load E generated
      end
  end.

(** The retained "state" event [publishState] builds. *)
Definition stateEvent (now : Z) (device state trigger : string) : pubsub.Event :=
  pubsub.SetRetained
    (pubsub.NewEvent now "state"
       {[ "device" := VString device; "state" := VString state;
          "trigger" := VString trigger ]})
    true.

(** A retained "state" event of device [k] with trigger "initial". *)
Definition isInitialFor (k : string) (ev : pubsub.Event) : bool :=
  String.eqb (pubsub.Topic ev) "state" && pubsub.Retained ev
  && String.eqb (pubsub.Device ev) k
  && String.eqb (pubsub.StringField ev "trigger") "initial".




(** A timer that can still fire and whose callback is for [name]. *)
Definition isPending (name : string) (t : Timer) : bool :=
  tPending t && String.eqb (tName t) name.

Definition pendingCount (name : string) (w : World) : nat :=
  length (List.filter (isPending name) (runtimeTimers w)).

(** A "timer" event of the timer [name]. *)
Definition isFiringOf (name : string) (ev : pubsub.Event) : bool :=
  String.eqb (pubsub.Topic ev) "timer"
  && String.eqb (pubsub.Device ev) ("timer." +:+ name).

Definition firings (name : string) (w : World) : list pubsub.Event :=
  List.filter (isFiringOf name) (published w).

(** Every timer that can still fire is the one registered under its name. *)
Definition registered (w : World) : Prop :=
  forall h t, runtimeTimers w !! h = Some t -> tPending t = true ->
              timers w !! tName t = Some h.

(** Every registered handle is a timer of the runtime. *)
Definition handles_valid (w : World) : Prop :=
  forall name h, timers w !! name = Some h -> is_Some (runtimeTimers w !! h).

(** The invariant of the timer manager. *)
Definition timers_inv (w : World) : Prop := registered w /\ handles_valid w.

(** ** More of the service *)

(** The slice of packages [strings], [sort] and [path] the rest of the
    service uses. *)
Module GoLib.

(** [strings.Join] *)
Fixpoint Join (elems : list string) (sep : string) : string :=
  match elems with
  | [] => EmptyString
  | [x] => x
  | x :: rest => x +:+ sep +:+ Join rest sep
  end.

(** [sort.Strings]: ascending in the byte order of strings. *)
Definition sort_Strings (l : list string) : list string := merge_sort String.le l.

(** A path without its trailing slashes. *)
Fixpoint stripSlashes (s : string) : string :=
  match s with
  | EmptyString => EmptyString
  | String c s' =>
      let rest := stripSlashes s' in
      if Ascii.eqb c "/" && String.eqb rest EmptyString then EmptyString
      else String c rest
  end.

(** The text after the last slash of [s], [acc] being what was read since
    the last slash seen. *)
Fixpoint lastElement (s acc : string) : string :=
  match s with
  | EmptyString => acc
  | String c s' =>
      if Ascii.eqb c "/" then lastElement s' EmptyString
      else lastElement s' (acc +:+ String c EmptyString)
  end.

(** [path.Base]: "." for the empty path, "/" for a path of slashes only,
    else the last element without trailing slashes. *)
Definition Base (p : string) : string :=
  if String.eqb p EmptyString then "."
  else
    let last := lastElement (stripSlashes p) EmptyString in
    if String.eqb last EmptyString then "/" else last.

End GoLib.

(** What running a script needs from the host: the path of a script name
    under the scripts directory,
    [path.Join(util.ExpandUser(services.Config.General.Scripts), name)]; the
    combined output and the error of [exec.Command(cmd, args...)]; the text
    of an error; and [strings.TrimSpace]. *)
Record ScriptHost : Type := mkScriptHost {
  scriptPath : string -> string;
  CombinedOutput : string -> list string -> string * option GoError;
  errorText : GoError -> string;
  TrimSpace : string -> string
}.

(** [script]: the first word of the command names the script, the other
    words are its arguments. *)
Definition script (H : ScriptHost) (command : string) (w : World)
    : Outcome ((string * option GoError) * World) :=
  let args := GoStrings.Split command " " in
  a0 ← index args 0;
  let name := GoLib.Base a0 in
  if String.eqb name "" then
    Ret (("", Some (ErrorString "Expected a script name argument")), w)
  else
    let args := drop 1 args in
    let cmd := scriptPath H name in
    let w := logPrint "Running script:" [VString cmd] w in
    Ret (CombinedOutput H cmd args, w).

(** [Service.queryScript] *)
Definition queryScript (H : ScriptHost) (q : Question) (w : World)
    : Outcome (string * World) :=
  r ← script H (Args q) w;
  match r with
  | ((_, Some err), w) => Ret ("Script failed: " +:+ errorText H err, w)
  | ((output, None), w) => Ret (output, w)
  end.

(** The goroutine [asyncScript] starts: the script is run and its outcome
    logged. *)
Definition asyncScript_run (H : ScriptHost) (command : string) (w : World)
    : Outcome World :=
  r ← script H command w;
  let '((output, err), w) := r in
  let w :=
    match err with
    | Some e =>
        logPrint "Script '%s' failed: %s" [VString command; VString (errorText H e)] w
    | None => w
    end in
  let output := TrimSpace H output in
  Ret (logPrint "Script '%s' successful: %s" [VString command; VString output] w).

(** [NewEventContext] *)
Definition NewEventContext (ev : pubsub.Event) : EventContext := mkEventContext ev.

(** The case [ev := <-ch] of the event loop, [Process] being
    [automata.Process] of package gofsm: a command is handled and goes no
    further, a retained event is replayed or ignored, any other event is
    sent to the automata. *)
Definition Run_event (Process : EventContext -> World -> Outcome World)
    (ev : pubsub.Event) (w : World) : Outcome World :=
  if String.eqb (pubsub.Topic ev) "command" then Ret (handleCommand ev w)
  else if pubsub.Retained ev then Ret (Run_retained ev w)
  else Process (NewEventContext ev) w.

Section Queries.
Context (E : Env).

(** [Service.querySwitch]: without arguments the sorted list of devices;
    else the first word is resolved to a device and the rest sent to it as
    a command. *)
Definition querySwitch (q : Question) (w : World) : Outcome (string * World) :=
  if String.eqb (Args q) "" then
    let devices := (map_to_list (Devices E)).*1 in
    Ret (GoLib.Join (GoLib.sort_Strings devices) ", ", w)
  else
    let args := GoStrings.Split (Args q) " " in
    name ← index args 0;
    let matches := matchDevices E name in
    if (length matches =? 0)%nat then
      Ret ("device " +:+ name +:+ " not found", w)
    else if (1 <? length matches)%nat then
      Ret ("device " +:+ GoLib.Join matches ", " +:+ " is ambiguous", w)
    else
      m0 ← index matches 0;
      let dev := default config.zeroDeviceConf (Devices E !! m0) in
      let '(command, fields) := parseArgs E (drop 1 args) in
      Ret ("Switched " +:+ config.Name dev +:+ " " +:+ command,
           sendCommand m0 command fields w).

End Queries.

(** ** The publisher behind [services.Publisher] *)

(** The interface [pubsub.Publisher]. *)
Module Publisher.

Class Interface (P : Type) : Type := {
  ID : P -> string;
  Emit : P -> pubsub.Event -> P;
  Close : P -> P
}.

End Publisher.

(** Package [dummy]: the publisher the tests install, which keeps the
    events it is given. *)
Module dummy.

Record Publisher : Type := mkPublisher {
  Events : list pubsub.Event
}.

Definition ID (self : Publisher) : string := "dummy".

Definition Emit (self : Publisher) (ev : pubsub.Event) : Publisher :=
  {| Events := Events self ++ [ev] |}.

Definition Close (self : Publisher) : Publisher := self.

End dummy.

Global Instance dummy_Publisher : Publisher.Interface dummy.Publisher :=
  {| Publisher.ID := dummy.ID; Publisher.Emit := dummy.Emit;
     Publisher.Close := dummy.Close |}.

(** The calls of [services.Publisher.Emit] among the outside calls of a
    run, made on a publisher. *)
Definition deliver {P : Type} `{Publisher.Interface P} (calls : list Effect) (p : P)
    : P :=
  foldl (fun p e => match e with
                    | Emit ev => Publisher.Emit p ev
                    | _ => p
                    end) p calls.

(** ** Service rtl433: sensor readings to events *)

(** A decoded JSON value, as [json.Unmarshal] stores it in an
    [interface{}]. *)
Inductive JSON : Type :=
| JNull
| JBool (b : bool)
| JNumber (f : PrimFloat.float)
| JString (s : string)
| JArray (l : list JSON)
| JObject (m : list (string * JSON)).

Module rtl433.

(** What the service takes from outside: [json.Unmarshal] into a map (the
    map it leaves, nil when the payload is no document, and whether it
    failed), [fmt.Sprintf] with [%v] of a map entry, the local time a
    timestamp text stands for, in UTC, and
    [services.Config.AddDeviceToEvent]. *)
Record Host : Type := mkHost {
  Unmarshal : string -> gmap string JSON * bool;
  Sprintv : option JSON -> string;
  parseLocal : string -> option Z;
  AddDeviceToEvent : pubsub.Event -> pubsub.Event
}.

Definition modelMap : gmap string string :=
  {[ "CurrentCost-Sensable" := "power"; "Oregon-CM180" := "power";
     "Oregon-THGR122N" := "temp"; "Oregon-THN132N" := "temp";
     "Nexus-TH" := "temp"; "TFA-TwinPlus" := "temp" ]}.

Definition fieldMap : gmap string string :=
  {[ "battery_ok" := "battery"; "power0" := "power"; "power1" := "power2";
     "power2" := "power3"; "power_W" := "power"; "energy_kWh" := "total";
     "temperature_C" := "temp"; "humidity" := "humidity" ]}.

Definition skipFields : gmap string bool :=
  {[ "brand" := true; "model" := true; "id" := true; "time" := true;
     "mic" := true; "power1" := true; "power2" := true ]}.

(** The comma-ok assertion [value, ok := value.(float64)]. *)
Definition commaOkFloat64 (v : JSON) : PrimFloat.float * bool :=
  match v with
  | JNumber f => (f, true)
  | _ => (PrimFloat.zero, false)
  end.

(** One round of the loop over the reading.  The assertion in the
    condition declares a new [value], of type float64, which is the one
    the branches of the whole statement store. *)
Definition translateField (model : string) (fields : gmap string Value)
    (kv : string * JSON) : gmap string Value :=
  let key := kv.1 in
  if default false (skipFields !! key) then fields
  else
    let '(value, ok) := commaOkFloat64 kv.2 in
    if String.eqb key "humidity" && String.eqb model "TFA-TwinPlus" && ok then
      <["rain" := VFloat (PrimFloat.add value (float64_of_int 28))]> fields
    else
      match fieldMap !! key with
      | Some to => <[to := VFloat value]> fields
      | None => <[key := VFloat value]> fields
      end.

(** [translateEvent] *)
Definition translateEvent (H : Host) (now : Z) (data : gmap string JSON)
    : Outcome pubsub.Event :=
  let model := match data !! "model" with Some (JString s) => s | _ => "" end in
  let source := model +:+ "." +:+ Sprintv H (data !! "id") in
  let topic := default "rtl433" (modelMap !! model) in
  let fields : gmap string Value := {[ "source" := VString source ]} in
  let fields := foldl (translateField model) fields (map_to_list data) in
  let ev := pubsub.NewEvent now topic fields in
  time ← match data !! "time" with
         | Some (JString s) => Ret s
         | _ => Panic "interface conversion: not string"
         end;
  let ev :=
    match parseLocal H time with
    | Some timestamp =>
        {| pubsub.Topic := pubsub.Topic ev; pubsub.Fields := pubsub.Fields ev;
           pubsub.Timestamp := timestamp; pubsub.Retained := pubsub.Retained ev |}
    | None => ev
    end in
  Ret (AddDeviceToEvent H ev).

(** [emit] and [parse] *)
Definition emit {P : Type} `{Publisher.Interface P} (H : Host) (now : Z)
    (data : gmap string JSON) (p : P) : Outcome P :=
  ev ← translateEvent H now data;
  Ret (Publisher.Emit p ev).

Definition parse (H : Host) (payload : string) : gmap string JSON :=
  let '(data, failed) := Unmarshal H payload in
  if failed then ∅ else data.

(** The handler [Run] subscribes to "rtl_433/#". *)
Definition Run_handler {P : Type} `{Publisher.Interface P} (H : Host) (now : Z)
    (payload : string) (p : P) : Outcome P :=
  emit H now (parse H payload) p.

(** The field a reading is stored under, and what is stored. *)
Definition isRain (model key : string) (value : JSON) : bool :=
  String.eqb key "humidity" && String.eqb model "TFA-TwinPlus"
  && (commaOkFloat64 value).2.

Definition fieldName (model key : string) (value : JSON) : string :=
  if isRain model key value then "rain" else default key (fieldMap !! key).

Definition number (value : JSON) : PrimFloat.float :=
  match value with
  | JNumber f => f
  | _ => PrimFloat.zero
  end.

Definition stored (model key : string) (value : JSON) : Value :=
  if isRain model key value
  then VFloat (PrimFloat.add (number value) (float64_of_int 28))
  else VFloat (number value).

(** The names of [skipFields]. *)
Definition skipped (key : string) : bool := default false (skipFields !! key).

End rtl433.

(** ** Service zigbee: zigbee2mqtt messages to events *)

Module zigbee.

(** What the service reads of an [MQTT.Message]. *)
Record MQTT_Message : Type := mkMessage {
  Topic : string;
  Payload : string
}.

(** [LogMessage], with the two entries of its [Meta]. *)
Record LogMessage : Type := mkLogMessage {
  Message : string;
  Description : string;
  FriendlyName : string
}.

(** What a field of a translated event holds: an entry of the message as
    decoded, a text, or an [int]. *)
Inductive FieldValue : Type :=
| Raw (v : JSON)
| Text (s : string)
| Int (n : Z).

(** What the service takes from outside: [json.Unmarshal] into a map, nil
    on failure, and into a [LogMessage], with what it has filled in and
    whether it failed; [strings.ToLower]; [DimToPercentage]; and the
    event [pubsub.NewEvent] makes of a topic and fields, once
    [services.Config.AddDeviceToEvent] has set its device. *)
Record Host : Type := mkHost {
  Unmarshal : string -> option (gmap string JSON);
  UnmarshalLog : string -> LogMessage * bool;
  ToLower : string -> string;
  DimToPercentage : Z -> Z;
  event : Z -> string -> gmap string FieldValue -> pubsub.Event
}.

Definition topicMap : gmap string string :=
  {[ "state" := "ack"; "temperature" := "temp" ]}.

Definition fieldMap : gmap string string :=
  {[ "temperature" := "temp" ]}.

(** [strings.HasSuffix] *)
Fixpoint HasSuffix (s suffix : string) : bool :=
  String.eqb s suffix
  || match s with
     | EmptyString => false
     | String _ s' => HasSuffix s' suffix
     end.

(** The rest of [s] after the prefix [p], when [s] starts with it. *)
Fixpoint cutPrefix (p s : string) : option string :=
  match p with
  | EmptyString => Some s
  | String a p' =>
      match s with
      | String b s' => if Ascii.eqb a b then cutPrefix p' s' else None
      | EmptyString => None
      end
  end.

(** [getDevice]: the last element of the topic. *)
Definition getDevice (topic : string) : Outcome string :=
  let ps := GoStrings.Split topic "/" in
  index ps (length ps - 1).

(** [deviceUpdate.MatchString], for the pattern [^zigbee2mqtt/[^/]+$]. *)
Definition deviceUpdate (topic : string) : bool :=
  match cutPrefix "zigbee2mqtt/" topic with
  | Some rest =>
      negb (String.eqb rest EmptyString)
      && match GoStrings.cut rest "/" with
         | None => true
         | Some _ => false
         end
  | None => false
  end.

(** [checkDup], on the map [dedup]. *)
Definition checkDup (message : MQTT_Message) (dedup : gmap string string)
    : bool * gmap string string :=
  let payload := Payload message in
  match dedup !! Topic message with
  | Some last =>
      if String.eqb payload last then (true, dedup)
      else (false, <[Topic message := payload]> dedup)
  | None => (false, <[Topic message := payload]> dedup)
  end.

(** [checkLogMessage]: what it logs and publishes. *)
Definition checkLogMessage (H : Host) (now : Z) (message : MQTT_Message)
    : list Effect :=
  let '(msg, failed) := UnmarshalLog H (Payload message) in
  let failure :=
    if failed then
      [LogPrint "Failed to parse message %s: '%s'"
         [VString (Topic message); VString (Payload message)]]
    else [] in
  if negb (String.eqb (Message msg) "interview_successful") then failure
  else
    let source := "zigbee." +:+ FriendlyName msg in
    let fields : gmap string FieldValue :=
      {[ "source" := Text source; "name" := Text (Description msg) ]} in
    failure
    ++ [LogPrint "Announcing %s: %s" [VString source; VString (Description msg)];
        Emit (event H now "announce" fields)].

(** [int(f)] for a [float64] f. *)
Definition int_of_float64 (f : PrimFloat.float) : Z := Duration_of_float64 f.

(** One round of the loop over the entries of a device update, on the
    topic and the fields so far. *)
Definition translateField (H : Host) (acc : string * gmap string FieldValue)
    (kv : string * JSON) : Outcome (string * gmap string FieldValue) :=
  let '(topic, fields) := acc in
  let '(key, value) := kv in
  let topic := default topic (topicMap !! key) in
  if String.eqb key "state" then
    match value with
    | JString s => Ret (topic, <["command" := Text (ToLower H s)]> fields)
    | _ => Panic "interface conversion: not string"
    end
  else if String.eqb key "brightness" then
    match value with
    | JNumber f =>
        Ret (topic, <["level" := Int (DimToPercentage H (int_of_float64 f))]> fields)
    | _ => Panic "interface conversion: not float64"
    end
  else
    match fieldMap !! key with
    | Some to => Ret (topic, <[to := Raw value]> fields)
    | None => Ret (topic, <[key := Raw value]> fields)
    end.

Fixpoint translateFields (H : Host) (acc : string * gmap string FieldValue)
    (l : list (string * JSON)) : Outcome (string * gmap string FieldValue) :=
  match l with
  | [] => Ret acc
  | kv :: l' => acc' ← translateField H acc kv; translateFields H acc' l'
  end.

(** [translate]: the event of a message, if any, the map [dedup] as left,
    and what was logged and published on the way. *)
Definition translate (H : Host) (now : Z) (message : MQTT_Message)
    (dedup : gmap string string)
    : Outcome (option pubsub.Event * gmap string string * list Effect) :=
  if String.eqb (Topic message) "zigbee2mqtt/bridge/log" then
    Ret (None, dedup, checkLogMessage H now message)
  else if GoStrings.HasPrefix (Topic message) "zigbee2mqtt/bridge/" then
    Ret (None, dedup, [])
  else if HasSuffix (Topic message) "/set" then Ret (None, dedup, [])
  else if negb (deviceUpdate (Topic message)) then
    Ret (None, dedup, [LogPrint "Ignoring topic: %s" [VString (Topic message)]])
  else
    let '(dup, dedup) := checkDup message dedup in
    if dup then Ret (None, dedup, [])
    else
      match Unmarshal H (Payload message) with
      | None =>
          Ret (None, dedup,
               [LogPrint "Failed to parse message %s: '%s'"
                  [VString (Topic message); VString (Payload message)]])
      | Some data =>
          device ← getDevice (Topic message);
          let source := "zigbee." +:+ device in
          let fields : gmap string FieldValue := {[ "source" := Text source ]} in
          r ← translateFields H ("zigbee", fields) (map_to_list data);
          Ret (Some (event H now r.1 r.2), dedup, [])
      end.

(** An entry the loop panics on. *)
Definition malformed (kv : string * JSON) : bool :=
  if String.eqb kv.1 "state" then
    match kv.2 with JString _ => false | _ => true end
  else if String.eqb kv.1 "brightness" then
    match kv.2 with JNumber _ => false | _ => true end
  else false.

(** The topics [translate] reads a device update from: those that pass its
    four tests on the topic. *)
Definition listened (topic : string) : bool :=
  negb (String.eqb topic "zigbee2mqtt/bridge/log")
  && negb (GoStrings.HasPrefix topic "zigbee2mqtt/bridge/")
  && negb (HasSuffix topic "/set")
  && deviceUpdate topic.

End zigbee.

(** ** Vocabulary of the further properties *)

(** Every entry of the cache is the compiled form of its key. *)
Definition cache_coherent (E : Env) (w : World) : Prop :=
  forall s expr, parsingCache w !! s = Some expr -> compiled E s = Some expr.

(** The error [loadAutomata] collects for a text that does not compile. *)
Definition badExpression (E : Env) (s : string) : option GoError :=
  ErrBadExpression s <$> syntaxError E s.

(** What one word of a command binds: the key before its first "=" to
    the text after it, or the empty key to the word when it has no "=". *)
Definition binding (arg : string) : string * string :=
  match GoStrings.cut arg "=" with
  | Some (k, v) => (k, v)
  | None => (EmptyString, arg)
  end.

(** The text the last word that binds [k] binds it to. *)
Definition bound (k : string) (args : list string) : option string :=
  last (omap (fun arg => if String.eqb (binding arg).1 k then Some (binding arg).2
                         else None) args).

(** The field value [parseArgs] stores for a text. *)
Definition fieldValue (E : Env) (value : string) : Value :=
  match ParseFloat E value with
  | Some num => VFloat num
  | None => VString value
  end.

(** Every registered handle is a timer of its name. *)
Definition handles_named (w : World) : Prop :=
  forall name h t, timers w !! name = Some h -> runtimeTimers w !! h = Some t ->
                   tName t = name.

(** The names [ChangeContext.Get] resolves itself. *)
Definition reservedNames : list string :=
  ["id"; "name"; "type"; "cap"; "group"; "duration"; "timestamp"; "datetime"].

(** No byte of the text is the separator. *)
Definition free_of (sep : ascii) (s : string) : Prop :=
  forall a b, s <> a +:+ String sep b.

(** ** A small installation, for concrete runs *)

Module Example.

Definition kitchen : config.DeviceConf :=
  {| config.Id := "light.kitchen"; config.Name := "Kitchen light";
     config.Caps := ["light"; "switch"]; config.Group := "downstairs";
     config.Cap := {[ "light" := true; "switch" := true ]} |}.

Definition doorbell : config.DeviceConf :=
  {| config.Id := "bell.front"; config.Name := "Front door bell";
     config.Caps := ["bell"]; config.Group := "hall";
     config.Cap := {[ "bell" := true ]} |}.

Definition off : gofsm.State :=
  {| gofsm.Name := "off"; gofsm.Entering := []; gofsm.Leaving := [] |}.
Definition on : gofsm.State :=
  {| gofsm.Name := "on"; gofsm.Entering := ["Log('light on')"]; gofsm.Leaving := [] |}.

(** An automaton "light" with states off (initial) and on; [guard] is the
    condition of its transition from off to on. *)
Definition light (guard : string) : gofsm.Automaton :=
  {| gofsm.States := {[ "off" := off; "on" := on ]};
     gofsm.Transitions :=
       {[ "off" := [ {| gofsm.When := guard;
                        gofsm.Actions := ["StartTimer('light', 60)"];
                        gofsm.To := "on" |} ] ]};
     gofsm.CurState := off;
     gofsm.Since := 0 |}.

Definition ruleSet (guard : string) : gofsm_run.Automata :=
  {| gofsm_run.AutomatonMap := {[ "light" := light guard ]};
     gofsm_run.Actions := [];
     gofsm_run.Changes := [] |}.

(** The byte [0x22], and a text between two of them. *)
Definition quote : ascii := "034"%char.

Definition quoted (s : string) : string :=
  String quote (s +:+ String quote EmptyString).

(** The content of the snapshot file: the JSON document that says that
    "light" was on at the start of the epoch. *)
Definition snapshot : string :=
  "{" +:+ quoted "light" +:+ ":{" +:+ quoted "State" +:+ ":" +:+ quoted "on"
  +:+ "," +:+ quoted "Since" +:+ ":" +:+ quoted "1970-01-01T00:00:00Z" +:+ "}}".

(** The number a text of decimal digits writes. *)
Fixpoint decimal (s : string) (acc : Z) : option Z :=
  match s with
  | EmptyString => Some acc
  | String c s' =>
      let n := nat_of_ascii c in
      if ((48 <=? n) && (n <=? 57))%nat
      then decimal s' (10 * acc + Z.of_nat (n - 48))
      else None
  end.

(** The environment: the rule document is its own rendering and loads to
    the rule set whose guard it is; the parser rejects an unbalanced
    parenthesis; the guard [State(1)] evaluates by calling the registered
    function [State] on the number 1, any other to true; the event log
    opens; the snapshot file holds [snapshot], which is the one document
    the decoder is asked for, any other text being refused; a text of one
    to fifteen decimal digits parses as the number it writes, and no
    other text of the runs is a number. *)
Definition env (document : string) : Env :=
  {| Devices := {[ "light.kitchen" := kitchen; "bell.front" := doorbell ]};
     configDocument := document;
     template_Parse := fun _ => None;
     template_Execute := fun doc _ => inl doc;
     gofsm_Load := fun generated => inl (ruleSet generated);
     syntaxError := fun s =>
       if String.eqb s "(" then Some "Unbalanced parenthesis" else None;
     Eval := fun expr _ w =>
       if String.eqb (inputExpression expr) "State(1)" then
         State [IVal (VFloat (float64_of_int 1))] w
       else Ret (inl (VBool true), w);
     os_Open := fun path =>
       if String.eqb path automataStatePath then inl snapshot
       else inr (ErrorString "no such file");
     json_Decode := fun text =>
       if String.eqb text snapshot
       then inl {[ "light" := {| gofsm.SnapState := "on"; gofsm.SnapSince := 0 |} ]}
       else inr (ErrorString "invalid character");
     os_OpenFile := fun _ => None;
     rand_Float64 := fun _ => PrimFloat.div (float64_of_int 1) (float64_of_int 2);
     ParseFloat := fun s =>
       if (Nat.ltb 0 (String.length s) && Nat.leb (String.length s) 15)%bool
       then float64_of_int <$> decimal s 0
       else None;
     FriendlyDuration := fun _ => "a moment";
     time_Format := fun _ _ => "now";
     Sprint_number := fun _ => "0" |}.

(** The world of a process that has not started the service yet. *)
Definition world0 : World :=
  {| automata := {| gofsm_run.AutomatonMap := ∅; gofsm_run.Actions := [];
                    gofsm_run.Changes := [] |};
     parsingCache := ∅; timers := ∅; restoredAutomaton := ∅;
     runtimeTimers := []; clock := 0; randPos := 0; trace := [] |}.

(** An event of a device that is not in the inventory. *)
Definition tick : pubsub.Event :=
  pubsub.NewEvent 0 "timer"
    {[ "device" := VString "timer.light"; "command" := VString "on" ]}.

Definition tickContext : ChangeContext :=
  {| ccEvent := tick;
     ccChange := gofsm_run.mkChange "light" "off" "on" 0
                   (TriggerEvent (mkEventContext tick)) |}.

(** The service after a start with a rule set that compiles. *)
Definition running : World := (Run_init (env "command == 'on'") world0).2.

End Example.
(** * Properties *)

(** ** Strings *)

Lemma append_String (c : ascii) (p r : string) :
  String c p +:+ r = String c (p +:+ r).
Proof. reflexivity. Qed.

Lemma append_empty_l (r : string) : "" +:+ r = r.
Proof. reflexivity. Qed.

Lemma prefix_app (p s : string) :
  String.prefix p s = true <-> exists r, s = p +:+ r.
Proof.
  revert s. induction p as [|c p IH]; intros s.
  - split; [intros _; by exists s | by destruct s].
  - destruct s as [|c' s]; simpl.
    + split; [done | intros [r Hr]; discriminate].
    + setoid_rewrite append_String.
      destruct (Ascii.ascii_dec c c') as [->|Hne].
      * rewrite IH. split; intros [r Hr]; exists r; congruence.
      * split; [done | intros [r Hr]; congruence].
Qed.

Lemma Contains_unfold (s sub : string) :
  GoStrings.Contains s sub =
  if String.prefix sub s then true
  else match s with
       | EmptyString => false
       | String _ s' => GoStrings.Contains s' sub
       end.
Proof. by destruct s. Qed.

Lemma Contains_spec (s sub : string) :
  GoStrings.Contains s sub = true <-> exists l r, s = l +:+ sub +:+ r.
Proof.
  induction s as [|c s IH]; rewrite Contains_unfold;
    destruct (String.prefix sub _) eqn:Hp.
  - split; [intros _ | done].
    apply prefix_app in Hp as [r Hr]. by exists "", r.
  - split; [done |]. intros [l [r Hlr]].
    destruct l; [| discriminate]. rewrite append_empty_l in Hlr.
    assert (String.prefix sub "" = true) by (apply prefix_app; eauto).
    congruence.
  - split; [intros _ | done].
    apply prefix_app in Hp as [r Hr]. by exists "", r.
  - rewrite IH. split.
    + intros [l [r ->]]. by exists (String c l), r.
    + intros [l [r Hlr]]. destruct l as [|c' l].
      * rewrite append_empty_l in Hlr.
        assert (String.prefix sub (String c s) = true)
          by (apply prefix_app; eauto).
        congruence.
      * rewrite append_String in Hlr. injection Hlr as -> ->. eauto.
Qed.

(** ** Device lookup *)

(** C9. [matchDevices n] is exactly [[n]] when [n] is the key of a
    configured device, switchable or not; otherwise it lists, each once,
    exactly the configured devices whose key contains [n] and that have the
    "switch" capability. *)
Theorem matchDevices_spec (E : Env) (n : string) :
  match Devices E !! n with
  | Some _ => matchDevices E n = [n]
  | None =>
      NoDup (matchDevices E n) /\
      forall m, m ∈ matchDevices E n <->
                exists dev, Devices E !! m = Some dev
                            /\ (exists l r, m = l +:+ n +:+ r)
                            /\ config.Cap dev !! "switch" = Some true
  end.
Proof.
  unfold matchDevices. destruct (Devices E !! n) as [d|] eqn:Hn; [done|].
  split.
  - apply NoDup_bind.
    + intros [k1 d1] [k2 d2] y H1 H2 Hy1 Hy2. simpl in *.
      destruct (_ && _) in Hy1; [| by apply elem_of_nil in Hy1].
      destruct (_ && _) in Hy2; [| by apply elem_of_nil in Hy2].
      apply list_elem_of_singleton in Hy1, Hy2. subst.
      apply elem_of_map_to_list in H1, H2. congruence.
    + intros [k d] _. simpl. destruct (_ && _); [apply NoDup_singleton | apply NoDup_nil_2].
    + apply NoDup_map_to_list.
  - intros m. rewrite list_elem_of_bind. split.
    + intros [[k d] [Hm Hk]]. simpl in Hm.
      destruct (GoStrings.Contains k n) eqn:Hc; simpl in Hm;
        [| by apply elem_of_nil in Hm].
      unfold isSwitchable in Hm.
      destruct (config.Cap d !! "switch") as [[|]|] eqn:Hs; simpl in Hm;
        try by apply elem_of_nil in Hm.
      apply list_elem_of_singleton in Hm. subst m.
      apply elem_of_map_to_list in Hk. apply Contains_spec in Hc. eauto.
    + intros [dev [Hm [Hc Hs]]]. exists (m, dev). split.
      * simpl. apply Contains_spec in Hc. rewrite Hc. unfold isSwitchable.
        rewrite Hs. simpl. by apply list_elem_of_singleton.
      * by apply elem_of_map_to_list.
Qed.

(** ** Administrative state override *)

Lemma ChangeState_known (now : Z) (name to : string) (t : Trigger)
    (a : gofsm_run.Automata) (aut : gofsm.Automaton) (st : gofsm.State) :
  gofsm_run.AutomatonMap a !! name = Some aut ->
  gofsm.States aut !! to = Some st ->
  gofsm_run.AutomatonMap (gofsm_run.ChangeState now name to t a)
    = <[name := gofsm_run.setState aut st now]> (gofsm_run.AutomatonMap a)
  /\ gofsm_run.Changes (gofsm_run.ChangeState now name to t a)
     = gofsm_run.Changes a ++
       [gofsm_run.mkChange name (gofsm.Name (gofsm.CurState aut)) to
          (now - gofsm.Since aut) t].
Proof. intros Ha Hs. unfold gofsm_run.ChangeState. by rewrite Ha, Hs. Qed.

(** C10. [queryState] changes the world only when the query splits into
    exactly two arguments naming an existing automaton and one of its
    states: then it performs [ChangeState] with a [DummyEvent] trigger, whose
    string form is "user" and whose [Match] is false on every guard.  In
    every other case the world is untouched, no Change is queued, and the
    answer is the usage line or a not-found message. *)
Theorem queryState_guarded (q : Question) (w : World) :
  let d := mkDummyEvent in
  (DummyEvent_String d = "user" /\ forall s, DummyEvent_Match d s = false) /\
  ((exists a0 a1 aut st,
      GoStrings.Split (Args q) " " = [a0; a1]
      /\ gofsm_run.AutomatonMap (automata w) !! a0 = Some aut
      /\ gofsm.States aut !! a1 = Some st
      /\ queryState q w =
           ("Change " +:+ a0 +:+ " state to " +:+ a1,
            set_automata
              (gofsm_run.ChangeState (clock w) a0 a1 (TriggerDummy d) (automata w)) w)
      /\ gofsm_run.Changes (automata (queryState q w).2)
         = gofsm_run.Changes (automata w) ++
           [gofsm_run.mkChange a0 (gofsm.Name (gofsm.CurState aut)) a1
              (clock w - gofsm.Since aut) (TriggerDummy d)])
   \/
   ((queryState q w).2 = w
    /\ ((length (GoStrings.Split (Args q) " ") <> 2%nat
         /\ (queryState q w).1 = "usage: state automata state")
        \/ (exists a0 a1,
              GoStrings.Split (Args q) " " = [a0; a1]
              /\ gofsm_run.AutomatonMap (automata w) !! a0 = None
              /\ (queryState q w).1 = "automata: '" +:+ a0 +:+ "' not found")
        \/ (exists a0 a1 aut,
              GoStrings.Split (Args q) " " = [a0; a1]
              /\ gofsm_run.AutomatonMap (automata w) !! a0 = Some aut
              /\ gofsm.States aut !! a1 = None
              /\ (queryState q w).1 = "automata state: '" +:+ a1 +:+ "' not found")))).
Proof.
  intros d. split; [by split|].
  unfold queryState.
  destruct (GoStrings.Split (Args q) " ") as [|a0 [|a1 [|a2 rest]]] eqn:Hsplit;
    try (right; split; [done|]; left; by split).
  destruct (gofsm_run.AutomatonMap (automata w) !! a0) as [aut|] eqn:Haut.
  - destruct (gofsm.States aut !! a1) as [st|] eqn:Hst.
    + left. exists a0, a1, aut, st. repeat split; try done.
      exact (proj2 (ChangeState_known (clock w) a0 a1 (TriggerDummy d)
                      (automata w) aut st Haut Hst)).
    + right. split; [done|]. right; right. by exists a0, a1, aut.
  - right. split; [done|]. right; left. by exists a0, a1.
Qed.

(** ** Guards *)

Lemma assertBool_commaOk (v : Value) :
  assertBool (VBool (commaOkBool v).1)
  = Ret (match v with VBool b => b | _ => false end).
Proof. by destruct v. Qed.

(** C2, as the code has it.  [Match] answers false when the guard does not
    compile, when its evaluation returns an error and when it yields a value
    that is not a boolean, and answers the boolean otherwise: the forced
    assertion at its end never fails, because the comma-ok assertion before
    it has stored a boolean.  [Match] recovers from nothing: it panics
    exactly when the evaluation of the guard panics. *)
Theorem Match_outcome (E : Env) (self : EventContext) (when : string) (w : World) :
  match ParseCached E when w with
  | (inr _, _) => exists w', Match E self when w = Ret (false, w')
  | (inl expr, w1) =>
      match Eval E expr (guardParameters self) w1 with
      | Panic msg => Match E self when w = Panic msg
      | Ret (inr _, _) => exists w', Match E self when w = Ret (false, w')
      | Ret (inl v, _) =>
          exists w', Match E self when w
                     = Ret (match v with VBool b => b | _ => false end, w')
      end
  end.
Proof.
  unfold Match. destruct (ParseCached E when w) as [[expr|err] w1]; [|eauto].
  destruct (Eval E expr (guardParameters self) w1) as [[[v|err] w2]|msg];
    simpl; [|eauto|done].
  destruct v; simpl; eauto.
Qed.

(** The guard [State(1)] compiles, and its evaluation calls [State] on a
    number: the forced assertion in [State] panics, and so does [Match]. *)
Lemma Match_State_number_panics :
  Match (Example.env "State(1)") (mkEventContext Example.tick) "State(1)"
    Example.world0
  = Panic "interface conversion: not string".
Proof. vm_compute. reflexivity. Qed.

(** ** Argument checking *)

Lemma checkTypes_accepted (i : nat) (args : list Iface) (types : list string) :
  length args = length types ->
  Forall2 (fun ty arg => accepts ty arg = true) types args ->
  checkTypes i args types = (zip_with coerce types args, None).
Proof.
  intros _ H. revert i. induction H as [|ty arg types args Hacc _ IH]; intros i; [done|].
  simpl. unfold accepts, coerce in *.
  destruct (String.eqb_spec ty "string") as [->|_].
  - destruct arg as [[]|]; try discriminate. by rewrite IH.
  - destruct (String.eqb ty "float64").
    + destruct arg as [[]|]; try discriminate; by rewrite IH.
    + by rewrite IH.
Qed.

Lemma checkTypes_rejected (i : nat) (args : list Iface) (types : list string) :
  length args = length types ->
  ~ Forall2 (fun ty arg => accepts ty arg = true) types args ->
  exists ty j arg,
    (checkTypes i args types).2 = Some (ErrArgType ty (i + j) arg)
    /\ types !! j = Some ty /\ args !! j = Some arg /\ accepts ty arg = false.
Proof.
  revert i types. induction args as [|arg args IH]; intros i [|ty types] Hlen Hno;
    try discriminate.
  - destruct Hno. constructor.
  - simpl in Hlen.
    destruct (accepts ty arg) eqn:Hacc.
    + destruct (IH (S i) types) as (ty' & j & arg' & Herr & Hty & Harg & Hrej).
      * congruence.
      * intros H. apply Hno. by constructor.
      * exists ty', (S j), arg'. repeat split; try done.
        replace (i + S j)%nat with (S i + j)%nat by lia. rewrite <- Herr.
        simpl. unfold accepts in Hacc.
        destruct (String.eqb ty "string").
        -- destruct arg as [[]|]; try discriminate.
           by destruct (checkTypes (S i) args types).
        -- destruct (String.eqb ty "float64").
           ++ destruct arg as [[]|]; try discriminate;
                by destruct (checkTypes (S i) args types).
           ++ by destruct (checkTypes (S i) args types).
    + exists ty, 0%nat, arg. repeat split; try done.
      rewrite Nat.add_0_r. simpl. unfold accepts in Hacc.
      destruct (String.eqb ty "string").
      * by destruct arg as [[]|].
      * destruct (String.eqb ty "float64"); [|done]. by destruct arg as [[]|].
Qed.

(** [checkArguments] accepts exactly the lists of the declared length whose
    every position is accepted by its type, and then hands back the list
    with the integers at "float64" positions converted. *)
Lemma checkArguments_accepts (args : list Iface) (types : list string) :
  length args = length types ->
  Forall2 (fun ty arg => accepts ty arg = true) types args ->
  checkArguments args types = (zip_with coerce types args, None).
Proof.
  intros Hlen H. unfold checkArguments.
  rewrite Hlen, Nat.eqb_refl. simpl. by apply checkTypes_accepted.
Qed.

Lemma checkArguments_rejects (args : list Iface) (types : list string) :
  ~ (length args = length types
     /\ Forall2 (fun ty arg => accepts ty arg = true) types args) ->
  exists err, (checkArguments args types).2 = Some err.
Proof.
  intros Hno. unfold checkArguments.
  destruct (Nat.eqb_spec (length args) (length types)) as [Hlen|Hlen]; simpl.
  - destruct (checkTypes_rejected 0 args types Hlen) as (ty & j & arg & Herr & _);
      [tauto | eauto].
  - eauto.
Qed.

(** Every function that validates through [checkArguments] returns the
    error of a failed check, and does nothing else. *)
Lemma checked_functions_reject (E : Env) (args : list Iface) (w : World) :
  (forall err, (checkArguments args [""; "string"]).2 = Some err ->
     Log E args w = Ret (inr err, w) /\ Script E args w = Ret (inr err, w)
     /\ Query args w = Ret (inr err, w) /\ Command E args w = Ret (inr err, w))
  /\ (forall err, (checkArguments args [""; "string"; "string"]).2 = Some err ->
        Alert E args w = Ret (inr err, w))
  /\ (forall err, (checkArguments args [""; "string"; "string"; "string"]).2 = Some err ->
        Snapshot E args w = Ret (inr err, w))
  /\ (forall err, (checkArguments args [""; "string"; "float64"]).2 = Some err ->
        StartTimer args w = Ret (inr err, w))
  /\ (forall err, (checkArguments args [""; "string"; "float64"; "float64"]).2 = Some err ->
        RandomTimer E args w = Ret (inr err, w)).
Proof.
  unfold Log, Script, Query, Command, Alert, Snapshot, StartTimer, RandomTimer.
  repeat match goal with
         | |- _ /\ _ => split
         | |- forall _, _ => intro
         end;
    match goal with
    | H : (checkArguments args ?tys).2 = Some _ |- _ =>
        destruct (checkArguments args tys) as [args' [err'|]]; simpl in H; congruence
    end.
Qed.

(** C4, where the code departs from it.  [State] checks the number of its
    arguments only: on a number its forced assertion panics, where a function
    validated by [checkArguments] (here [Query], with the same argument at
    its string position) returns a type error and does nothing. *)
Theorem State_skips_type_check (E : Env) (f : PrimFloat.float) (w : World) :
  State [IVal (VFloat f)] w = Panic "interface conversion: not string"
  /\ Query [IVal VNil; IVal (VFloat f)] w
     = Ret (inr (ErrArgType "string" 1 (IVal (VFloat f))), w)
  /\ State [] w = Ret (inr (ErrorString "Expected 1 arguments to State()"), w).
Proof.
  split; [reflexivity|]. split; [|reflexivity].
  apply (checked_functions_reject E [IVal VNil; IVal (VFloat f)] w).
  reflexivity.
Qed.

(** Position 0 is declared with the empty type and is not checked: a
    function that uses the context panics on a list that passed the check
    with something else in its place, one that does not use it goes on. *)
Lemma context_position_unchecked (E : Env) (s msg : string) (w : World) :
  Log E [IVal (VString s); IVal (VString msg)] w
  = Panic "interface conversion: not ChangeContext"
  /\ Query [IVal (VString s); IVal (VString msg)] w
     = Ret (inl VNil, perform (QueryChannel msg) (logPrint "Query %s" [VString msg] w)).
Proof. split; reflexivity. Qed.

(** ** Random timers *)

(** [RandomTimer] on a well-formed call: an inverted or empty range is
    rejected with the world untouched; otherwise one value is drawn and one
    timer is started with the delay computed from it. *)
Lemma RandomTimer_checked (E : Env) (ctx : Iface) (name : string)
    (min max : PrimFloat.float) (w : World) :
  RandomTimer E [ctx; IVal (VString name); IVal (VFloat min); IVal (VFloat max)] w
  = if PrimFloat.leb max min then
      Ret (inr (ErrorString "RandomTimer max must be greater than min"), w)
    else
      Ret (inl VNil,
           startTimer name
             (PrimFloat.add
                (PrimFloat.mul (rand_Float64 E (randPos w)) (PrimFloat.sub max min))
                min)
             (set_randPos (S (randPos w)) w)).
Proof. reflexivity. Qed.

(** ** Message interpolation *)

Lemma append_assoc (a b c : string) : (a +:+ b) +:+ c = a +:+ (b +:+ c).
Proof.
  induction a as [|x a IH]; [done|]. rewrite !append_String. by rewrite IH.
Qed.

Lemma append_empty_r (a : string) : a +:+ "" = a.
Proof. induction a as [|x a IH]; [done|]. by rewrite append_String, IH. Qed.

Lemma verbatim_app (ts us : list Token) :
  verbatim (ts ++ us) = verbatim ts +:+ verbatim us.
Proof.
  induction ts as [|t ts IH]; [done|]. simpl. by rewrite IH, append_assoc.
Qed.

Lemma verbatim_flush (cur : option string) : verbatim (flush cur) = pendingText cur.
Proof.
  destruct cur as [[|c name]|]; simpl; try done.
  by rewrite append_empty_r.
Qed.

(** The scan loses nothing: the tokens spell the message. *)
Lemma scan_verbatim (s : string) (cur : option string) :
  verbatim (scan s cur) = pendingText cur +:+ s.
Proof.
  revert cur. induction s as [|c s IH]; intros cur; simpl.
  - by rewrite verbatim_flush, append_empty_r.
  - destruct cur as [name|].
    + destruct (isWord c).
      * rewrite IH. simpl. rewrite !append_String. f_equal.
        by rewrite append_assoc.
      * rewrite verbatim_app, verbatim_flush. f_equal.
        unfold isDollar. destruct (Ascii.eqb_spec c "$") as [->|_].
        -- by rewrite IH.
        -- simpl. by rewrite IH.
    + unfold isDollar. destruct (Ascii.eqb_spec c "$") as [->|_].
      * by rewrite IH.
      * simpl. by rewrite IH.
Qed.

Lemma Split_nonempty (s : string) (sep : ascii) : GoStrings.Split s sep <> [].
Proof.
  induction s as [|c s IH]; simpl; [done|].
  destruct (Ascii.eqb c sep); [done|]. by destruct (GoStrings.Split s sep).
Qed.

(** The lookup panics on one name only, "cap", and only when the device
    has no capability. *)
Lemma ChangeContext_Get_total (E : Env) (c : ChangeContext) (name : string) (w : World) :
  name <> "cap" \/ config.Caps (contextDevice E c) <> [] ->
  exists r, ChangeContext_Get E c name w = Ret r.
Proof.
  intros H. unfold ChangeContext_Get. fold (contextDevice E c).
  repeat match goal with
         | |- context [String.eqb name ?k] =>
             destruct (String.eqb_spec name k) as [->|?]
         end; simpl; eauto.
  - unfold index.
    destruct (GoStrings.Split (config.Id (contextDevice E c)) ".") as [|x l] eqn:Hs;
      [by apply Split_nonempty in Hs | simpl; eauto].
  - destruct H as [H|H]; [done|].
    destruct (config.Caps (contextDevice E c)); [done | simpl; eauto].
Qed.

Lemma render_replacement (E : Env) (c : ChangeContext) (w : World) (ts : list Token) :
  (forall name, name ∈ names ts -> exists r, ChangeContext_Get E c name w = Ret r) ->
  render E c w ts = Ret (foldr (fun t rest => replacement E c w t +:+ rest) "" ts).
Proof.
  induction ts as [|[b|name] ts IH]; intros Hres; simpl.
  - done.
  - rewrite IH; [done|]. intros n Hn. apply Hres. done.
  - destruct (Hres name) as [r Hr]; [simpl; left|].
    unfold substitute. rewrite Hr. simpl.
    rewrite IH; [by destruct r|]. intros n Hn. apply Hres. simpl. by right.
Qed.

(** When the device of the context has a capability, or the message does
    not mention [$cap], [Format] returns the message with each [$name]
    occurrence replaced by the string form of what the name resolves to, and
    each occurrence that does not resolve left as it is. *)
Lemma Format_replaces (E : Env) (c : ChangeContext) (msg : string) (w : World) :
  "cap" ∉ names (scan msg None) \/ config.Caps (contextDevice E c) <> [] ->
  Format E c msg w
  = Ret (foldr (fun t rest => replacement E c w t +:+ rest) "" (scan msg None))
  /\ verbatim (scan msg None) = msg.
Proof.
  intros H. split; [|by rewrite scan_verbatim].
  apply render_replacement. intros name Hname.
  apply ChangeContext_Get_total.
  destruct H as [H|H]; [left; congruence | by right].
Qed.

Lemma replacement_plain (E : Env) (c : ChangeContext) (w : World) (ts : list Token) :
  names ts = [] ->
  foldr (fun t rest => replacement E c w t +:+ rest) "" ts = verbatim ts.
Proof.
  induction ts as [|[b|name] ts IH]; intros Hn; simpl in *; [done| |done].
  by rewrite IH.
Qed.

(** A message without [$name] occurrences is returned as it is. *)
Lemma Format_plain (E : Env) (c : ChangeContext) (msg : string) (w : World) :
  names (scan msg None) = [] -> Format E c msg w = Ret msg.
Proof.
  intros Hn. destruct (Format_replaces E c msg w) as [-> Hv].
  { left. rewrite Hn. apply not_elem_of_nil. }
  by rewrite replacement_plain, Hv.
Qed.

(** C7, where the code departs from it.  For an event of a device that is
    not in the inventory the lookup of "cap" indexes an empty list: [Format]
    panics on [$cap] instead of returning a string. *)
Theorem Format_cap_unconfigured (E : Env) (c : ChangeContext) (w : World) :
  Devices E !! pubsub.Device (ccEvent c) = None ->
  Format E c "$cap" w = Panic "index out of range".
Proof.
  intros Hdev. unfold Format. simpl. unfold substitute, ChangeContext_Get.
  rewrite Hdev. reflexivity.
Qed.

Lemma Format_cap_unconfigured_witness :
  Devices (Example.env "") !! pubsub.Device (ccEvent Example.tickContext) = None
  /\ Format (Example.env "") Example.tickContext "$cap" Example.world0
     = Panic "index out of range".
Proof.
  split; [reflexivity|]. apply Format_cap_unconfigured. reflexivity.
Defined.

(** ** Reload *)

Lemma ParseCached_frame (E : Env) (s : string) (w : World) :
  (ParseCached E s w).2 = set_parsingCache (parsingCache (ParseCached E s w).2) w.
Proof.
  unfold ParseCached. destruct (parsingCache w !! s); [by destruct w|].
  destruct (NewEvaluableExpressionWithFunctions E s); [done | by destruct w].
Qed.

Lemma compileError_insert (E : Env) (w : World) (s : string)
    (expr : EvaluableExpression) (x : string) :
  compileError E w s = None ->
  compileError E (set_parsingCache (<[s := expr]> (parsingCache w)) w) x
  = compileError E w x.
Proof.
  intros Hs. unfold compileError in *. simpl.
  destruct (decide (s = x)) as [->|Hne].
  - rewrite lookup_insert_eq. by destruct (parsingCache w !! x).
  - by rewrite lookup_insert_ne.
Qed.

Lemma omap_compileError_insert (E : Env) (w : World) (s : string)
    (expr : EvaluableExpression) (l : list string) :
  compileError E w s = None ->
  omap (compileError E (set_parsingCache (<[s := expr]> (parsingCache w)) w)) l
  = omap (compileError E w) l.
Proof.
  intros Hs. induction l as [|x l IH]; [done|]. csimpl.
  by rewrite compileError_insert, IH.
Qed.

Lemma precompile_step (E : Env) (errs : list GoError) (w : World) (x : string) :
  precompile E (errs, w) x
  = match parsingCache w !! x with
    | Some _ => (errs, w)
    | None =>
        match syntaxError E x with
        | Some reason => (errs ++ [ErrBadExpression x reason], w)
        | None => (errs, set_parsingCache (<[x := mkExpr x]> (parsingCache w)) w)
        end
    end.
Proof.
  unfold precompile, ParseCached, NewEvaluableExpressionWithFunctions. simpl.
  destruct (parsingCache w !! x); [done|]. by destruct (syntaxError E x).
Qed.

Lemma foldl_cons {A B : Type} (f : A -> B -> A) (a : A) (x : B) (l : list B) :
  foldl f a (x :: l) = foldl f (f a x) l.
Proof. reflexivity. Qed.

(** The precompile loop: the world changes in its cache only; the cache
    gains exactly the texts of the list that compile; one error is collected
    for every occurrence of a text that is neither cached nor compiles. *)
Lemma foldl_precompile (E : Env) (l : list string) (errs : list GoError) (w : World) :
  let r := foldl (precompile E) (errs, w) l in
  r.2 = set_parsingCache (parsingCache r.2) w
  /\ (forall s, parsingCache r.2 !! s
                = match parsingCache w !! s with
                  | Some expr => Some expr
                  | None => if decide (s ∈ l) then compiled E s else None
                  end)
  /\ r.1 = errs ++ omap (compileError E w) l.
Proof.
  revert errs w. induction l as [|x l IH]; intros errs w r; subst r.
  - split; [by destruct w|]. split; [|by rewrite app_nil_r].
    intros s. simpl. by destruct (parsingCache w !! s).
  - rewrite foldl_cons, precompile_step. csimpl. unfold compileError at 1.
    destruct (parsingCache w !! x) as [expr|] eqn:Hx.
    + destruct (IH errs w) as (Hframe & Hcache & Herrs).
      split; [done|]. split; [|done].
      intros s. rewrite Hcache. destruct (parsingCache w !! s) eqn:Hs; [done|].
      destruct (decide (s ∈ l)) as [Hin|Hin].
      * rewrite decide_True; [done | by right].
      * rewrite decide_False; [done|].
        intros [->|?]%elem_of_cons; congruence.
    + destruct (syntaxError E x) as [reason|] eqn:Hsyn.
      * destruct (IH (errs ++ [ErrBadExpression x reason]) w) as (Hframe & Hcache & Herrs).
        split; [done|]. split; [|by rewrite Herrs, <- app_assoc].
        intros s. rewrite Hcache. destruct (parsingCache w !! s) eqn:Hs; [done|].
        destruct (decide (s ∈ l)) as [Hin|Hin].
        -- rewrite decide_True; [done | by right].
        -- destruct (decide (s ∈ x :: l)) as [[->|?]%elem_of_cons|?]; try done.
           unfold compiled, NewEvaluableExpressionWithFunctions. by rewrite Hsyn.
      * set (w1 := set_parsingCache (<[x := mkExpr x]> (parsingCache w)) w).
        destruct (IH errs w1) as (Hframe & Hcache & Herrs).
        split; [by rewrite Hframe|]. split.
        -- intros s. rewrite Hcache. unfold w1. simpl.
           destruct (decide (x = s)) as [->|Hne].
           ++ rewrite lookup_insert_eq, Hx.
              rewrite decide_True; [|by left].
              unfold compiled, NewEvaluableExpressionWithFunctions. by rewrite Hsyn.
           ++ rewrite lookup_insert_ne by done.
              destruct (parsingCache w !! s); [done|].
              destruct (decide (s ∈ l)) as [Hin|Hin].
              ** rewrite decide_True; [done | by right].
              ** rewrite decide_False; [done|].
                 intros [->|?]%elem_of_cons; congruence.
        -- rewrite Herrs. f_equal. apply omap_compileError_insert.
           unfold compileError. by rewrite Hx, Hsyn.
Qed.

Lemma omap_compileError_nil (E : Env) (w : World) (l : list string) :
  parsingCache w = ∅ ->
  omap (compileError E w) l = [] <-> Forall (fun s => is_Some (compiled E s)) l.
Proof.
  intros Hc. induction l as [|x l IH]; csimpl; [by split|].
  rewrite Forall_cons, <- IH.
  unfold compileError at 1, compiled, NewEvaluableExpressionWithFunctions.
  rewrite Hc, lookup_empty.
  destruct (syntaxError E x) as [reason|].
  - split; [done | by intros [[? ?] _]].
  - split; [by split; eauto | by intros [_ ?]].
Qed.

(** A reload changes the rule set and the cache only. *)
Lemma loadAutomata_frame (E : Env) (w : World) :
  let r := loadAutomata E w in
  timers r.2 = timers w /\ restoredAutomaton r.2 = restoredAutomaton w
  /\ runtimeTimers r.2 = runtimeTimers w /\ trace r.2 = trace w.
Proof.
  unfold loadAutomata.
  destruct (template_Parse E (configDocument E)); [done|].
  destruct (template_Execute E (configDocument E) (Devices E)) as [generated|]; [|done].
  destruct (gofsm_Load E generated) as [updated|]; [|done].
  pose proof (foldl_precompile E (expressions updated) [] (set_parsingCache ∅ w))
    as (Hframe & _).
  destruct (foldl (precompile E) ([], set_parsingCache ∅ w) (expressions updated))
    as [errors w'].
  cbn [fst snd] in *. destruct errors; rewrite Hframe; done.
Qed.

(** C1, as the code has it.  A reload that fails before the rule set is
    loaded (template or rule document) leaves the world as it was.  Once a
    candidate is loaded the cache is emptied and refilled from the
    candidate whatever follows: it ends up holding exactly the candidate's
    expressions that compile.  If all compile, the candidate becomes the
    active rule set and nil is returned; if not, the active rule set is left
    as it was and the collected errors are returned.  Nothing else in the
    world changes. *)
Theorem loadAutomata_reload (E : Env) (w : World) :
  match loadCandidate E with
  | inr err => loadAutomata E w = (Some err, w)
  | inl updated =>
      let r := loadAutomata E w in
      (forall s, parsingCache r.2 !! s
                 = if decide (s ∈ expressions updated) then compiled E s else None)
      /\ (Forall (fun s => is_Some (compiled E s)) (expressions updated) ->
          r.1 = None /\ automata r.2 = updated)
      /\ (~ Forall (fun s => is_Some (compiled E s)) (expressions updated) ->
          (exists errs, r.1 = Some (MultiError errs) /\ errs <> [])
          /\ automata r.2 = automata w)
      /\ timers r.2 = timers w /\ restoredAutomaton r.2 = restoredAutomaton w
      /\ runtimeTimers r.2 = runtimeTimers w /\ trace r.2 = trace w
  end.
Proof.
  unfold loadCandidate, loadAutomata.
  destruct (template_Parse E (configDocument E)); [done|].
  destruct (template_Execute E (configDocument E) (Devices E)) as [generated|]; [|done].
  destruct (gofsm_Load E generated) as [updated|]; [|done].
  pose proof (foldl_precompile E (expressions updated) [] (set_parsingCache ∅ w))
    as (Hframe & Hcache & Herrs).
  destruct (foldl (precompile E) ([], set_parsingCache ∅ w) (expressions updated))
    as [errors w'].
  cbn [fst snd] in Hframe, Hcache, Herrs. rewrite app_nil_l in Herrs.
  assert (Hnil : errors = []
                 <-> Forall (fun s => is_Some (compiled E s)) (expressions updated)).
  { rewrite Herrs. by apply omap_compileError_nil. }
  cbn [fst snd].
  assert (Hc : forall s, parsingCache w' !! s
                         = if decide (s ∈ expressions updated) then compiled E s else None).
  { intros s. rewrite Hcache. cbn [parsingCache set_parsingCache].
    by rewrite lookup_empty. }
  destruct errors as [|e errors]; simpl.
  - split; [done|]. split; [done|]. split; [intros Hno; by destruct Hno; apply Hnil|].
    by rewrite Hframe.
  - split; [done|]. split; [intros Hall; by apply Hnil in Hall|].
    split; [|by rewrite Hframe]. split; [by eexists | by rewrite Hframe].
Qed.


(** A reload whose guard does not compile returns an error and keeps the
    rule set, but the cache it leaves is not the one it found: the guard of
    the active rule set is gone from it. *)
Lemma reload_failure_rebuilds_cache :
  let w := Example.running in
  let r := loadAutomata (Example.env "(") w in
  r.1 = Some (MultiError [ErrBadExpression "(" "Unbalanced parenthesis"])
  /\ automata r.2 = automata w
  /\ parsingCache w !! "command == 'on'" = Some (mkExpr "command == 'on'")
  /\ parsingCache r.2 !! "command == 'on'" = None
  /\ parsingCache r.2 <> parsingCache w.
Proof.
  assert (Hw : parsingCache Example.running !! "command == 'on'"
               = Some (mkExpr "command == 'on'")) by (vm_compute; reflexivity).
  assert (Hr : parsingCache (loadAutomata (Example.env "(") Example.running).2
               !! "command == 'on'" = None) by (vm_compute; reflexivity).
  split; [vm_compute; reflexivity|]. split; [vm_compute; reflexivity|].
  split; [exact Hw|]. split; [exact Hr|].
  intros Heq. rewrite Heq in Hr. rewrite Hw in Hr. discriminate Hr.
Qed.

(** ** The snapshot file *)



(** ** Reconciliation of initial states *)

Lemma published_perform (e : Effect) (w : World) :
  published (perform e w)
  = published w ++ match e with Emit ev => [ev] | _ => [] end.
Proof.
  unfold published, perform. simpl. rewrite omap_app. by destruct e.
Qed.

Lemma publishState_published (device state trigger : string) (w : World) :
  published (publishState device state trigger w)
  = published w ++ [stateEvent (clock w) device state trigger].
Proof. unfold publishState. by rewrite published_perform. Qed.






Lemma trigger_stateEvent (now : Z) (k st tr : string) :
  pubsub.StringField (stateEvent now k st tr) "trigger" = tr.
Proof.
  unfold pubsub.StringField, stateEvent. simpl.
  rewrite lookup_insert_ne by done. rewrite lookup_insert_ne by done.
  by rewrite lookup_singleton_eq.
Qed.






Lemma restoreState_frame (ev : pubsub.Event) (w : World) :
  published (restoreState ev w) = published w
  /\ forall k, is_Some (restoredAutomaton w !! k) ->
               is_Some (restoredAutomaton (restoreState ev w) !! k).
Proof.
  unfold restoreState.
  destruct (gofsm_run.AutomatonMap (automata w) !! pubsub.Device ev); [|done].
  split.
  - destruct (gofsm_run.AutomatonMap _ !! pubsub.Device ev); [|done].
    unfold published. simpl. rewrite omap_app. simpl. by rewrite app_nil_r.
  - intros k Hk. cbn [restoredAutomaton set_restoredAutomaton].
    assert (Hsame : forall w0 : World,
               restoredAutomaton
                 match gofsm_run.AutomatonMap
                         (gofsm_run.Restore
                            {[pubsub.Device ev :=
                                {| gofsm.SnapState := pubsub.StringField ev "state";
                                   gofsm.SnapSince := pubsub.Timestamp ev |}]}
                            (automata w)) !! pubsub.Device ev with
                 | Some aut =>
                     logPrint "Restored %s: %s at %s"
                       [VString (pubsub.Device ev);
                        VString (gofsm.Name (gofsm.CurState aut));
                        VTime (gofsm.Since aut)] w0
                 | None => w0
                 end = restoredAutomaton w0).
    { intros w0. by destruct (gofsm_run.AutomatonMap _ !! pubsub.Device ev). }
    rewrite Hsame. simpl.
    destruct (decide (pubsub.Device ev = k)) as [->|Hne].
    + rewrite lookup_insert_eq. by eexists.
    + by rewrite lookup_insert_ne.
Qed.












(** ** Timers *)

Lemma filter_isPending_none (name : string) (rt : list Timer) :
  (forall h t, rt !! h = Some t -> isPending name t = false) ->
  List.filter (isPending name) rt = [].
Proof.
  induction rt as [|t rt IH]; intros H; [done|]. simpl.
  rewrite (H 0%nat t eq_refl). apply IH. intros h t' Ht'. by apply (H (S h)).
Qed.

Lemma filter_isPending_le (name : string) (rt : list Timer) (h0 : nat) :
  (forall h t, rt !! h = Some t -> isPending name t = true -> h = h0) ->
  (length (List.filter (isPending name) rt) <= 1)%nat.
Proof.
  revert h0. induction rt as [|t rt IH]; intros h0 H; simpl; [lia|].
  destruct (isPending name t) eqn:Ht.
  - rewrite filter_isPending_none; [simpl; lia|].
    intros h t' Ht'. destruct (isPending name t') eqn:Hp; [|done].
    pose proof (H 0%nat t eq_refl Ht). pose proof (H (S h) t' Ht' Hp). lia.
  - apply (IH (pred h0)). intros h t' Ht' Hp.
    pose proof (H (S h) t' Ht' Hp). lia.
Qed.

Lemma stopTimer_lookup (h h' : nat) (rt : list Timer) (t : Timer) :
  stopTimer h rt !! h' = Some t ->
  exists t0, rt !! h' = Some t0 /\ tName t = tName t0
             /\ (tPending t = true -> tPending t0 = true /\ h' <> h).
Proof.
  unfold stopTimer. rewrite list_lookup_alter.
  destruct (decide (h = h')) as [->|Hne].
  - destruct (rt !! h') as [t0|]; [|done]. simpl. intros [= <-].
    exists t0. by repeat split.
  - intros Ht. exists t. by repeat split.
Qed.

(** In a world that satisfies the invariant, a timer that can fire is the
    only one of its name. *)
Lemma registered_pendingCount (name : string) (w : World) :
  registered w -> (pendingCount name w <= 1)%nat.
Proof.
  intros Hinv. unfold pendingCount.
  destruct (timers w !! name) as [h0|] eqn:Hn.
  - apply (filter_isPending_le name _ h0). intros h t Ht Hp.
    unfold isPending in Hp. apply andb_true_iff in Hp as [Hp Hname].
    apply String.eqb_eq in Hname. specialize (Hinv h t Ht Hp). congruence.
  - rewrite filter_isPending_none; [simpl; lia|]. intros h t Ht.
    destruct (isPending name t) eqn:Hp; [|done].
    unfold isPending in Hp. apply andb_true_iff in Hp as [Hp Hname].
    apply String.eqb_eq in Hname. specialize (Hinv h t Ht Hp). congruence.
Qed.

(** The timers left by the first half of [startTimer]: none of the name
    can fire. *)
Lemma startTimer_stops (name : string) (w : World) :
  registered w ->
  let rt := match timers w !! name with
            | Some h => stopTimer h (runtimeTimers w)
            | None => runtimeTimers w
            end in
  (forall h t, rt !! h = Some t -> isPending name t = false)
  /\ (forall h t, rt !! h = Some t -> tPending t = true ->
                  timers w !! tName t = Some h).
Proof.
  intros Hinv rt. subst rt. destruct (timers w !! name) as [h0|] eqn:Hn.
  - split.
    + intros h t Ht. apply stopTimer_lookup in Ht as (t0 & Ht0 & Hname & Hp).
      unfold isPending. destruct (tPending t) eqn:Hpt; [|done].
      destruct (Hp eq_refl) as [Hp0 Hne]. simpl.
      destruct (String.eqb_spec (tName t) name) as [Heq|]; [|done].
      specialize (Hinv h t0 Ht0 Hp0). congruence.
    + intros h t Ht Hpt. apply stopTimer_lookup in Ht as (t0 & Ht0 & Hname & Hp).
      destruct (Hp Hpt) as [Hp0 _]. rewrite Hname. by apply Hinv.
  - split; [|done]. intros h t Ht. unfold isPending.
    destruct (tPending t) eqn:Hpt; [|done]. simpl.
    destruct (String.eqb_spec (tName t) name) as [Heq|]; [|done].
    specialize (Hinv h t Ht Hpt). congruence.
Qed.

Lemma startTimer_pendingCount (name : string) (d : PrimFloat.float) (w : World) :
  registered w -> pendingCount name (startTimer name d w) = 1%nat.
Proof.
  intros Hinv. destruct (startTimer_stops name w Hinv) as [Hnone _].
  unfold pendingCount, startTimer. cbn [runtimeTimers set_timers logPrint perform timers].
  rewrite List.filter_app, filter_isPending_none by done.
  simpl. unfold isPending. simpl. by rewrite String.eqb_refl.
Qed.

Lemma startTimer_registered (name : string) (d : PrimFloat.float) (w : World) :
  registered w -> registered (startTimer name d w).
Proof.
  intros Hinv. destruct (startTimer_stops name w Hinv) as [Hnone Hreg].
  unfold registered, startTimer.
  cbn [runtimeTimers set_timers logPrint perform timers].
  intros h t Ht Hpt. apply lookup_app_Some in Ht as [Ht|[Hlen Ht]].
  - specialize (Hnone h t Ht). specialize (Hreg h t Ht Hpt).
    unfold isPending in Hnone. rewrite Hpt in Hnone. simpl in Hnone.
    apply String.eqb_neq in Hnone. by rewrite lookup_insert_ne.
  - destruct (h - _)%nat as [|n] eqn:Hh; [|by destruct n].
    simpl in Ht. injection Ht as <-. simpl. rewrite lookup_insert_eq.
    f_equal. lia.
Qed.

Lemma fireTimer_registered (h : nat) (w : World) : registered w -> registered (fireTimer h w).
Proof.
  intros Hinv. unfold fireTimer.
  destruct (runtimeTimers w !! h) as [t|]; [|done].
  destruct (tPending t); [|done]. unfold registered. simpl.
  intros h' t' Ht' Hp'. apply stopTimer_lookup in Ht' as (t0 & Ht0 & Hname & Hp).
  destruct (Hp Hp') as [Hp0 _]. rewrite Hname. by apply Hinv.
Qed.

Lemma startTimer_valid (name : string) (d : PrimFloat.float) (w : World) :
  handles_valid w -> handles_valid (startTimer name d w).
Proof.
  intros Hvalid n h. unfold startTimer.
  cbn [runtimeTimers set_timers logPrint perform timers].
  set (rt := match timers w !! name with
             | Some h0 => stopTimer h0 (runtimeTimers w)
             | None => runtimeTimers w
             end).
  assert (Hlen : length rt = length (runtimeTimers w)).
  { unfold rt, stopTimer. destruct (timers w !! name); [apply length_alter | done]. }
  intros Hn. apply lookup_lt_is_Some. rewrite length_app. simpl.
  destruct (decide (name = n)) as [->|Hne].
  - rewrite lookup_insert_eq in Hn. injection Hn as <-. lia.
  - rewrite lookup_insert_ne in Hn by done.
    apply Hvalid, lookup_lt_is_Some in Hn. lia.
Qed.

Lemma fireTimer_valid (h : nat) (w : World) :
  handles_valid w -> handles_valid (fireTimer h w).
Proof.
  intros Hvalid. unfold fireTimer.
  destruct (runtimeTimers w !! h) as [t|]; [|done].
  destruct (tPending t); [|done]. intros n h' Hn. simpl in *.
  apply Hvalid, lookup_lt_is_Some in Hn. apply lookup_lt_is_Some.
  unfold stopTimer. by rewrite length_alter.
Qed.

(** The invariant is kept by every step of the timers. *)
Lemma timerSteps_inv (ss : list TimerStep) (w : World) :
  timers_inv w -> timers_inv (timerSteps ss w).
Proof.
  revert w. induction ss as [|s ss IH]; intros w [Hreg Hvalid]; [done|].
  unfold timerSteps in *. rewrite foldl_cons. apply IH.
  destruct s; (split; [by apply startTimer_registered || by apply fireTimer_registered
                      | by apply startTimer_valid || by apply fireTimer_valid]).
Qed.

Lemma Device_timerEvent (now : Z) (name : string) :
  pubsub.Device (timerEvent now name) = "timer." +:+ name.
Proof.
  unfold pubsub.Device, pubsub.StringField, timerEvent. simpl.
  by rewrite lookup_insert_eq.
Qed.

Lemma Command_timerEvent (now : Z) (name : string) :
  pubsub.Command (timerEvent now name) = "on".
Proof.
  unfold pubsub.Command, pubsub.StringField, timerEvent. simpl.
  rewrite lookup_insert_ne by done. by rewrite lookup_singleton_eq.
Qed.

Lemma isFiringOf_timerEvent (now : Z) (n name : string) :
  isFiringOf name (timerEvent now n) = String.eqb n name.
Proof.
  unfold isFiringOf. rewrite Device_timerEvent. simpl.
  destruct (String.eqb_spec n name) as [->|Hne].
  - apply String.eqb_refl.
  - apply String.eqb_neq. intros Heq. apply Hne. exact Heq.
Qed.

Lemma filter_stopTimer (name : string) (rt : list Timer) (h : nat) (t : Timer) :
  rt !! h = Some t -> tPending t = true ->
  (length (List.filter (isPending name) (stopTimer h rt))
   + (if String.eqb (tName t) name then 1 else 0))%nat
  = length (List.filter (isPending name) rt).
Proof.
  revert h. induction rt as [|t0 rt IH]; intros h Ht Hp; [done|].
  destruct h as [|h]; simpl in Ht.
  - injection Ht as ->. simpl. unfold isPending. simpl. rewrite Hp. simpl.
    destruct (String.eqb (tName t) name); simpl; lia.
  - specialize (IH h Ht Hp). unfold stopTimer, alter in *. simpl.
    destruct (isPending name t0); simpl; lia.
Qed.

(** A firing publishes the "timer" event of a timer that could still fire,
    which then cannot fire again; any other firing does nothing. *)
Lemma fireTimer_firings (name : string) (h : nat) (w : World) :
  exists n,
    firings name (fireTimer h w)
    = firings name w ++ replicate n (timerEvent (clock w) name)
    /\ (n + pendingCount name (fireTimer h w))%nat = pendingCount name w
    /\ clock (fireTimer h w) = clock w /\ timers (fireTimer h w) = timers w.
Proof.
  unfold fireTimer. destruct (runtimeTimers w !! h) as [t|] eqn:Ht.
  - destruct (tPending t) eqn:Hp.
    + pose proof (filter_stopTimer name _ h t Ht Hp) as Hcount.
      unfold firings, pendingCount. rewrite published_perform.
      cbn [runtimeTimers perform set_timers clock timers].
      rewrite List.filter_app. simpl. rewrite isFiringOf_timerEvent.
      destruct (String.eqb_spec (tName t) name) as [->|_].
      * exists 1%nat. split; [reflexivity|]. split; [lia | by split].
      * exists 0%nat. split; [reflexivity|]. split; [lia | by split].
    + exists 0%nat. by rewrite app_nil_r.
  - exists 0%nat. by rewrite app_nil_r.
Qed.

Lemma fires_firings (name : string) (fires : list nat) (w : World) :
  exists n,
    firings name (timerSteps (StepFire <$> fires) w)
    = firings name w ++ replicate n (timerEvent (clock w) name)
    /\ (n + pendingCount name (timerSteps (StepFire <$> fires) w))%nat
       = pendingCount name w
    /\ timers (timerSteps (StepFire <$> fires) w) = timers w.
Proof.
  revert w. induction fires as [|h fires IH]; intros w.
  - exists 0%nat. by rewrite app_nil_r.
  - unfold timerSteps in *. rewrite fmap_cons, foldl_cons. simpl timerStep.
    destruct (fireTimer_firings name h w) as (n1 & Hf1 & Hc1 & Hclock & Htimers).
    destruct (IH (fireTimer h w)) as (n2 & Hf2 & Hc2 & Ht2).
    exists (n1 + n2)%nat. rewrite Hf2, Hf1, Hclock, <- app_assoc, replicate_add.
    split; [done|]. split; [lia | congruence].
Qed.

(** A timer that can still fire after some firings could fire before them
    and is not among them. *)
Lemma fires_pending (fires : list nat) (w : World) (h : nat) (t : Timer) :
  runtimeTimers (timerSteps (StepFire <$> fires) w) !! h = Some t ->
  tPending t = true ->
  (h ∉ fires) /\ exists t0, runtimeTimers w !! h = Some t0 /\ tPending t0 = true.
Proof.
  revert w. induction fires as [|f fires IH]; intros w Ht Hp.
  - split; [apply not_elem_of_nil | eauto].
  - unfold timerSteps in *. rewrite fmap_cons, foldl_cons in Ht. simpl timerStep in Ht.
    destruct (IH _ Ht Hp) as (Hnotin & t1 & Ht1 & Hp1).
    unfold fireTimer in Ht1.
    destruct (runtimeTimers w !! f) as [tf|] eqn:Hf.
    + destruct (tPending tf) eqn:Hpf.
      * simpl in Ht1. apply stopTimer_lookup in Ht1 as (t0 & Ht0 & _ & Hp0).
        destruct (Hp0 Hp1) as [Hp0' Hne]. split; [|eauto].
        intros [->|?]%elem_of_cons; done.
      * split; [|eauto]. intros [->|?]%elem_of_cons; [|done]. congruence.
    + split; [|eauto]. intros [->|?]%elem_of_cons; [|done]. congruence.
Qed.

Lemma startTimer_frame (name : string) (d : PrimFloat.float) (w : World) :
  published (startTimer name d w) = published w
  /\ clock (startTimer name d w) = clock w
  /\ timers (startTimer name d w) !! name = Some (length (runtimeTimers w))
  /\ runtimeTimers (startTimer name d w) !! length (runtimeTimers w)
     = Some {| tName := name;
               tDelay := wrap64 (Duration_of_float64 d * Second);
               tPending := true |}.
Proof.
  assert (Hpub : published (startTimer name d w) = published w).
  { change (published (startTimer name d w))
      with (published (logPrint "Starting timer: %s for %.1fs"
                         [VString name; VFloat d] w)).
    unfold logPrint. by rewrite published_perform, app_nil_r. }
  unfold startTimer. cbn [runtimeTimers timers clock set_timers logPrint perform].
  set (rt := match timers w !! name with
             | Some h => stopTimer h (runtimeTimers w)
             | None => runtimeTimers w
             end).
  assert (Hlen : length rt = length (runtimeTimers w)).
  { unfold rt, stopTimer. destruct (timers w !! name); [apply length_alter | done]. }
  split; [exact Hpub|]. split; [done|]. split.
  - by rewrite lookup_insert_eq, Hlen.
  - rewrite <- Hlen. rewrite lookup_app_r by lia. by rewrite Nat.sub_diag.
Qed.

(** C6.  In a world where every timer that can fire is the one registered
    under its name, this stays so whatever timers are started and fired, so
    at most one firing is pending per name at any time.  Starting a timer
    under a name that is registered stops the timer registered before and
    registers the new one.  Starting a timer twice under one name leaves the
    first one stopped and the second one registered; whatever the runtime
    fires afterwards, at most one "timer" event of that name is published,
    and once the second timer has fired exactly one: the event with device
    "timer.<name>" and command "on". *)
Theorem startTimer_replaces (name : string) (d1 d2 : PrimFloat.float) (w : World)
    (fires : list nat) (steps : list TimerStep) (other : string) :
  timers_inv w ->
  let w1 := startTimer name d1 w in
  let w2 := startTimer name d2 w1 in
  let w3 := timerSteps (StepFire <$> fires) w2 in
  let h1 := length (runtimeTimers w) in
  let h2 := length (runtimeTimers w1) in
  let ev := timerEvent (clock w) name in
  (timers_inv (timerSteps steps w) /\ (pendingCount other (timerSteps steps w) <= 1)%nat)
  /\ (forall h0, timers w !! name = Some h0 ->
                 h0 <> h1 /\ tPending <$> (runtimeTimers w1 !! h0) = Some false)
  /\ timers w1 !! name = Some h1 /\ timers w2 !! name = Some h2 /\ h1 <> h2
  /\ tPending <$> (runtimeTimers w2 !! h1) = Some false
  /\ tPending <$> (runtimeTimers w2 !! h2) = Some true
  /\ pendingCount name w2 = 1%nat
  /\ published w2 = published w
  /\ (firings name w3 = firings name w
      \/ firings name w3 = firings name w ++ [ev])
  /\ (h2 ∈ fires -> firings name w3 = firings name w ++ [ev])
  /\ pubsub.Topic ev = "timer" /\ pubsub.Device ev = "timer." +:+ name
  /\ pubsub.Command ev = "on".
Proof.
  intros Hinv w1 w2 w3 h1 h2 ev.
  assert (Hstop : forall (w0 : World) (d : PrimFloat.float) h0,
            timers_inv w0 -> timers w0 !! name = Some h0 ->
            h0 <> length (runtimeTimers w0)
            /\ tPending <$> (runtimeTimers (startTimer name d w0) !! h0) = Some false).
  { intros w0 d h0 [_ Hvalid] Hn. destruct (Hvalid name h0 Hn) as [t0 Ht0].
    pose proof (lookup_lt_Some _ _ _ Ht0) as Hlt. split; [lia|].
    unfold startTimer. cbn [runtimeTimers set_timers logPrint perform timers].
    rewrite Hn. rewrite lookup_app_l by (unfold stopTimer; by rewrite length_alter).
    unfold stopTimer. by rewrite list_lookup_alter_eq, Ht0. }
  assert (Hinv1 : timers_inv w1) by (apply (timerSteps_inv [StepStart name d1] w Hinv)).
  assert (Hinv2 : timers_inv w2) by (apply (timerSteps_inv [StepStart name d2] w1 Hinv1)).
  destruct (startTimer_frame name d1 w) as (Hp1 & Hc1 & Ht1 & Hr1).
  destruct (startTimer_frame name d2 w1) as (Hp2 & Hc2 & Ht2 & Hr2).
  fold w1 in Hp1, Hc1, Ht1, Hr1, Hp2, Hc2, Ht2, Hr2.
  fold w2 in Hp2, Hc2, Ht2, Hr2. fold h1 in Ht1, Hr1. fold h2 in Ht2, Hr2.
  pose proof (startTimer_pendingCount name d2 w1 (proj1 Hinv1)) as Hcount.
  fold w2 in Hcount.
  destruct (Hstop w1 d2 h1 Hinv1 Ht1) as [Hne Hstopped]. fold h2 in Hne. fold w2 in Hstopped.
  destruct (fires_firings name fires w2) as (n & Hf & Hn & Htimers).
  fold w3 in Hf, Hn, Htimers.
  assert (Hfw : firings name w2 = firings name w).
  { unfold firings. by rewrite Hp2, Hp1. }
  assert (Hclock : clock w2 = clock w) by congruence.
  rewrite Hfw, Hclock in Hf. fold ev in Hf.
  split; [split; [by apply timerSteps_inv|]|].
  { apply registered_pendingCount. by apply timerSteps_inv. }
  split; [intros h0 Hh0; by apply Hstop|].
  split; [done|]. split; [done|]. split; [done|]. split; [done|].
  split; [by rewrite Hr2|]. split; [done|]. split; [congruence|].
  split; [|split].
  - destruct n as [|[|n]]; [left | right | lia]; rewrite Hf; simpl; by rewrite ?app_nil_r.
  - intros Hin.
    assert (Hzero : pendingCount name w3 = 0%nat).
    { unfold pendingCount. rewrite filter_isPending_none; [done|].
      intros h t Ht. destruct (isPending name t) eqn:Hpt; [|done].
      unfold isPending in Hpt. apply andb_true_iff in Hpt as [Hpt Hname].
      apply String.eqb_eq in Hname.
      pose proof (proj1 (timerSteps_inv (StepFire <$> fires) w2 Hinv2) h t Ht Hpt)
        as Hreg.
      fold w3 in Hreg. rewrite Htimers, Hname, Ht2 in Hreg. injection Hreg as <-.
      destruct (fires_pending fires w2 h2 t Ht Hpt) as [Hnotin _]. done. }
    assert (n = 1%nat) as -> by lia. by rewrite Hf.
  - split; [done|]. split; [apply Device_timerEvent | apply Command_timerEvent].
Qed.

Lemma startTimer_replaces_witness :
  timers_inv Example.world0
  /\ firings "kettle_on"
       (timerSteps [StepFire 0%nat; StepFire 1%nat; StepFire 1%nat]
          (startTimer "kettle_on" (float64_of_int 180)
             (startTimer "kettle_on" (float64_of_int 180) Example.world0)))
     = [timerEvent 0 "kettle_on"].
Proof.
  assert (Hinv : timers_inv Example.world0).
  { split; [intros h t Ht; destruct h; discriminate Ht|].
    intros n h Hn. change (timers Example.world0) with (∅ : gmap string nat) in Hn.
    rewrite lookup_empty in Hn. discriminate Hn. }
  split; [exact Hinv|].
  pose proof (startTimer_replaces "kettle_on" (float64_of_int 180) (float64_of_int 180)
                Example.world0 [0; 1; 1]%nat [] "kettle_on" Hinv) as H.
  cbv zeta in H. destruct H as (_ & _ & _ & _ & _ & _ & _ & _ & _ & _ & Hfired & _).
  apply Hfired. vm_compute. right; left.
Defined.

(** ** Random timers, once more *)

(** C5, where the code departs from it.  An inverted or empty range is
    rejected and the world is left as it was; otherwise no error is returned,
    one value is drawn and one timer of the name is pending afterwards.  But
    the delay of that timer is not the value drawn: with the bounds 0.25 and
    0.75 and the draw 0.5 the value computed is 0.5, inside the bounds, and
    the timer is armed with the delay 0, because [startTimer] converts the
    value to a whole number of seconds before scaling it. *)
Theorem RandomTimer_truncates_delay (E : Env) (ctx : Iface) (name : string)
    (min max : PrimFloat.float) (w : World) :
  let call :=
    RandomTimer E [ctx; IVal (VString name); IVal (VFloat min); IVal (VFloat max)] w in
  (PrimFloat.leb max min = true ->
   call = Ret (inr (ErrorString "RandomTimer max must be greater than min"), w))
  /\ (PrimFloat.leb max min = false ->
      exists w', call = Ret (inl VNil, w') /\ randPos w' = S (randPos w)
                 /\ (registered w -> pendingCount name w' = 1%nat))
  /\ (let quarter := PrimFloat.div (float64_of_int 1) (float64_of_int 4) in
      let three_quarters := PrimFloat.div (float64_of_int 3) (float64_of_int 4) in
      let E0 := Example.env "" in
      let d := PrimFloat.add
                 (PrimFloat.mul (rand_Float64 E0 0) (PrimFloat.sub three_quarters quarter))
                 quarter in
      PrimFloat.leb quarter d = true /\ PrimFloat.ltb d three_quarters = true
      /\ exists w',
           RandomTimer E0 [IContext Example.tickContext; IVal (VString "t");
                           IVal (VFloat quarter); IVal (VFloat three_quarters)]
             Example.world0
           = Ret (inl VNil, w')
           /\ runtimeTimers w' = [ {| tName := "t"; tDelay := 0; tPending := true |} ]).
Proof.
  intros call. subst call. rewrite RandomTimer_checked.
  split; [by intros ->|]. split.
  - intros ->. eexists. split; [reflexivity|]. split; [reflexivity|].
    intros Hreg. by apply startTimer_pendingCount.
  - intros quarter three_quarters E0 d.
    split; [vm_compute; reflexivity|]. split; [vm_compute; reflexivity|].
    rewrite RandomTimer_checked. eexists. split; [reflexivity|].
    vm_compute. reflexivity.
Qed.

(** ** Concrete runs on the small installation *)

Example Split_examples :
  GoStrings.Split "light on" " " = ["light"; "on"]
  /\ GoStrings.Split "" " " = [""]
  /\ GoStrings.Split "a  b" " " = ["a"; ""; "b"]
  /\ GoStrings.SplitN2 "level=a=b" "=" = ["level"; "a=b"].
Proof. repeat split. Qed.

Example scan_example :
  scan "at $timestamp: $command $foo $ $$device." None
  = [Lit "a"; Lit "t"; Lit " "; Var "timestamp"; Lit ":"; Lit " "; Var "command";
     Lit " "; Var "foo"; Lit " "; Lit "$"; Lit " "; Lit "$"; Var "device"; Lit "."].
Proof. vm_compute. reflexivity. Qed.

Example Format_example :
  Format (Example.env "") Example.tickContext
    "at $timestamp: $command $foo $ $$device." Example.world0
  = Ret "at now: on $foo $ $timer.light.".
Proof. vm_compute. reflexivity. Qed.

Example matchDevices_examples :
  matchDevices (Example.env "") "bell.front" = ["bell.front"]
  /\ matchDevices (Example.env "") "bell" = []
  /\ matchDevices (Example.env "") "kitchen" = ["light.kitchen"]
  /\ matchDevices (Example.env "") "" = ["light.kitchen"].
Proof. repeat split; vm_compute; reflexivity. Qed.

Example queryState_examples :
  (queryState (mkQuestion "light on") Example.running).1 = "Change light state to on"
  /\ (queryState (mkQuestion "light") Example.running).1 = "usage: state automata state"
  /\ (queryState (mkQuestion "lamp on") Example.running).1 = "automata: 'lamp' not found"
  /\ (queryState (mkQuestion "light dim") Example.running).1
     = "automata state: 'dim' not found"
  /\ (queryState (mkQuestion "light  on") Example.running).1
     = "usage: state automata state".
Proof. repeat split; vm_compute; reflexivity. Qed.

Example Match_examples :
  (exists w, Match (Example.env "") (mkEventContext Example.tick) "command == 'on'"
               Example.world0 = Ret (true, w))
  /\ (exists w, Match (Example.env "") (mkEventContext Example.tick) "("
                  Example.world0 = Ret (false, w)).
Proof. split; eexists; vm_compute; reflexivity. Qed.

(** [RandomTimer(name, 3, 8)] with the draw 0.5 arms a timer of 5 seconds;
    [RandomTimer(name, 5, 5)] is rejected and arms nothing. *)
Example RandomTimer_examples :
  let E := Example.env "" in
  let call (min max : Z) :=
    RandomTimer E [IContext Example.tickContext; IVal (VString "t");
                   IVal (VFloat (float64_of_int min)); IVal (VFloat (float64_of_int max))]
      Example.world0 in
  (exists w, call 3 8 = Ret (inl VNil, w)
             /\ runtimeTimers w = [ {| tName := "t"; tDelay := 5 * Second;
                                       tPending := true |} ])
  /\ call 5 5
     = Ret (inr (ErrorString "RandomTimer max must be greater than min"), Example.world0).
Proof.
  split; [eexists; split; [vm_compute; reflexivity | vm_compute; reflexivity]|].
  vm_compute. reflexivity.
Qed.

(** * Further properties *)

(** ** Cutting at a separator *)

Lemma free_of_nil (sep : ascii) : free_of sep "".
Proof. intros [|c a] b H; discriminate H. Qed.

Lemma free_of_String (sep c : ascii) (s : string) :
  free_of sep (String c s) <-> c <> sep /\ free_of sep s.
Proof.
  split.
  - intros H. split.
    + intros ->. by apply (H "" s).
    + intros a b ->. by apply (H (String c a) b).
  - intros [Hc Hs] [|c' a] b Heq.
    + rewrite append_empty_l in Heq. congruence.
    + rewrite append_String in Heq. injection Heq as -> Heq. by apply (Hs a b).
Qed.

Lemma cut_None (s : string) (sep : ascii) :
  GoStrings.cut s sep = None <-> free_of sep s.
Proof.
  induction s as [|c s IH]; simpl.
  - split; [intros _; apply free_of_nil | done].
  - rewrite free_of_String. destruct (Ascii.eqb_spec c sep) as [->|Hne].
    + split; [done | by intros [? _]].
    + destruct (GoStrings.cut s sep) as [[a b]|].
      * split; [done|]. intros [_ H]. by apply IH in H.
      * split; [intros _; split; [done | by apply IH] | done].
Qed.

Lemma cut_Some (s : string) (sep : ascii) (a b : string) :
  GoStrings.cut s sep = Some (a, b) <-> s = a +:+ String sep b /\ free_of sep a.
Proof.
  revert a. induction s as [|c s IH]; intros a; simpl.
  - split; [done|]. intros [H _]. by destruct a.
  - destruct (Ascii.eqb_spec c sep) as [->|Hne].
    + split.
      * intros [= <- <-]. split; [done | apply free_of_nil].
      * intros [Heq Hfree]. destruct a as [|c' a].
        -- rewrite append_empty_l in Heq. by injection Heq as ->.
        -- rewrite append_String in Heq. injection Heq as <- _.
           apply free_of_String in Hfree as [? _]. done.
    + destruct (GoStrings.cut s sep) as [[a' b']|] eqn:Hcut.
      * split.
        -- intros [= <- <-]. destruct (proj1 (IH a') eq_refl) as [-> Hfree].
           split; [done|]. apply free_of_String. done.
        -- intros [Heq Hfree]. destruct a as [|c' a].
           ++ rewrite append_empty_l in Heq. congruence.
           ++ rewrite append_String in Heq. injection Heq as <- Heq.
              apply free_of_String in Hfree as [_ Hfree].
              by pose proof (proj2 (IH a) (conj Heq Hfree)) as [= -> ->].
      * split; [done|]. intros [Heq Hfree]. destruct a as [|c' a].
        -- rewrite append_empty_l in Heq. congruence.
        -- rewrite append_String in Heq. injection Heq as <- Heq.
           apply free_of_String in Hfree as [_ Hfree].
           by pose proof (proj2 (IH a) (conj Heq Hfree)).
Qed.

(** ** Guard parameters *)

Lemma SplitN2_head (s : string) (sep : ascii) :
  exists h rest, GoStrings.SplitN2 s sep = h :: rest
                 /\ free_of sep h
                 /\ (s = h /\ rest = [] \/ exists b, s = h +:+ String sep b /\ rest = [b]).
Proof.
  unfold GoStrings.SplitN2. destruct (GoStrings.cut s sep) as [[a b]|] eqn:Hcut.
  - apply cut_Some in Hcut as [-> Hfree]. exists a, [b]. eauto 10.
  - apply cut_None in Hcut. exists s, []. eauto 10.
Qed.

Lemma Device_SetField (ev : pubsub.Event) (name : string) (v : Value) :
  name <> "device" -> pubsub.Device (pubsub.SetField ev name v) = pubsub.Device ev.
Proof.
  intros Hne. unfold pubsub.Device, pubsub.StringField, pubsub.SetField. simpl.
  by rewrite lookup_insert_ne.
Qed.

(** X1.  [EventContext.Get] never panics.  "type" is the device up to its
    first dot (the whole device when it has none), "topic" and "timestamp"
    are those of the event, and a field of one of these three names is
    never seen by a guard; any other name reads the field of that name,
    nil when the event has none. *)
Theorem EventContext_Get_resolves (c : EventContext) (name : string) :
  exists v, EventContext_Get c name = Ret v
  /\ (name = "type" ->
      exists ty, v = VString ty /\ free_of "." ty
                 /\ (pubsub.Device (event c) = ty
                     \/ exists rest, pubsub.Device (event c) = ty +:+ String "." rest))
  /\ (name = "topic" -> v = VString (pubsub.Topic (event c)))
  /\ (name = "timestamp" -> v = VTime (pubsub.Timestamp (event c)))
  /\ (name ∈ ["type"; "topic"; "timestamp"] ->
      forall x, EventContext_Get (mkEventContext (pubsub.SetField (event c) name x)) name
                = Ret v)
  /\ (name ∉ ["type"; "topic"; "timestamp"] ->
      v = default VNil (pubsub.Fields (event c) !! name)).
Proof.
  unfold EventContext_Get.
  destruct (SplitN2_head (pubsub.Device (event c)) ".") as (h & rest & Hs & Hfree & Hh).
  destruct (String.eqb_spec name "type") as [->|Hty].
  { rewrite Hs. simpl. eexists. split; [reflexivity|].
    split; [|split; [done|split; [done|split]]].
    - intros _. exists h. split; [done|]. split; [done|].
      destruct Hh as [[? _]|[b [? _]]]; eauto.
    - intros _ x. simpl. rewrite Device_SetField by done. by rewrite Hs.
    - intros H. destruct H. repeat constructor. }
  destruct (String.eqb_spec name "topic") as [->|Hto].
  { eexists. split; [reflexivity|]. repeat split; try done.
    intros H. destruct H. repeat constructor. }
  destruct (String.eqb_spec name "timestamp") as [->|Hts].
  { eexists. split; [reflexivity|]. repeat split; try done.
    intros H. destruct H. repeat constructor. }
  eexists. split; [reflexivity|]. repeat split; try done.
  rewrite !elem_of_cons, elem_of_nil. tauto.
Qed.

(** ** Argument checking, position by position *)

Lemma checkTypes_verdict (i : nat) (args : list Iface) (types : list string) :
  length args = length types ->
  match checkTypes i args types with
  | (args', None) =>
      Forall2 (fun ty arg => accepts ty arg = true) types args
      /\ args' = zip_with coerce types args
  | (args', Some err) =>
      exists j ty arg,
        err = ErrArgType ty (i + j) arg
        /\ types !! j = Some ty /\ args !! j = Some arg /\ accepts ty arg = false
        /\ Forall2 (fun ty arg => accepts ty arg = true) (take j types) (take j args)
        /\ args' = zip_with coerce (take j types) (take j args) ++ drop j args
  end.
Proof.
  revert i types. induction args as [|arg args IH]; intros i [|ty types] Hlen;
    try discriminate.
  - simpl. split; [constructor|done].
  - simpl in Hlen. injection Hlen as Hlen.
    specialize (IH (S i) types Hlen).
    assert (Hstop : accepts ty arg = false ->
              exists j ty' arg',
                ErrArgType ty i arg = ErrArgType ty' (i + j) arg'
                /\ (ty :: types) !! j = Some ty' /\ (arg :: args) !! j = Some arg'
                /\ accepts ty' arg' = false
                /\ Forall2 (fun ty arg => accepts ty arg = true)
                     (take j (ty :: types)) (take j (arg :: args))
                /\ arg :: args
                   = zip_with coerce (take j (ty :: types)) (take j (arg :: args))
                     ++ drop j (arg :: args)).
    { intros Hrej. exists 0%nat, ty, arg. rewrite Nat.add_0_r.
      repeat split; done. }
    assert (Hgo : accepts ty arg = true ->
              match (let '(rest, err) := checkTypes (S i) args types in
                     (coerce ty arg :: rest, err)) with
              | (args', None) =>
                  Forall2 (fun ty arg => accepts ty arg = true) (ty :: types) (arg :: args)
                  /\ args' = zip_with coerce (ty :: types) (arg :: args)
              | (args', Some err) =>
                  exists j ty' arg',
                    err = ErrArgType ty' (i + j) arg'
                    /\ (ty :: types) !! j = Some ty' /\ (arg :: args) !! j = Some arg'
                    /\ accepts ty' arg' = false
                    /\ Forall2 (fun ty arg => accepts ty arg = true)
                         (take j (ty :: types)) (take j (arg :: args))
                    /\ args' = zip_with coerce (take j (ty :: types)) (take j (arg :: args))
                               ++ drop j (arg :: args)
              end).
    { intros Hacc. destruct (checkTypes (S i) args types) as [rest [err|]].
      - destruct IH as (j & ty' & arg' & -> & Hty & Harg & Hrej & Hall & ->).
        exists (S j), ty', arg'. replace (i + S j)%nat with (S i + j)%nat by lia.
        repeat split; try done. simpl. by constructor.
      - destruct IH as [Hall ->]. split; [by constructor|done]. }
    simpl. unfold accepts, coerce in Hstop, Hgo.
    destruct (String.eqb_spec ty "string") as [->|_].
    + simpl in Hstop, Hgo. destruct arg as [[]|]; first [by apply Hgo | by apply Hstop].
    + destruct (String.eqb ty "float64").
      * destruct arg as [[]|]; first [by apply Hgo | by apply Hstop].
      * by apply Hgo.
Qed.

(** X2.  The verdict of [checkArguments].  It passes exactly the lists of
    the declared length whose every position is accepted by its type, and
    leaves the integers at "float64" positions converted.  It fails on the
    length first, then on the first position that is not accepted - and by
    then the integers at the "float64" positions before it have been
    converted in the caller's slice. *)
Theorem checkArguments_verdict (args : list Iface) (types : list string) :
  match checkArguments args types with
  | (args', None) =>
      length args = length types
      /\ Forall2 (fun ty arg => accepts ty arg = true) types args
      /\ args' = zip_with coerce types args
  | (args', Some err) =>
      (length args <> length types
       /\ err = ErrArity (length types) (length args) /\ args' = args)
      \/ (length args = length types
          /\ exists j ty arg,
               err = ErrArgType ty j arg
               /\ types !! j = Some ty /\ args !! j = Some arg /\ accepts ty arg = false
               /\ Forall2 (fun ty arg => accepts ty arg = true) (take j types) (take j args)
               /\ args' = zip_with coerce (take j types) (take j args) ++ drop j args)
  end.
Proof.
  unfold checkArguments.
  destruct (Nat.eqb_spec (length args) (length types)) as [Hlen|Hlen]; simpl.
  - pose proof (checkTypes_verdict 0 args types Hlen) as H.
    destruct (checkTypes 0 args types) as [args' [err|]].
    + right. split; [done|]. exact H.
    + destruct H. done.
  - left. done.
Qed.

Lemma accepted_string (arg : Iface) :
  accepts "string" arg = true -> exists s, coerce "string" arg = IVal (VString s).
Proof. destruct arg as [[]|]; try discriminate. intros _. by eexists. Qed.

Lemma accepted_float64 (arg : Iface) :
  accepts "float64" arg = true -> exists f, coerce "float64" arg = IVal (VFloat f).
Proof. destruct arg as [[]|]; try discriminate; intros _; by eexists. Qed.

(** What a passed check leaves in the slice, for the signatures in use. *)
Lemma checkArguments_passed (args args' : list Iface) (types : list string) :
  checkArguments args types = (args', None) ->
  Forall2 (fun ty arg => accepts ty arg = true) types args
  /\ args' = zip_with coerce types args.
Proof.
  intros H. unfold checkArguments in H.
  destruct (Nat.eqb_spec (length args) (length types)) as [Hlen|Hlen]; [|discriminate].
  simpl in H. pose proof (checkTypes_verdict 0 args types Hlen) as Hv.
  rewrite H in Hv. exact Hv.
Qed.

Ltac passed H :=
  apply checkArguments_passed in H as [H ->];
  repeat match goal with
         | H : Forall2 _ (_ :: _) _ |- _ =>
             apply Forall2_cons_inv_l in H as (? & ? & ? & H & ->)
         | H : Forall2 _ [] _ |- _ => apply Forall2_nil_inv_l in H as ->
         end;
  repeat match goal with
         | H : accepts "string" _ = true |- _ => apply accepted_string in H as [? H]
         | H : accepts "float64" _ = true |- _ => apply accepted_float64 in H as [? H]
         end;
  cbn [zip_with];
  repeat match goal with
         | H : coerce _ _ = _ |- _ => rewrite H; clear H
         end.

(** X3.  [Query], [StartTimer] and [RandomTimer] never panic, whatever the
    expression passes them: they read only positions that [checkArguments]
    has checked, and a list that fails the check is answered with its
    error. *)
Theorem unchecked_context_functions_total (E : Env) (args : list Iface) (w : World) :
  (exists r, Query args w = Ret r)
  /\ (exists r, StartTimer args w = Ret r)
  /\ (exists r, RandomTimer E args w = Ret r).
Proof.
  unfold Query, StartTimer, RandomTimer. repeat split.
  - destruct (checkArguments args [""; "string"]) as [args' [err|]] eqn:Hc; [eauto|].
    passed Hc. simpl. eauto.
  - destruct (checkArguments args [""; "string"; "float64"]) as [args' [err|]] eqn:Hc;
      [eauto|].
    passed Hc. simpl. eauto.
  - destruct (checkArguments args [""; "string"; "float64"; "float64"])
      as [args' [err|]] eqn:Hc; [eauto|].
    passed Hc. simpl.
    destruct (PrimFloat.leb _ _); eauto.
Qed.

(** X4.  The functions that use the execution context - [Log], [Script],
    [Alert], [Command], [Snapshot] - trust position 0: its declared type is
    empty, so a list with a plain value there passes the check, and the
    forced assertion of the context panics.  A list that fails the check is
    answered with its error and nothing is done. *)
Theorem context_functions_trust_position_0 (E : Env) (args : list Iface) (w : World) :
  Forall (fun ft : (list Iface -> World -> Outcome (Result * World)) * list string =>
            match checkArguments args ft.2 with
            | (_, Some err) => ft.1 args w = Ret (inr err, w)
            | (_, None) =>
                forall v, args !! 0%nat = Some (IVal v) ->
                          ft.1 args w = Panic "interface conversion: not ChangeContext"
            end)
    [(Log E, [""; "string"]); (Script E, [""; "string"]);
     (Alert E, [""; "string"; "string"]); (Command E, [""; "string"]);
     (Snapshot E, [""; "string"; "string"; "string"])].
Proof.
  repeat constructor; cbn [fst snd];
    unfold Log, Script, Alert, Command, Snapshot;
    match goal with
    | |- context [checkArguments args ?tys] =>
        destruct (checkArguments args tys) as [args' [err|]] eqn:Hc; [done|]
    end;
    intros v Hv; passed Hc; simpl in Hv; injection Hv as ->; reflexivity.
Qed.

(** ** Interpolation, completely *)

Lemma render_cap_panics (E : Env) (c : ChangeContext) (w : World) (ts : list Token) :
  "cap" ∈ names ts -> config.Caps (contextDevice E c) = [] ->
  render E c w ts = Panic "index out of range".
Proof.
  intros Hin Hcaps. induction ts as [|[b|name] ts IH]; simpl in *.
  - by apply elem_of_nil in Hin.
  - by rewrite IH.
  - destruct (String.eqb_spec name "cap") as [->|Hne].
    + unfold substitute, ChangeContext_Get. fold (contextDevice E c).
      rewrite Hcaps. reflexivity.
    + apply elem_of_cons in Hin as [Heq|Hin]; [congruence|].
      destruct (ChangeContext_Get_total E c name w) as [r Hr]; [by left|].
      unfold substitute. rewrite Hr. simpl. rewrite IH by done. by destruct r.
Qed.

(** X5.  What [Format] does with any message, and any context.  The scan
    loses nothing of the message.  If the message mentions [$cap] and the
    device of the event has no capability - it is not configured, or is
    configured without one - [Format] panics; in every other case it
    returns the message with each [$name] replaced by the string form of
    what the name resolves to, and each name that does not resolve left in
    place. *)
Theorem Format_outcome (E : Env) (c : ChangeContext) (msg : string) (w : World) :
  verbatim (scan msg None) = msg
  /\ Format E c msg w
     = if decide ("cap" ∈ names (scan msg None) /\ config.Caps (contextDevice E c) = [])
       then Panic "index out of range"
       else Ret (foldr (fun t rest => replacement E c w t +:+ rest) "" (scan msg None)).
Proof.
  split; [by rewrite scan_verbatim|].
  destruct (decide _) as [[Hin Hcaps]|Hno].
  - by apply render_cap_panics.
  - apply render_replacement. intros name Hname. apply ChangeContext_Get_total.
    destruct (decide (name = "cap")) as [->|]; [|by left].
    right. intros Hcaps. by apply Hno.
Qed.

(** X6.  The eight names [ChangeContext.Get] resolves itself hide the event
    fields of the same name: whatever such a field holds, the name resolves
    as without it.  Every other name reads the event field of that name,
    and is unresolved when the event has none. *)
Theorem ChangeContext_Get_reserved (E : Env) (c : ChangeContext) (name : string)
    (w : World) :
  if decide (name ∈ reservedNames)
  then forall x,
         ChangeContext_Get E
           (mkChangeContext (pubsub.SetField (ccEvent c) name x) (ccChange c)) name w
         = ChangeContext_Get E c name w
  else ChangeContext_Get E c name w = Ret (pubsub.Fields (ccEvent c) !! name).
Proof.
  destruct (decide _) as [Hin|Hout].
  - intros x. unfold ChangeContext_Get. cbn [ccEvent ccChange].
    unfold reservedNames in Hin. rewrite !elem_of_cons, elem_of_nil in Hin.
    rewrite Device_SetField; [|intros ->; intuition discriminate].
    repeat match goal with
           | |- context [String.eqb name ?k] =>
               destruct (String.eqb_spec name k) as [->|?]
           end; try reflexivity.
    intuition congruence.
  - unfold reservedNames in Hout. rewrite !not_elem_of_cons in Hout.
    unfold ChangeContext_Get.
    repeat match goal with
           | |- context [String.eqb name ?k] =>
               destruct (String.eqb_spec name k) as [->|?]
           end; try reflexivity; intuition congruence.
Qed.

(** ** The expression cache *)

(** X7.  [ParseCached] twice in a row: the second call returns what the
    first did and changes nothing.  A text that does not compile is not
    cached - the world is left as it was, so the text is compiled again,
    and fails again, on every use.  No call touches the entry of another
    text, nor anything but the cache. *)
Theorem ParseCached_again (E : Env) (s : string) (w : World) :
  let r := ParseCached E s w in
  ParseCached E s r.2 = r
  /\ (forall err, r.1 = inr err -> r.2 = w)
  /\ (forall e, r.1 = inl e -> parsingCache r.2 !! s = Some e)
  /\ (forall s', s' <> s -> parsingCache r.2 !! s' = parsingCache w !! s')
  /\ r.2 = set_parsingCache (parsingCache r.2) w.
Proof.
  intros r. split; [|split; [|split; [|split]]]; subst r.
  - unfold ParseCached. destruct (parsingCache w !! s) as [expr|] eqn:Hc.
    + cbn [snd]. by rewrite Hc.
    + destruct (NewEvaluableExpressionWithFunctions E s) as [expr|reason] eqn:Hn.
      * cbn [snd parsingCache set_parsingCache]. by rewrite lookup_insert_eq.
      * cbn [snd]. by rewrite Hc.
  - intros err. unfold ParseCached. destruct (parsingCache w !! s); [done|].
    by destruct (NewEvaluableExpressionWithFunctions E s).
  - intros e. unfold ParseCached. destruct (parsingCache w !! s) as [expr|] eqn:Hc.
    + cbn [fst snd]. congruence.
    + destruct (NewEvaluableExpressionWithFunctions E s); [|done].
      cbn [fst snd parsingCache set_parsingCache]. intros [= ->].
      by rewrite lookup_insert_eq.
  - intros s' Hne. unfold ParseCached. destruct (parsingCache w !! s); [done|].
    destruct (NewEvaluableExpressionWithFunctions E s); [|done].
    cbn [snd parsingCache set_parsingCache]. by rewrite lookup_insert_ne.
  - apply ParseCached_frame.
Qed.

Lemma compiled_badExpression (E : Env) (s : string) :
  match badExpression E s with
  | Some _ => compiled E s = None
  | None => compiled E s = Some (mkExpr s)
  end.
Proof.
  unfold badExpression, compiled, NewEvaluableExpressionWithFunctions.
  by destruct (syntaxError E s).
Qed.

Lemma ParseCached_coherent (E : Env) (s : string) (w : World) :
  cache_coherent E w ->
  (ParseCached E s w).1
  = match badExpression E s with
    | Some err => inr err
    | None => inl (mkExpr s)
    end
  /\ cache_coherent E (ParseCached E s w).2.
Proof.
  intros Hco. pose proof (compiled_badExpression E s) as Hb.
  unfold ParseCached. destruct (parsingCache w !! s) as [expr|] eqn:Hc.
  - apply Hco in Hc. cbn [fst snd]. split; [|done].
    destruct (badExpression E s); congruence.
  - unfold badExpression, compiled, NewEvaluableExpressionWithFunctions in *.
    destruct (syntaxError E s) as [reason|] eqn:Hsyn; cbn [fst snd]; [done|].
    split; [done|]. intros s' expr'. cbn [parsingCache set_parsingCache].
    destruct (decide (s = s')) as [<-|Hne].
    + rewrite lookup_insert_eq. intros [= <-].
      unfold compiled, NewEvaluableExpressionWithFunctions. by rewrite Hsyn.
    + rewrite lookup_insert_ne by done. apply Hco.
Qed.

(** X8.  The cache is transparent.  In a world whose cache holds only what
    the compiler gives, [ParseCached] answers as the compiler would -
    the compiled text, or the error of the text - whether the text is
    cached or not, and leaves the cache so. *)
Theorem ParseCached_transparent (E : Env) (s : string) (w : World) :
  cache_coherent E w ->
  (ParseCached E s w).1
  = match syntaxError E s with
    | Some reason => inr (ErrBadExpression s reason)
    | None => inl (mkExpr s)
    end
  /\ cache_coherent E (ParseCached E s w).2.
Proof.
  intros Hco. destruct (ParseCached_coherent E s w Hco) as [-> H]. split; [|done].
  unfold badExpression. by destruct (syntaxError E s).
Qed.

Lemma ParseCached_transparent_witness :
  cache_coherent (Example.env "") Example.world0
  /\ (ParseCached (Example.env "") "(" Example.world0).1
     = inr (ErrBadExpression "(" "Unbalanced parenthesis").
Proof.
  assert (H : cache_coherent (Example.env "") Example.world0).
  { intros s expr Hs. vm_compute in Hs. discriminate Hs. }
  split; [exact H|].
  exact (proj1 (ParseCached_transparent (Example.env "") "(" Example.world0 H)).
Defined.

Lemma compileError_empty (E : Env) (w : World) (l : list string) :
  parsingCache w = ∅ -> omap (compileError E w) l = omap (badExpression E) l.
Proof.
  intros Hc. induction l as [|x l IH]; [done|]. csimpl. rewrite IH. f_equal.
  unfold compileError, badExpression. rewrite Hc, lookup_empty.
  by destruct (syntaxError E x).
Qed.

Lemma foldl_precompile_fresh (E : Env) (w : World) (l : list string) :
  let r := foldl (precompile E) ([], set_parsingCache ∅ w) l in
  r.1 = omap (badExpression E) l
  /\ r.2 = set_parsingCache (parsingCache r.2) w
  /\ forall s, parsingCache r.2 !! s = if decide (s ∈ l) then compiled E s else None.
Proof.
  intros r. subst r.
  pose proof (foldl_precompile E l [] (set_parsingCache ∅ w)) as (Hframe & Hcache & Herrs).
  split; [|split].
  - rewrite Herrs, app_nil_l. by apply compileError_empty.
  - rewrite Hframe. by destruct w.
  - intros s. rewrite Hcache. cbn [parsingCache set_parsingCache].
    by rewrite lookup_empty.
Qed.

(** X9.  The errors of a reload.  Before a candidate is loaded the first
    error ends the reload.  After, the reload does not stop at the first
    expression that fails: it returns the error of every occurrence of an
    expression that does not compile - a text used twice is reported
    twice - in the order its loops meet them.  Whatever order the loops
    take the expressions in, the errors are the same up to their order and
    the cache is the same; and whatever cache the reload found, the cache
    it leaves holds only what the compiler gives. *)
Theorem loadAutomata_reports_every_failure (E : Env) (w : World) :
  match loadCandidate E with
  | inr err => (loadAutomata E w).1 = Some err
  | inl updated =>
      (exists errs,
         (loadAutomata E w).1
         = match errs with
           | [] => None
           | _ => Some (MultiError errs)
           end
         /\ errs ≡ₚ omap (badExpression E) (expressions updated))
      /\ cache_coherent E (loadAutomata E w).2
      /\ forall l,
           l ≡ₚ expressions updated ->
           let r := foldl (precompile E) ([], set_parsingCache ∅ w) l in
           r.1 = omap (badExpression E) l
           /\ r.1 ≡ₚ omap (badExpression E) (expressions updated)
           /\ forall s, parsingCache r.2 !! s = parsingCache (loadAutomata E w).2 !! s
  end.
Proof.
  unfold loadCandidate, loadAutomata.
  destruct (template_Parse E (configDocument E)); [done|].
  destruct (template_Execute E (configDocument E) (Devices E)) as [generated|]; [|done].
  destruct (gofsm_Load E generated) as [updated|]; [|done].
  pose proof (foldl_precompile_fresh E w (expressions updated)) as (Herrs & _ & Hcache).
  destruct (foldl (precompile E) ([], set_parsingCache ∅ w) (expressions updated))
    as [errors w'].
  cbn [fst snd] in Herrs, Hcache.
  assert (Hc : parsingCache
                 (match errors with
                  | [] => (None, set_automata updated w')
                  | _ :: _ => (Some (MultiError errors), w')
                  end).2 = parsingCache w') by (by destruct errors).
  split; [|split].
  - exists errors. rewrite Herrs. split; [|done].
    by destruct (omap (badExpression E) (expressions updated)).
  - intros s expr. rewrite Hc, Hcache. by destruct (decide _).
  - intros l Hl. cbv zeta.
    pose proof (foldl_precompile_fresh E w l) as (Hl1 & _ & Hl2).
    split; [done|]. split.
    + rewrite Hl1. clear -Hl.
      induction Hl as [|x l1 l2 _ IH|x y l0|l1 l2 l3 _ IH1 _ IH2]; csimpl.
      * done.
      * destruct (badExpression E x); [by constructor | done].
      * destruct (badExpression E x), (badExpression E y); try done. constructor.
      * by etrans.
    + intros s. rewrite Hc, Hl2, Hcache.
      destruct (decide (s ∈ l)) as [Hin|Hin].
      * rewrite decide_True; [done|]. by rewrite <- Hl.
      * rewrite decide_False; [done|]. by rewrite <- Hl.
Qed.

(** ** Actions of an administrative override *)

Lemma performAction_dummy (E : Env) (name : string) (d : DummyEvent)
    (ch : gofsm_run.Change) (w : World) :
  performAction E (gofsm_run.mkAction name (TriggerDummy d) ch) w
  = match (ParseCached E (GoStrings.Replace1 name "(" "(context, ") w).1 with
    | inr err => Ret (perform (LogError "Error parsing action:" err) w)
    | inl _ => Panic "interface conversion: not EventContext"
    end.
Proof.
  unfold performAction. cbn [gofsm_run.ActName gofsm_run.ActTrigger].
  pose proof (ParseCached_frame E (GoStrings.Replace1 name "(" "(context, ") w) as Hf.
  unfold ParseCached in *.
  destruct (parsingCache w !! _); [done|].
  by destruct (NewEvaluableExpressionWithFunctions E _).
Qed.

(** X10.  The actions of an administrative override never run.
    [queryState] passes a [DummyEvent] as the trigger of the change, so
    every action the override queues - the leaving actions of the old
    state, then the entering actions of the new one - carries it, and
    [performAction] asserts that the trigger of an action is an
    [EventContext]: on such an action it panics, unless the action text
    does not compile, which it logs.  It evaluates nothing in either
    case. *)
Theorem override_actions_never_run (E : Env) (q : Question) (w : World) :
  exists queued,
    gofsm_run.Actions (automata (queryState q w).2)
    = gofsm_run.Actions (automata w) ++ queued
    /\ (forall a0 a1 aut st,
          GoStrings.Split (Args q) " " = [a0; a1] ->
          gofsm_run.AutomatonMap (automata w) !! a0 = Some aut ->
          gofsm.States aut !! a1 = Some st ->
          gofsm_run.ActName <$> queued
          = gofsm.Leaving (gofsm.CurState aut) ++ gofsm.Entering st)
    /\ Forall (fun action =>
                 gofsm_run.ActTrigger action = TriggerDummy mkDummyEvent
                 /\ forall w',
                      performAction E action w'
                      = match (ParseCached E
                                 (GoStrings.Replace1 (gofsm_run.ActName action)
                                    "(" "(context, ") w').1 with
                        | inr err =>
                            Ret (perform (LogError "Error parsing action:" err) w')
                        | inl _ => Panic "interface conversion: not EventContext"
                        end) queued.
Proof.
  unfold queryState.
  destruct (GoStrings.Split (Args q) " ") as [|a0 [|a1 [|a2 l]]];
    try (exists []; rewrite app_nil_r; repeat split; [done | constructor]).
  destruct (gofsm_run.AutomatonMap (automata w) !! a0) as [aut|] eqn:Ha;
    [|exists []; rewrite app_nil_r; repeat split; [congruence | constructor]].
  destruct (gofsm.States aut !! a1) as [st|] eqn:Hs;
    [|exists []; rewrite app_nil_r; repeat split; [congruence | constructor]].
  cbn [snd automata set_automata]. unfold gofsm_run.ChangeState. rewrite Ha, Hs.
  cbn [gofsm_run.Actions]. eexists. split; [reflexivity|]. split.
  - intros ? ? ? ? [= <- <-]. rewrite Ha. intros [= <-]. rewrite Hs. intros [= <-].
    rewrite <- list_fmap_compose. apply list_fmap_id.
  - apply Forall_fmap, Forall_forall. intros code _. split; [done|].
    intros w'. apply performAction_dummy.
Qed.

(** ** Commands from text *)

Lemma binding_cases (arg : string) :
  (free_of "=" arg /\ binding arg = ("", arg))
  \/ (arg = (binding arg).1 +:+ String "=" (binding arg).2
      /\ free_of "=" (binding arg).1).
Proof.
  unfold binding. destruct (GoStrings.cut arg "=") as [[k v]|] eqn:Hcut.
  - right. by apply cut_Some in Hcut.
  - left. by apply cut_None in Hcut.
Qed.

Lemma keywordArgs_snoc (args : list string) (arg : string) :
  keywordArgs (args ++ [arg])
  = <[(binding arg).1 := (binding arg).2]> (keywordArgs args).
Proof.
  unfold keywordArgs. rewrite foldl_app. cbn [foldl].
  unfold GoStrings.SplitN2, binding.
  by destruct (GoStrings.cut arg "=") as [[k v]|].
Qed.

Lemma bound_snoc (k : string) (args : list string) (arg : string) :
  bound k (args ++ [arg])
  = if String.eqb (binding arg).1 k then Some (binding arg).2 else bound k args.
Proof.
  unfold bound. rewrite omap_app. csimpl.
  destruct (String.eqb (binding arg).1 k).
  - by rewrite last_snoc.
  - by rewrite app_nil_r.
Qed.

(** The map [keywordArgs] builds: each key is bound by the last word that
    binds it. *)
Lemma keywordArgs_lookup (args : list string) (k : string) :
  keywordArgs args !! k = bound k args.
Proof.
  induction args as [|arg args IH] using rev_ind; [done|].
  rewrite keywordArgs_snoc, bound_snoc.
  destruct (String.eqb_spec (binding arg).1 k) as [->|Hne].
  - by rewrite lookup_insert_eq.
  - by rewrite lookup_insert_ne.
Qed.

Lemma parseArgs_lookup (E : Env) (args : list string) :
  (parseArgs E args).1 = default "on" (bound "" args)
  /\ forall k, (parseArgs E args).2 !! k
               = if decide (k = "") then None else fieldValue E <$> bound k args.
Proof.
  unfold parseArgs. cbn [fst snd]. split; [by rewrite keywordArgs_lookup|].
  intros k. rewrite lookup_fmap. destruct (decide (k = "")) as [->|Hne].
  - by rewrite lookup_delete_eq.
  - rewrite lookup_delete_ne by done. by rewrite keywordArgs_lookup.
Qed.

(** X11.  How [parseArgs] reads the words of a command.  A word binds the
    key before its first "=" to everything after it, a word without "=" is
    bound to the empty key - and so is what follows the "=" of a word that
    starts with one.  The command is what the last word bound to the empty
    key, "on" when there is none.  The fields are the other keys, each with
    what the last word that binds it gives, as a number when it parses as
    one; no field has the empty name. *)
Theorem parseArgs_reads (E : Env) (args : list string) :
  (parseArgs E args).1 = default "on" (bound "" args)
  /\ (forall k, (parseArgs E args).2 !! k
                = if decide (k = "") then None else fieldValue E <$> bound k args)
  /\ (forall arg, (free_of "=" arg /\ binding arg = ("", arg))
                  \/ (arg = (binding arg).1 +:+ String "=" (binding arg).2
                      /\ free_of "=" (binding arg).1))
  /\ (forall k arg, bound k (args ++ [arg])
                    = if String.eqb (binding arg).1 k then Some (binding arg).2
                      else bound k args)
  /\ (forall k, bound k [] = None).
Proof.
  destruct (parseArgs_lookup E args) as [Hc Hf].
  split; [done|]. split; [done|]. split; [apply binding_cases|].
  split; [intros; apply bound_snoc | done].
Qed.

Lemma sendCommand_event (name command : string) (params : gmap string Value)
    (w : World) :
  exists ev,
    sendCommand name command params w = perform (Emit ev) w
    /\ pubsub.Topic ev = "command" /\ pubsub.Retained ev = false
    /\ pubsub.Timestamp ev = clock w
    /\ pubsub.Device ev = name /\ pubsub.Command ev = command
    /\ forall k, k <> "device" -> k <> "command" ->
                 pubsub.Fields ev !! k = params !! k.
Proof.
  unfold sendCommand. eexists. split; [reflexivity|].
  unfold pubsub.Device, pubsub.Command, pubsub.StringField. simpl.
  split; [done|]. split; [done|]. split; [done|].
  split; [by rewrite lookup_insert_eq|].
  split; [rewrite lookup_insert_ne by done; by rewrite lookup_insert_eq|].
  intros k Hd Hc. by rewrite !lookup_insert_ne.
Qed.

(** X12.  [Command], end to end.  The text is interpolated first and cut
    at its spaces after: the first word is the device of the event, taken
    as it is, and the other words are read by [parseArgs].  Exactly one
    event is published, on topic "command"; its device and command fields
    are those, whatever words bind "device" or "command". *)
Theorem Command_publishes (E : Env) (c : ChangeContext) (text msg : string)
    (w : World) :
  Format E c text w = Ret msg ->
  exists device rest ev,
    GoStrings.Split msg " " = device :: rest
    /\ Command E [IContext c; IVal (VString text)] w
       = Ret (inl VNil, perform (Emit ev) w)
    /\ pubsub.Topic ev = "command" /\ pubsub.Retained ev = false
    /\ pubsub.Device ev = device
    /\ pubsub.Command ev = default "on" (bound "" rest)
    /\ forall k, k <> "device" -> k <> "command" ->
                 pubsub.Fields ev !! k
                 = if decide (k = "") then None else fieldValue E <$> bound k rest.
Proof.
  intros Hf. unfold Command.
  change (checkArguments [IContext c; IVal (VString text)] [""; "string"])
    with ([IContext c; IVal (VString text)], @None GoError).
  cbn [index lookup list_lookup mbind Outcome_bind assertChangeContext assertString].
  rewrite Hf. cbn [mbind Outcome_bind].
  destruct (GoStrings.Split msg " ") as [|device rest] eqn:Hs;
    [by apply Split_nonempty in Hs|].
  cbn [index lookup list_lookup mbind Outcome_bind drop]. rewrite drop_0.
  destruct (parseArgs_lookup E rest) as [Hc Hfields].
  destruct (parseArgs E rest) as [command fields]. cbn [fst snd] in Hc, Hfields.
  cbv beta iota.
  destruct (sendCommand_event device command fields w)
    as (ev & -> & Ht & Hr & _ & Hd & Hcmd & Hk).
  exists device, rest, ev. split; [done|]. split; [done|].
  split; [done|]. split; [done|]. split; [done|]. split; [congruence|].
  intros k H1 H2. rewrite Hk by done. apply Hfields.
Qed.

Lemma Command_publishes_witness :
  Format (Example.env "") Example.tickContext "light.kitchen off level=3" Example.world0
  = Ret "light.kitchen off level=3"
  /\ exists ev,
       Command (Example.env "")
         [IContext Example.tickContext; IVal (VString "light.kitchen off level=3")]
         Example.world0
       = Ret (inl VNil, perform (Emit ev) Example.world0)
       /\ pubsub.Device ev = "light.kitchen" /\ pubsub.Command ev = "off"
       /\ pubsub.Fields ev !! "level" = Some (VFloat (float64_of_int 3)).
Proof.
  assert (Hf : Format (Example.env "") Example.tickContext "light.kitchen off level=3"
                 Example.world0 = Ret "light.kitchen off level=3")
    by (vm_compute; reflexivity).
  split; [exact Hf|].
  destruct (Command_publishes (Example.env "") Example.tickContext _ _ Example.world0 Hf)
    as (device & rest & ev & Hs & Hcmd & _ & _ & Hd & Hc & Hk).
  exists ev. split; [exact Hcmd|].
  injection Hs as <- <-. split; [exact Hd|]. split; [exact Hc|].
  rewrite Hk by done. vm_compute. reflexivity.
Defined.

(** ** Switching from the administrative surface *)

Lemma matchDevices_configured (E : Env) (n m : string) :
  m ∈ matchDevices E n -> is_Some (Devices E !! m).
Proof.
  unfold matchDevices. destruct (Devices E !! n) as [dev|] eqn:Hn.
  - intros ->%list_elem_of_singleton. by rewrite Hn.
  - intros ([k dev] & Hm & Hin)%list_elem_of_bind. simpl in Hm.
    destruct (GoStrings.Contains k n && isSwitchable dev); [|by apply elem_of_nil in Hm].
    apply list_elem_of_singleton in Hm as ->.
    apply elem_of_map_to_list in Hin. by rewrite Hin.
Qed.

Lemma sort_Strings_keys (E : Env) :
  let l := GoLib.sort_Strings (map_to_list (Devices E)).*1 in
  Sorted String.le l /\ NoDup l /\ forall k, k ∈ l <-> is_Some (Devices E !! k).
Proof.
  intros l. subst l. unfold GoLib.sort_Strings.
  split; [apply Sorted_merge_sort; apply _|].
  pose proof (merge_sort_Permutation String.le (map_to_list (Devices E)).*1) as Hp.
  split.
  - rewrite Hp. apply NoDup_fst_map_to_list.
  - intros k. rewrite Hp. rewrite list_elem_of_fmap. split.
    + intros ([k' dev] & -> & Hin). apply elem_of_map_to_list in Hin. simpl.
      by rewrite Hin.
    + intros [dev Hk]. exists (k, dev). split; [done|]. by apply elem_of_map_to_list.
Qed.

(** X13.  [querySwitch] never panics, and sends a command only when the
    first word of the query resolves to exactly one device: then it
    publishes one "command" event for that device, which is a configured
    one, with the command read from the other words.  When the word
    resolves to no device, or to several, nothing is published.  Without
    arguments nothing is published either: the answer lists every
    configured device once, in ascending order. *)
Theorem querySwitch_outcome (E : Env) (q : Question) (w : World) :
  exists answer w',
    querySwitch E q w = Ret (answer, w')
    /\ if decide (Args q = "")
       then w' = w
            /\ exists l, answer = GoLib.Join l ", " /\ Sorted String.le l /\ NoDup l
                         /\ forall k, k ∈ l <-> is_Some (Devices E !! k)
       else exists name rest,
              GoStrings.Split (Args q) " " = name :: rest
              /\ match matchDevices E name with
                 | [] => w' = w /\ answer = "device " +:+ name +:+ " not found"
                 | [m] =>
                     exists dev ev,
                       Devices E !! m = Some dev
                       /\ w' = perform (Emit ev) w
                       /\ pubsub.Topic ev = "command" /\ pubsub.Device ev = m
                       /\ pubsub.Command ev = default "on" (bound "" rest)
                       /\ answer = "Switched " +:+ config.Name dev +:+ " "
                                   +:+ default "on" (bound "" rest)
                 | ms => w' = w
                         /\ answer = "device " +:+ GoLib.Join ms ", " +:+ " is ambiguous"
                 end.
Proof.
  unfold querySwitch. destruct (decide (Args q = "")) as [Hq|Hq].
  - rewrite (proj2 (String.eqb_eq _ _) Hq).
    eexists _, _. split; [reflexivity|].
    split; [done|]. eexists. split; [reflexivity|]. apply sort_Strings_keys.
  - rewrite (proj2 (String.eqb_neq _ _) Hq).
    destruct (GoStrings.Split (Args q) " ") as [|name rest] eqn:Hs;
      [by apply Split_nonempty in Hs|].
    cbn [index lookup list_lookup mbind Outcome_bind drop]. rewrite drop_0.
    pose proof (matchDevices_configured E name) as Hconf.
    destruct (matchDevices E name) as [|m [|m' ms]] eqn:Hm.
    + eexists _, _. split; [reflexivity|]. exists name, rest. by rewrite Hm.
    + cbn [length Nat.eqb Nat.ltb Nat.leb index lookup list_lookup mbind Outcome_bind].
      destruct (Hconf m) as [dev Hdev]; [by apply list_elem_of_singleton|].
      rewrite Hdev. cbn [default].
      destruct (parseArgs_lookup E rest) as [Hc _].
      destruct (parseArgs E rest) as [command fields]. cbn [fst] in Hc. cbv beta iota.
      destruct (sendCommand_event m command fields w)
        as (ev & -> & Ht & _ & _ & Hd & Hcmd & _).
      eexists _, _. split; [reflexivity|]. exists name, rest. split; [done|].
      rewrite Hm. exists dev, ev. rewrite <- Hc. by repeat split.
    + eexists _, _. split; [reflexivity|]. exists name, rest. by rewrite Hm.
Qed.

(** ** Scripts *)

Lemma free_of_app (sep : ascii) (a b : string) :
  free_of sep (a +:+ b) <-> free_of sep a /\ free_of sep b.
Proof.
  induction a as [|c a IH].
  - rewrite append_empty_l. split; [intros H; split; [apply free_of_nil | done] | tauto].
  - rewrite append_String, !free_of_String, IH. tauto.
Qed.

Lemma lastElement_free (s acc : string) :
  free_of "/" acc -> free_of "/" (GoLib.lastElement s acc).
Proof.
  revert acc. induction s as [|c s IH]; intros acc Hacc; simpl; [done|].
  destruct (Ascii.eqb_spec c "/") as [->|Hne].
  - apply IH, free_of_nil.
  - apply IH, free_of_app. split; [done|].
    apply free_of_String. split; [done | apply free_of_nil].
Qed.

(** [path.Base] never returns the empty string: the name it gives is "/"
    or has no slash. *)
Lemma Base_name (p : string) :
  GoLib.Base p <> "" /\ (GoLib.Base p = "/" \/ free_of "/" (GoLib.Base p)).
Proof.
  unfold GoLib.Base. destruct (String.eqb p "").
  - split; [done|]. right.
    apply free_of_String. split; [done | apply free_of_nil].
  - destruct (String.eqb_spec (GoLib.lastElement (GoLib.stripSlashes p) "") "")
      as [Heq|Hne]; [split; [done | by left]|].
    split; [done|]. right. apply lastElement_free, free_of_nil.
Qed.

Lemma script_runs (H : ScriptHost) (command : string) (w : World) :
  exists a0 rest,
    GoStrings.Split command " " = a0 :: rest
    /\ script H command w
       = Ret (CombinedOutput H (scriptPath H (GoLib.Base a0)) rest,
              logPrint "Running script:" [VString (scriptPath H (GoLib.Base a0))] w).
Proof.
  unfold script. destruct (GoStrings.Split command " ") as [|a0 rest] eqn:Hs;
    [by apply Split_nonempty in Hs|].
  exists a0, rest. split; [done|].
  cbn [index lookup list_lookup mbind Outcome_bind drop]. rewrite drop_0.
  destruct (Base_name a0) as [Hne _].
  by rewrite (proj2 (String.eqb_neq _ _) Hne).
Qed.

(** X14.  [script] always runs something.  The name it runs is the last
    element of the first word of the command, so it has no slash (or is
    "/") and is never empty: the answer "Expected a script name argument"
    cannot be given, and for an empty command the name is ".", the scripts
    directory itself.  The other words are the arguments.  So [queryScript]
    never panics and answers with the output of the command, or with its
    error. *)
Theorem script_always_runs (H : ScriptHost) (command : string) (w : World) :
  exists a0 rest,
    GoStrings.Split command " " = a0 :: rest
    /\ (command = "" -> GoLib.Base a0 = ".")
    /\ GoLib.Base a0 <> ""
    /\ (GoLib.Base a0 = "/" \/ free_of "/" (GoLib.Base a0))
    /\ let cmd := scriptPath H (GoLib.Base a0) in
       let w' := logPrint "Running script:" [VString cmd] w in
       script H command w = Ret (CombinedOutput H cmd rest, w')
       /\ queryScript H (mkQuestion command) w
          = Ret (match CombinedOutput H cmd rest with
                 | (_, Some err) => "Script failed: " +:+ errorText H err
                 | (output, None) => output
                 end, w').
Proof.
  destruct (script_runs H command w) as (a0 & rest & Hs & Hrun).
  exists a0, rest. split; [done|]. split.
  { intros ->. by injection Hs as <- <-. }
  destruct (Base_name a0) as [Hne Hfree]. split; [done|]. split; [done|].
  cbv zeta. split; [done|].
  unfold queryScript. cbn [Args]. rewrite Hrun. cbn [mbind Outcome_bind].
  by destruct (CombinedOutput H (scriptPath H (GoLib.Base a0)) rest) as [output [err|]].
Qed.

(** X15.  A script started by [Script] is always reported as successful.
    The goroutine logs the failure of a script that fails, and then goes
    on to log the same script as successful, with its output trimmed. *)
Theorem asyncScript_reports_success (H : ScriptHost) (command : string) (w : World) :
  exists a0 rest w',
    GoStrings.Split command " " = a0 :: rest
    /\ asyncScript_run H command w = Ret w'
    /\ let cmd := scriptPath H (GoLib.Base a0) in
       let r := CombinedOutput H cmd rest in
       trace w'
       = trace w ++ [LogPrint "Running script:" [VString cmd]]
         ++ match r.2 with
            | Some e => [LogPrint "Script '%s' failed: %s"
                           [VString command; VString (errorText H e)]]
            | None => []
            end
         ++ [LogPrint "Script '%s' successful: %s"
               [VString command; VString (TrimSpace H r.1)]].
Proof.
  destruct (script_runs H command w) as (a0 & rest & Hs & Hrun).
  exists a0, rest. unfold asyncScript_run. rewrite Hrun. cbn [mbind Outcome_bind].
  destruct (CombinedOutput H (scriptPath H (GoLib.Base a0)) rest) as [output [e|]];
    eexists; (split; [done|]); (split; [reflexivity|]); cbn [fst snd];
    unfold logPrint, perform; cbn [trace]; by rewrite <- ?app_assoc.
Qed.

(** ** Timers of different names *)

Lemma filter_stopTimer_other (other : string) (rt : list Timer) (h : nat) :
  (forall t, rt !! h = Some t -> tName t <> other) ->
  List.filter (isPending other) (stopTimer h rt) = List.filter (isPending other) rt.
Proof.
  revert h. induction rt as [|t0 rt IH]; intros h Hne; [done|].
  destruct h as [|h].
  - specialize (Hne t0 eq_refl). apply String.eqb_neq in Hne.
    assert (Hoff : forall b, isPending other (mkTimer (tName t0) (tDelay t0) b) = false).
    { intros b. unfold isPending. simpl. rewrite Hne. apply andb_false_r. }
    assert (Ht0 : isPending other t0 = false).
    { unfold isPending. rewrite Hne. apply andb_false_r. }
    unfold stopTimer, alter. cbn [list_alter List.filter]. by rewrite Hoff, Ht0.
  - specialize (IH h (fun t Ht => Hne t Ht)). unfold stopTimer, alter in *. simpl.
    by rewrite IH.
Qed.

Lemma startTimer_named (name : string) (d : PrimFloat.float) (w : World) :
  handles_valid w -> handles_named w -> handles_named (startTimer name d w).
Proof.
  intros Hvalid Hnamed n h t. unfold startTimer.
  cbn [runtimeTimers set_timers logPrint perform timers].
  set (rt := match timers w !! name with
             | Some h0 => stopTimer h0 (runtimeTimers w)
             | None => runtimeTimers w
             end).
  assert (Hlen : length rt = length (runtimeTimers w)).
  { unfold rt, stopTimer. destruct (timers w !! name); [apply length_alter | done]. }
  destruct (decide (name = n)) as [->|Hne].
  - rewrite lookup_insert_eq. intros [= <-].
    rewrite lookup_app_r by lia. rewrite Nat.sub_diag. by intros [= <-].
  - rewrite lookup_insert_ne by done. intros Hn.
    pose proof (Hvalid n h Hn) as Hlt. apply lookup_lt_is_Some in Hlt.
    rewrite lookup_app_l by lia. intros Ht.
    assert (exists t0, runtimeTimers w !! h = Some t0 /\ tName t = tName t0)
      as (t0 & Ht0 & ->).
    { unfold rt in Ht. destruct (timers w !! name); [|eauto].
      apply stopTimer_lookup in Ht as (t0 & Ht0 & Hname & _). eauto. }
    by eapply Hnamed.
Qed.

Lemma fireTimer_named (h : nat) (w : World) :
  handles_named w -> handles_named (fireTimer h w).
Proof.
  intros Hnamed. unfold fireTimer.
  destruct (runtimeTimers w !! h) as [t|]; [|done].
  destruct (tPending t); [|done]. intros n h' t'. simpl.
  intros Hn Ht'. apply stopTimer_lookup in Ht' as (t0 & Ht0 & -> & _).
  by eapply Hnamed.
Qed.

Lemma timerSteps_named (ss : list TimerStep) (w : World) :
  timers_inv w -> handles_named w -> handles_named (timerSteps ss w).
Proof.
  revert w. induction ss as [|s ss IH]; intros w Hinv Hnamed; [done|].
  unfold timerSteps in *. rewrite foldl_cons. apply IH.
  - apply (timerSteps_inv [s] w Hinv).
  - destruct s; [apply startTimer_named; [apply Hinv | done] | by apply fireTimer_named].
Qed.

(** X16.  Timers of different names do not interfere.  In a world where
    every registered handle is a timer of its name - which starting and
    firing timers keep so - starting a timer under one name leaves the
    timer registered under any other name as it is: still registered, still
    able to fire if it was, and with its delay. *)
Theorem startTimer_other_names (name other : string) (d : PrimFloat.float)
    (w : World) (steps : list TimerStep) :
  timers_inv w -> handles_named w -> other <> name ->
  let w' := startTimer name d w in
  timers w' !! other = timers w !! other
  /\ (forall h, timers w !! other = Some h ->
                runtimeTimers w' !! h = runtimeTimers w !! h)
  /\ pendingCount other w' = pendingCount other w
  /\ firings other w' = firings other w
  /\ handles_named w'
  /\ handles_named (timerSteps steps w).
Proof.
  intros Hinv Hnamed Hne w'. destruct Hinv as [Hreg Hvalid].
  destruct (startTimer_frame name d w) as (Hpub & _).
  assert (Hfir : firings other (startTimer name d w) = firings other w)
    by (unfold firings; by rewrite Hpub).
  assert (Hother : forall t h0, timers w !! name = Some h0 ->
                     runtimeTimers w !! h0 = Some t -> tName t <> other).
  { intros t h0 Hn Ht. rewrite (Hnamed name h0 t Hn Ht). congruence. }
  subst w'. unfold startTimer, pendingCount.
  cbn [runtimeTimers set_timers logPrint perform timers].
  split; [by rewrite lookup_insert_ne|]. split; [|split; [|split; [|split]]].
  - intros h Hh. pose proof (Hvalid other h Hh) as [t Ht].
    pose proof (lookup_lt_Some _ _ _ Ht) as Hlt.
    destruct (timers w !! name) as [h0|] eqn:Hn.
    + rewrite lookup_app_l by (unfold stopTimer; by rewrite length_alter).
      unfold stopTimer. rewrite list_lookup_alter_ne; [done|].
      intros ->. apply (Hother t h eq_refl Ht). by eapply Hnamed.
    + by rewrite lookup_app_l.
  - rewrite List.filter_app. simpl. unfold isPending at 2. simpl.
    rewrite (proj2 (String.eqb_neq name other)) by congruence.
    simpl. rewrite app_nil_r.
    destruct (timers w !! name) as [h0|] eqn:Hn; [|done].
    rewrite filter_stopTimer_other; [done|]. intros t Ht. by eapply Hother.
  - exact Hfir.
  - by apply startTimer_named.
  - by apply timerSteps_named.
Qed.

Lemma startTimer_other_names_witness :
  timers_inv (startTimer "porch" (float64_of_int 60) Example.world0)
  /\ pendingCount "porch"
       (startTimer "hall" (float64_of_int 5)
          (startTimer "porch" (float64_of_int 60) Example.world0)) = 1%nat.
Proof.
  assert (Hinv0 : timers_inv Example.world0).
  { split; [intros h t Ht; destruct h; discriminate Ht|].
    intros n h Hn. change (timers Example.world0) with (∅ : gmap string nat) in Hn.
    rewrite lookup_empty in Hn. discriminate Hn. }
  assert (Hnamed0 : handles_named Example.world0).
  { intros n h t Hn. change (timers Example.world0) with (∅ : gmap string nat) in Hn.
    rewrite lookup_empty in Hn. discriminate Hn. }
  assert (Hinv : timers_inv (startTimer "porch" (float64_of_int 60) Example.world0)).
  { apply (timerSteps_inv [StepStart "porch" (float64_of_int 60)] _ Hinv0). }
  assert (Hnamed : handles_named (startTimer "porch" (float64_of_int 60) Example.world0)).
  { apply startTimer_named; [apply Hinv0 | exact Hnamed0]. }
  split; [exact Hinv|].
  assert (Hne : "porch" <> "hall") by discriminate.
  pose proof (startTimer_other_names "hall" "porch" (float64_of_int 5) _ [] Hinv Hnamed Hne)
    as H.
  cbv zeta in H. destruct H as (_ & _ & -> & _).
  vm_compute. reflexivity.
Defined.

(** ** The event loop and the timers *)

Lemma stateRestored_timers (w : World) :
  timers (stateRestored w) = timers w
  /\ runtimeTimers (stateRestored w) = runtimeTimers w.
Proof.
  unfold stateRestored.
  generalize (map_to_list (gofsm_run.AutomatonMap (automata w))). intros l.
  revert w. induction l as [|kv l IH]; intros w; [done|].
  rewrite foldl_cons. destruct (IH (stateRestored_body w kv)) as [-> ->].
  unfold stateRestored_body. by destruct (restoredAutomaton w !! kv.1).
Qed.

Lemma restoreState_timers (ev : pubsub.Event) (w : World) :
  timers (restoreState ev w) = timers w
  /\ runtimeTimers (restoreState ev w) = runtimeTimers w.
Proof.
  unfold restoreState.
  destruct (gofsm_run.AutomatonMap (automata w) !! pubsub.Device ev); [|done].
  cbn [timers runtimeTimers set_restoredAutomaton].
  by destruct (gofsm_run.AutomatonMap _ !! pubsub.Device ev).
Qed.

Lemma Run_select_timers (c : LoopCase) (w : World) :
  timers (Run_select c w) = timers w
  /\ runtimeTimers (Run_select c w) = runtimeTimers w.
Proof.
  destruct c as [ev|E| |a]; simpl.
  - unfold Run_retained. destruct (String.eqb (pubsub.Topic ev) "state"); [|done].
    apply restoreState_timers.
  - unfold Run_configUpdated.
    set (w0 := logPrint "Automata config updated, reloading" [] w).
    destruct (loadAutomata_frame E w0) as (Ht & _ & Hrt & _).
    destruct (loadAutomata E w0) as [[err|] w1]; cbn [fst snd] in Ht, Hrt.
    + cbn [timers runtimeTimers perform]. by rewrite Ht, Hrt.
    + set (w2 := logPrint _ _ _).
      destruct (stateRestored_timers w2) as [-> ->].
      unfold w2. cbn [timers runtimeTimers logPrint perform set_automata].
      by rewrite Ht, Hrt.
  - apply stateRestored_timers.
  - done.
Qed.

(** X17.  Timers outlive everything the event loop does to the rule set.
    A retained event, a reload - whether it succeeds or fails - and the
    reconciliation of initial states leave every timer as it is: none is
    stopped, started or unregistered, so a timer started under a rule set
    fires under the one that replaced it. *)
Theorem Run_loop_keeps_timers (cs : list LoopCase) (w : World) :
  timers (Run_loop cs w) = timers w
  /\ runtimeTimers (Run_loop cs w) = runtimeTimers w
  /\ (forall name, pendingCount name (Run_loop cs w) = pendingCount name w)
  /\ (forall h name,
        firings name (fireTimer h (Run_loop cs w))
        = firings name (Run_loop cs w)
          ++ match runtimeTimers w !! h with
             | Some t => if tPending t && String.eqb (tName t) name
                         then [timerEvent (clock (Run_loop cs w)) name] else []
             | None => []
             end).
Proof.
  assert (H : timers (Run_loop cs w) = timers w
              /\ runtimeTimers (Run_loop cs w) = runtimeTimers w).
  { revert w. induction cs as [|c cs IH]; intros w; [done|].
    unfold Run_loop in *. rewrite foldl_cons.
    destruct (IH (Run_select c w)) as [-> ->]. apply Run_select_timers. }
  destruct H as [Ht Hrt]. split; [done|]. split; [done|]. split.
  - intros name. unfold pendingCount. by rewrite Hrt.
  - intros h name. unfold fireTimer. rewrite Hrt.
    destruct (runtimeTimers w !! h) as [t|]; [|by rewrite app_nil_r].
    destruct (tPending t); [|by rewrite app_nil_r].
    unfold firings. rewrite published_perform. rewrite List.filter_app.
    f_equal. cbn [List.filter]. rewrite isFiringOf_timerEvent. cbn [andb].
    by destruct (String.eqb_spec (tName t) name) as [->|].
Qed.

(** ** Events that do not reach the automata *)

(** X18.  Which bus events the automata see.  An event on topic "command"
    is never sent to them, retained or not: the service acknowledges it on
    topic "ack" when its device is a scene, and does nothing else.  A
    retained event is never sent to them either.  Neither touches the
    timers or publishes anything but that acknowledgement.  Every other
    event is sent to [automata.Process] as it is. *)
Theorem Run_event_filters (Process : EventContext -> World -> Outcome World)
    (ev : pubsub.Event) (w : World) :
  if String.eqb (pubsub.Topic ev) "command" || pubsub.Retained ev
  then exists w',
         Run_event Process ev w = Ret w'
         /\ timers w' = timers w /\ runtimeTimers w' = runtimeTimers w
         /\ published w'
            = published w
              ++ (if String.eqb (pubsub.Topic ev) "command"
                     && GoStrings.HasPrefix (pubsub.Device ev) "scene."
                  then [pubsub.NewEvent (clock w) "ack"
                          {[ "device" := VString (pubsub.Device ev);
                             "command" := VString (pubsub.Command ev) ]}]
                  else [])
  else Run_event Process ev w = Process (mkEventContext ev) w.
Proof.
  unfold Run_event. destruct (String.eqb (pubsub.Topic ev) "command") eqn:Ht; simpl.
  - eexists. split; [reflexivity|]. unfold handleCommand.
    destruct (GoStrings.HasPrefix (pubsub.Device ev) "scene.").
    + by rewrite published_perform.
    + by rewrite app_nil_r.
  - destruct (pubsub.Retained ev); [|done].
    eexists. split; [reflexivity|]. unfold Run_retained.
    destruct (String.eqb (pubsub.Topic ev) "state").
    + destruct (restoreState_timers ev w) as [-> ->].
      destruct (restoreState_frame ev w) as [-> _]. by rewrite app_nil_r.
    + by rewrite app_nil_r.
Qed.

(** ** An override, as the bus sees it *)

(** X19.  An administrative override that is accepted queues one Change,
    and [changeState] publishes that Change as the retained "state" event
    of the automaton, with the new state and the trigger "user" - not
    "initial", so it never counts as the publication of an initial
    state. *)
Theorem override_published_as_user (E : Env) (q : Question) (w : World)
    (a0 a1 : string) (aut : gofsm.Automaton) (st : gofsm.State) :
  GoStrings.Split (Args q) " " = [a0; a1] ->
  gofsm_run.AutomatonMap (automata w) !! a0 = Some aut ->
  gofsm.States aut !! a1 = Some st ->
  exists change,
    gofsm_run.Changes (automata (queryState q w).2)
    = gofsm_run.Changes (automata w) ++ [change]
    /\ forall w',
         published (changeState E change w')
         = published w' ++ [stateEvent (clock w') a0 a1 "user"]
         /\ pubsub.Retained (stateEvent (clock w') a0 a1 "user") = true
         /\ forall k, isInitialFor k (stateEvent (clock w') a0 a1 "user") = false.
Proof.
  intros Hs Ha Hst. unfold queryState. rewrite Hs, Ha, Hst.
  cbn [snd automata set_automata].
  destruct (ChangeState_known (clock w) a0 a1 (TriggerDummy mkDummyEvent)
              (automata w) aut st Ha Hst) as [_ ->].
  eexists. split; [reflexivity|]. intros w'. split; [|split; [done|]].
  - unfold changeState. rewrite publishState_published.
    cbn [gofsm_run.ChAutomaton gofsm_run.New gofsm_run.ChTrigger Trigger_String
         DummyEvent_String].
    unfold logPrint. rewrite published_perform. cbn [clock perform].
    by rewrite app_nil_r.
  - intros k. unfold isInitialFor. rewrite trigger_stateEvent.
    apply andb_false_r.
Qed.

Lemma override_published_as_user_witness :
  GoStrings.Split (Args (mkQuestion "light on")) " " = ["light"; "on"]
  /\ exists change,
       gofsm_run.Changes (automata (queryState (mkQuestion "light on") Example.running).2)
       = [change]
       /\ published (changeState (Example.env "") change Example.running)
          = [stateEvent 0 "light" "on" "user"].
Proof.
  split; [reflexivity|].
  assert (Hs : GoStrings.Split (Args (mkQuestion "light on")) " " = ["light"; "on"])
    by reflexivity.
  assert (Ha : gofsm_run.AutomatonMap (automata Example.running) !! "light"
               = Some (Example.light "command == 'on'")) by (vm_compute; reflexivity).
  assert (Hst : gofsm.States (Example.light "command == 'on'") !! "on" = Some Example.on)
    by (vm_compute; reflexivity).
  destruct (override_published_as_user (Example.env "") _ Example.running
              "light" "on" _ _ Hs Ha Hst) as (change & Hq & Hp).
  exists change. split; [exact Hq|]. exact (proj1 (Hp Example.running)).
Defined.

(** ** Live reload *)



(** ** The test publisher *)

(** X21.  The publisher of package dummy records what the service
    publishes: installed as [services.Publisher], it holds after a run the
    events it held before followed by every event the run has published,
    in the order of publication, and nothing else. *)
Theorem dummy_records_published (p : dummy.Publisher) (w : World) :
  dummy.Events (deliver (trace w) p) = dummy.Events p ++ published w
  /\ forall e, deliver (trace (perform e w)) p
               = match e with
                 | Emit ev => dummy.Emit (deliver (trace w) p) ev
                 | _ => deliver (trace w) p
                 end.
Proof.
  unfold published, deliver. split.
  - generalize (trace w). intros calls. revert p.
    induction calls as [|e calls IH]; intros p; [by rewrite app_nil_r|].
    rewrite foldl_cons, IH. destruct e; csimpl; try done.
    by rewrite <- app_assoc.
  - intros e. cbn [trace perform]. rewrite foldl_app. by destruct e.
Qed.

(** ** Service rtl433 *)

Lemma skipped_names (k : string) :
  rtl433.skipped k = true
  <-> k ∈ ["brand"; "model"; "id"; "time"; "mic"; "power1"; "power2"].
Proof.
  unfold rtl433.skipped, rtl433.skipFields.
  rewrite !elem_of_cons, elem_of_nil.
  repeat match goal with
         | |- context [<[?n := _]> _ !! k] =>
             destruct (decide (n = k)) as [<-|?];
             [rewrite lookup_insert_eq; simpl; tauto | rewrite lookup_insert_ne by done]
         end.
  destruct (decide ("power2" = k)) as [<-|?].
  - rewrite lookup_singleton_eq. simpl. tauto.
  - rewrite lookup_singleton_ne by done. simpl. split; [done|]. intuition congruence.
Qed.

Lemma fieldMap_names (key to : string) :
  rtl433.fieldMap !! key = Some to ->
  (key, to) ∈ [("battery_ok", "battery"); ("power0", "power"); ("power1", "power2");
               ("power2", "power3"); ("power_W", "power"); ("energy_kWh", "total");
               ("temperature_C", "temp"); ("humidity", "humidity")].
Proof.
  unfold rtl433.fieldMap. rewrite !elem_of_cons, elem_of_nil.
  repeat match goal with
         | |- context [<[?n := _]> _ !! key] =>
             destruct (decide (n = key)) as [<-|?];
             [rewrite lookup_insert_eq; intros [= <-]; tauto
             | rewrite lookup_insert_ne by done]
         end.
  destruct (decide ("humidity" = key)) as [<-|?].
  - rewrite lookup_singleton_eq. intros [= <-]. tauto.
  - by rewrite lookup_singleton_ne.
Qed.

Lemma translateField_insert (model : string) (fields : gmap string Value)
    (key : string) (value : JSON) :
  rtl433.translateField model fields (key, value)
  = if rtl433.skipped key then fields
    else <[rtl433.fieldName model key value := rtl433.stored model key value]> fields.
Proof.
  unfold rtl433.translateField, rtl433.skipped, rtl433.fieldName, rtl433.stored,
    rtl433.isRain.
  cbn [fst snd]. destruct (default false (rtl433.skipFields !! key)); [done|].
  destruct value; cbn [rtl433.commaOkFloat64 rtl433.number snd];
    rewrite ?andb_false_r; try by destruct (rtl433.fieldMap !! key).
  rewrite andb_true_r.
  destruct (String.eqb key "humidity" && String.eqb model "TFA-TwinPlus"); [done|].
  by destruct (rtl433.fieldMap !! key).
Qed.

(** The fields the loop leaves: under each name, what the last reading
    stored under that name gives. *)
Lemma foldl_translateField (model : string) (fields : gmap string Value)
    (l : list (string * JSON)) (t : string) :
  foldl (rtl433.translateField model) fields l !! t
  = match last (List.filter
                  (fun kv => negb (rtl433.skipped kv.1)
                             && String.eqb (rtl433.fieldName model kv.1 kv.2) t) l) with
    | Some kv => Some (rtl433.stored model kv.1 kv.2)
    | None => fields !! t
    end.
Proof.
  induction l as [|[key value] l IH] using rev_ind; [done|].
  rewrite foldl_app, List.filter_app, last_app. cbn [foldl List.filter fst snd].
  rewrite translateField_insert.
  destruct (rtl433.skipped key); cbn [negb andb last]; [exact IH|].
  destruct (String.eqb_spec (rtl433.fieldName model key value) t) as [->|Hne].
  - cbn [last]. by rewrite lookup_insert_eq.
  - cbn [last]. rewrite lookup_insert_ne by done. exact IH.
Qed.

Lemma translateEvent_fields (H : rtl433.Host) (now : Z) (data : gmap string JSON)
    (time : string) :
  data !! "time" = Some (JString time) ->
  let model := match data !! "model" with Some (JString s) => s | _ => "" end in
  exists ev,
    rtl433.translateEvent H now data = Ret (rtl433.AddDeviceToEvent H ev)
    /\ pubsub.Topic ev = default "rtl433" (rtl433.modelMap !! model)
    /\ pubsub.Timestamp ev = default now (rtl433.parseLocal H time)
    /\ pubsub.Retained ev = false
    /\ pubsub.Fields ev
       = foldl (rtl433.translateField model)
           {[ "source" := VString (model +:+ "." +:+ rtl433.Sprintv H (data !! "id")) ]}
           (map_to_list data).
Proof.
  intros Ht model. unfold rtl433.translateEvent. rewrite Ht. cbn [mbind Outcome_bind].
  eexists. split; [reflexivity|]. fold model.
  by destruct (rtl433.parseLocal H time).
Qed.

(** X22.  The handler of service rtl433 panics on every message that is
    not a JSON document with a text under "time": [translateEvent] asserts
    that the entry is a string after it has built the event and before
    anything is published.  So a payload that does not parse, for which
    [parse] returns nil, or a reading without a timestamp, takes the
    handler down and publishes nothing.  Every other message publishes
    exactly one event, with the topic of its model ("rtl433" for a model
    that is not listed) and the timestamp of the reading when that
    parses. *)
Theorem rtl433_needs_time (H : rtl433.Host) (now : Z) (payload : string)
    (p : dummy.Publisher) :
  let data := rtl433.parse H payload in
  let model := match data !! "model" with Some (JString s) => s | _ => "" end in
  ((rtl433.Unmarshal H payload).2 = true -> data = ∅)
  /\ match data !! "time" with
     | Some (JString time) =>
         exists ev,
           rtl433.Run_handler H now payload p
           = Ret (dummy.Emit p (rtl433.AddDeviceToEvent H ev))
           /\ pubsub.Topic ev = default "rtl433" (rtl433.modelMap !! model)
           /\ pubsub.Timestamp ev = default now (rtl433.parseLocal H time)
     | _ =>
         rtl433.translateEvent H now data = Panic "interface conversion: not string"
         /\ rtl433.Run_handler H now payload p = Panic "interface conversion: not string"
     end.
Proof.
  intros data model. split.
  { subst data. unfold rtl433.parse. destruct (rtl433.Unmarshal H payload) as [d failed].
    cbn [snd]. by intros ->. }
  unfold rtl433.Run_handler, rtl433.emit. fold data.
  destruct (data !! "time") as [v|] eqn:Ht.
  - destruct v as [| | |time| |];
      try (unfold rtl433.translateEvent; rewrite Ht; by split).
    destruct (translateEvent_fields H now data time Ht) as (ev & -> & Htopic & Hts & _).
    exists ev. by split.
  - unfold rtl433.translateEvent. rewrite Ht. by split.
Qed.

Lemma last_all_equal {A : Type} (l : list A) (a : A) :
  a ∈ l -> (forall x, x ∈ l -> x = a) -> last l = Some a.
Proof.
  intros Hin Hall. destruct (last l) as [x|] eqn:Hl.
  - f_equal. apply Hall. apply last_Some in Hl as [l' ->].
    apply elem_of_app. right. by apply list_elem_of_singleton.
  - apply last_None in Hl as ->. by apply elem_of_nil in Hin.
Qed.

(** X23.  What [translateEvent] keeps of a reading.  The value a branch of
    the loop stores is the float64 of the assertion in its condition, not
    the value of the reading: a reading that is not a number - a text, a
    boolean - is stored as the number 0.  So every field of the event is a
    number, but "source" when no reading is stored under that name.  The
    names of [skipFields] never are fields of the event it builds; since
    "power1" and "power2" are among them, their entries in [fieldMap] are
    never used and the event has no field "power2".  A reading whose field
    name no other reading shares is stored under it: under "rain", and
    raised by 28, for the humidity of the model "TFA-TwinPlus"; else under
    the name [fieldMap] gives, or its own. *)
Theorem rtl433_fields (H : rtl433.Host) (now : Z) (data : gmap string JSON) :
  let model := match data !! "model" with Some (JString s) => s | _ => "" end in
  let source := model +:+ "." +:+ rtl433.Sprintv H (data !! "id") in
  match data !! "time" with
  | Some (JString _) =>
      exists ev,
        rtl433.translateEvent H now data = Ret (rtl433.AddDeviceToEvent H ev)
        /\ (forall k v, pubsub.Fields ev !! k = Some v ->
                        (exists f, v = VFloat f) \/ (k = "source" /\ v = VString source))
        /\ (forall k, rtl433.skipped k = true -> pubsub.Fields ev !! k = None)
        /\ (forall key value,
              data !! key = Some value -> rtl433.skipped key = false ->
              (forall key' value',
                 data !! key' = Some value' -> rtl433.skipped key' = false ->
                 rtl433.fieldName model key' value' = rtl433.fieldName model key value ->
                 key' = key) ->
              pubsub.Fields ev !! rtl433.fieldName model key value
              = Some (rtl433.stored model key value))
        /\ (forall key value,
              (forall f, value <> JNumber f) ->
              rtl433.fieldName model key value = default key (rtl433.fieldMap !! key)
              /\ rtl433.stored model key value = VFloat PrimFloat.zero)
  | _ => rtl433.translateEvent H now data = Panic "interface conversion: not string"
  end.
Proof.
  intros model source.
  destruct (data !! "time") as [v|] eqn:Ht;
    [|unfold rtl433.translateEvent; by rewrite Ht].
  destruct v as [| | |time| |]; try (unfold rtl433.translateEvent; by rewrite Ht).
  destruct (translateEvent_fields H now data time Ht) as (ev & Hev & _ & _ & _ & Hf).
  fold model source in Hf.
  exists ev. split; [done|]. rewrite Hf. split; [|split; [|split]].
  - intros k v. rewrite foldl_translateField.
    destruct (last _) as [[key value]|].
    + intros [= <-]. left. unfold rtl433.stored.
      destruct (rtl433.isRain model key value); by eexists.
    + intros [-> ->]%lookup_singleton_Some. by right.
  - intros k Hk. rewrite foldl_translateField.
    destruct (last _) as [[key value]|] eqn:Hl.
    + apply last_Some in Hl as [l' Hl].
      assert (Hin : (key, value) ∈ List.filter
                (fun kv => negb (rtl433.skipped kv.1)
                           && String.eqb (rtl433.fieldName model kv.1 kv.2) k)
                (map_to_list data)).
      { rewrite Hl. apply elem_of_app. right. by apply list_elem_of_singleton. }
      apply list_elem_of_In, List.filter_In in Hin as [_ Hp]. cbn [fst snd] in Hp.
      apply andb_true_iff in Hp as [Hns Hname].
      apply negb_true_iff in Hns. apply String.eqb_eq in Hname.
      exfalso. unfold rtl433.fieldName in Hname. pose proof Hk as Hk0.
      apply skipped_names in Hk. rewrite !elem_of_cons, elem_of_nil in Hk.
      destruct (rtl433.isRain model key value).
      * subst k. intuition discriminate.
      * destruct (rtl433.fieldMap !! key) as [to|] eqn:Hfm; simpl in Hname.
        -- apply fieldMap_names in Hfm. subst to.
           rewrite !elem_of_cons, elem_of_nil in Hfm.
           assert (Hkey : key <> "power1").
           { intros ->. vm_compute in Hns. discriminate Hns. }
           intuition congruence.
        -- subst key. congruence.
    + apply lookup_singleton_None. intros <-. vm_compute in Hk. discriminate Hk.
  - intros key value Hkey Hns Huniq. rewrite foldl_translateField.
    rewrite (last_all_equal _ (key, value)); [done| |].
    + apply list_elem_of_In, List.filter_In. split.
      * apply list_elem_of_In. by apply elem_of_map_to_list.
      * cbn [fst snd]. rewrite Hns. apply String.eqb_refl.
    + intros [key' value'] Hin.
      apply list_elem_of_In, List.filter_In in Hin as [Hin Hp]. cbn [fst snd] in Hp.
      apply list_elem_of_In, elem_of_map_to_list in Hin.
      apply andb_true_iff in Hp as [Hns' Hname].
      apply negb_true_iff in Hns'. apply String.eqb_eq in Hname.
      pose proof (Huniq key' value' Hin Hns' Hname) as ->.
      congruence.
  - intros key value Hnum. unfold rtl433.fieldName, rtl433.stored, rtl433.isRain.
    destruct value; try (by rewrite andb_false_r). by destruct (Hnum f).
Qed.

(** ** Service zigbee *)

Lemma cutPrefix_Some (p s r : string) :
  zigbee.cutPrefix p s = Some r <-> s = p +:+ r.
Proof.
  revert s. induction p as [|a p IH]; intros s; simpl.
  - rewrite append_empty_l. split; congruence.
  - rewrite append_String. destruct s as [|b s]; [split; discriminate|].
    destruct (Ascii.eqb_spec a b) as [->|Hne].
    + rewrite IH. split; congruence.
    + split; [discriminate | congruence].
Qed.

Lemma Split_free (s : string) (sep : ascii) :
  free_of sep s -> GoStrings.Split s sep = [s].
Proof.
  induction s as [|c s IH]; [done|]. intros [Hc Hs]%free_of_String. simpl.
  rewrite (proj2 (Ascii.eqb_neq c sep) Hc). by rewrite IH.
Qed.

Lemma Split_app_sep (p r : string) (sep : ascii) :
  exists h t, GoStrings.Split (p +:+ String sep r) sep = h :: t ++ GoStrings.Split r sep.
Proof.
  induction p as [|c p (h & t & IH)].
  - rewrite append_empty_l. simpl. rewrite Ascii.eqb_refl. by exists "", [].
  - rewrite append_String. simpl. rewrite IH.
    destruct (Ascii.eqb c sep); [by exists "", (h :: t) | by exists (String c h), t].
Qed.

Lemma getDevice_last (p device : string) :
  free_of "/" device -> zigbee.getDevice (p +:+ String "/" device) = Ret device.
Proof.
  intros Hfree. unfold zigbee.getDevice, index.
  destruct (Split_app_sep p device "/") as (h & t & ->).
  rewrite (Split_free device "/" Hfree).
  replace (length (h :: t ++ [device]) - 1)%nat with (S (length t))
    by (cbn [length]; rewrite length_app; simpl; lia).
  change ((h :: t ++ [device]) !! S (length t)) with ((t ++ [device]) !! length t).
  by rewrite list_lookup_middle.
Qed.

(** A topic [deviceUpdate] matches names one device. *)
Lemma deviceUpdate_device (topic : string) :
  zigbee.deviceUpdate topic = true
  <-> exists device, topic = "zigbee2mqtt/" +:+ device /\ device <> ""
                     /\ free_of "/" device.
Proof.
  unfold zigbee.deviceUpdate. split.
  - destruct (zigbee.cutPrefix "zigbee2mqtt/" topic) as [rest|] eqn:Hp; [|done].
    apply cutPrefix_Some in Hp as ->.
    destruct (String.eqb_spec rest "") as [|Hne]; [done|].
    destruct (GoStrings.cut rest "/") eqn:Hc; [done|]. intros _.
    exists rest. split; [done|]. split; [done|]. by apply cut_None.
  - intros (device & -> & Hne & Hfree).
    rewrite (proj2 (cutPrefix_Some "zigbee2mqtt/" _ device) eq_refl).
    rewrite (proj2 (String.eqb_neq _ _) Hne).
    by rewrite (proj2 (cut_None device "/") Hfree).
Qed.

Lemma translateField_outcome (H : zigbee.Host) (topic : string)
    (fields : gmap string zigbee.FieldValue) (kv : string * JSON) :
  if zigbee.malformed kv
  then exists msg, zigbee.translateField H (topic, fields) kv = Panic msg
  else exists topic' fields',
         zigbee.translateField H (topic, fields) kv = Ret (topic', fields')
         /\ (topic' = topic \/ topic' ∈ ["ack"; "temp"])
         /\ (kv.1 <> "source" -> fields' !! "source" = fields !! "source").
Proof.
  destruct kv as [key value]. unfold zigbee.malformed, zigbee.translateField.
  cbn [fst snd].
  assert (Htopic : default topic (zigbee.topicMap !! key) = topic
                   \/ default topic (zigbee.topicMap !! key) ∈ ["ack"; "temp"]).
  { unfold zigbee.topicMap. destruct (decide ("state" = key)) as [<-|?].
    - rewrite lookup_insert_eq. right. simpl. by left.
    - rewrite lookup_insert_ne by done. destruct (decide ("temperature" = key)) as [<-|?].
      + rewrite lookup_singleton_eq. right. simpl. right. by left.
      + rewrite lookup_singleton_ne by done. by left. }
  destruct (String.eqb_spec key "state") as [->|Hs].
  { destruct value; try by eexists.
    eexists _, _. split; [reflexivity|]. split; [done|]. intros _.
    by rewrite lookup_insert_ne. }
  destruct (String.eqb_spec key "brightness") as [->|Hb].
  { destruct value; try by eexists.
    eexists _, _. split; [reflexivity|]. split; [done|]. intros _.
    by rewrite lookup_insert_ne. }
  unfold zigbee.fieldMap. destruct (decide ("temperature" = key)) as [<-|Ht].
  - rewrite lookup_singleton_eq. eexists _, _. split; [reflexivity|]. split; [done|].
    intros _. by rewrite lookup_insert_ne.
  - rewrite lookup_singleton_ne by done. eexists _, _. split; [reflexivity|].
    split; [done|]. intros Hk. by rewrite lookup_insert_ne.
Qed.

Lemma translateFields_outcome (H : zigbee.Host) (topic : string)
    (fields : gmap string zigbee.FieldValue) (l : list (string * JSON)) :
  topic = "zigbee" \/ topic ∈ ["ack"; "temp"] ->
  if existsb zigbee.malformed l
  then exists msg, zigbee.translateFields H (topic, fields) l = Panic msg
  else exists topic' fields',
         zigbee.translateFields H (topic, fields) l = Ret (topic', fields')
         /\ (topic' = "zigbee" \/ topic' ∈ ["ack"; "temp"])
         /\ ((forall v, ("source", v) ∉ l) -> fields' !! "source" = fields !! "source").
Proof.
  revert topic fields. induction l as [|kv l IH]; intros topic fields Htopic.
  - simpl. by eexists _, _.
  - cbn [existsb zigbee.translateFields].
    pose proof (translateField_outcome H topic fields kv) as Hkv.
    destruct (zigbee.malformed kv).
    + destruct Hkv as [msg ->]. by eexists.
    + destruct Hkv as (topic1 & fields1 & -> & Ht1 & Hs1). cbn [orb mbind Outcome_bind].
      assert (Htopic1 : topic1 = "zigbee" \/ topic1 ∈ ["ack"; "temp"]).
      { destruct Ht1 as [->|?]; [done | by right]. }
      specialize (IH topic1 fields1 Htopic1).
      destruct (existsb zigbee.malformed l); [done|].
      destruct IH as (topic' & fields' & -> & Ht' & Hs').
      eexists _, _. split; [reflexivity|]. split; [done|].
      intros Hno. rewrite Hs', Hs1; [done| |].
      * intros Heq. apply (Hno kv.2). destruct kv as [k v]. simpl in Heq. subst k.
        by left.
      * intros v Hin. apply (Hno v). by right.
Qed.

Lemma checkDup_spec (message : zigbee.MQTT_Message) (dedup : gmap string string) :
  zigbee.checkDup message dedup
  = if decide (dedup !! zigbee.Topic message = Some (zigbee.Payload message))
    then (true, dedup)
    else (false, <[zigbee.Topic message := zigbee.Payload message]> dedup).
Proof.
  unfold zigbee.checkDup. destruct (dedup !! zigbee.Topic message) as [last|].
  - destruct (String.eqb_spec (zigbee.Payload message) last) as [->|Hne].
    + by rewrite decide_True.
    + rewrite decide_False; [done | congruence].
  - by rewrite decide_False.
Qed.

(** X24.  What [translate] makes of a message.  It gives an event only for
    a topic "zigbee2mqtt/<device>" with a device name that is not empty,
    has no slash and is not "set", whose payload is a JSON document and is
    not the payload last seen on the topic; the payload is then remembered,
    nothing is logged, and the event has topic "zigbee", "ack" or "temp"
    and, unless the document has an entry "source", the source
    "zigbee.<device>".  When it gives none, the topic is not one it reads,
    or the payload is a repeat, or it does not parse; the map of last
    payloads is as it was, or has learnt the payload that does not parse,
    and nothing is published but by the bridge log.  It panics exactly on
    a device update that is not a repeat and whose document has a "state"
    that is not a text or a "brightness" that is not a number. *)
Theorem zigbee_translate_outcome (H : zigbee.Host) (now : Z)
    (message : zigbee.MQTT_Message) (dedup : gmap string string) :
  let topic := zigbee.Topic message in
  let payload := zigbee.Payload message in
  let malformed_update :=
    zigbee.listened topic = true /\ dedup !! topic <> Some payload
    /\ exists data key value,
         zigbee.Unmarshal H payload = Some data /\ data !! key = Some value
         /\ zigbee.malformed (key, value) = true in
  match zigbee.translate H now message dedup with
  | Ret (Some ev, dedup', effs) =>
      exists device data topic' fields,
        topic = "zigbee2mqtt/" +:+ device /\ device <> "" /\ free_of "/" device
        /\ device <> "set"
        /\ dedup !! topic <> Some payload
        /\ dedup' = <[topic := payload]> dedup /\ effs = []
        /\ zigbee.Unmarshal H payload = Some data
        /\ (forall key value, data !! key = Some value ->
                              zigbee.malformed (key, value) = false)
        /\ ev = zigbee.event H now topic' fields
        /\ (topic' = "zigbee" \/ topic' ∈ ["ack"; "temp"])
        /\ (data !! "source" = None ->
            fields !! "source" = Some (zigbee.Text ("zigbee." +:+ device)))
  | Ret (None, dedup', effs) =>
      (zigbee.listened topic = false \/ dedup !! topic = Some payload
       \/ zigbee.Unmarshal H payload = None)
      /\ (dedup' = dedup
          \/ (dedup' = <[topic := payload]> dedup /\ zigbee.Unmarshal H payload = None))
      /\ (forall ev, Emit ev ∈ effs -> topic = "zigbee2mqtt/bridge/log")
  | Panic _ => malformed_update
  end
  /\ (malformed_update -> exists msg, zigbee.translate H now message dedup = Panic msg).
Proof.
  destruct message as [topic payload]. cbv zeta.
  unfold zigbee.translate, zigbee.listened. cbn [zigbee.Topic zigbee.Payload].
  destruct (String.eqb_spec topic "zigbee2mqtt/bridge/log") as [Hlog|Hlog].
  { cbn [negb andb]. split; [|by intros [? _]]. split; [by left|]. split; [by left | done]. }
  assert (Hnone : forall (d : gmap string string) (l : list Effect),
            (forall ev, Emit ev ∉ l) ->
            (d = dedup \/ d = <[topic := payload]> dedup /\ zigbee.Unmarshal H payload = None)
            -> (d = dedup
                \/ d = <[topic := payload]> dedup /\ zigbee.Unmarshal H payload = None)
               /\ (forall ev, Emit ev ∈ l -> topic = "zigbee2mqtt/bridge/log")).
  { intros d l Hl Hd. split; [done|]. intros ev Hin. by destruct (Hl ev). }
  destruct (GoStrings.HasPrefix topic "zigbee2mqtt/bridge/"); cbn [negb andb].
  { split; [|by intros [? _]]. split; [by left|].
    apply Hnone; [intros ev; apply not_elem_of_nil | by left]. }
  destruct (zigbee.HasSuffix topic "/set") eqn:Hset; cbn [negb andb].
  { split; [|by intros [? _]]. split; [by left|].
    apply Hnone; [intros ev; apply not_elem_of_nil | by left]. }
  destruct (zigbee.deviceUpdate topic) eqn:Hupd; cbn [negb].
  2:{ split; [|by intros [? _]]. split; [by left|]. apply Hnone; [|by left].
      intros ev Hin. apply list_elem_of_singleton in Hin. discriminate Hin. }
  rewrite checkDup_spec. cbn [zigbee.Topic zigbee.Payload].
  destruct (decide (dedup !! topic = Some payload)) as [Hdup|Hdup].
  { split; [|by intros (_ & ? & _)]. split; [right; by left|].
    apply Hnone; [intros ev; apply not_elem_of_nil | by left]. }
  destruct (zigbee.Unmarshal H payload) as [data|] eqn:Hdata.
  2:{ split; [|by intros (_ & _ & ? & ? & ? & ? & _)]. split; [right; by right|].
      apply Hnone; [|by right].
      intros ev Hin. apply list_elem_of_singleton in Hin. discriminate Hin. }
  pose proof Hupd as Hdev. apply deviceUpdate_device in Hdev as (device & Ht & Hne & Hfree).
  assert (Hgd : zigbee.getDevice topic = Ret device).
  { rewrite Ht. apply (getDevice_last "zigbee2mqtt" device Hfree). }
  rewrite Hgd. cbn [mbind Outcome_bind].
  pose proof (translateFields_outcome H "zigbee"
                {[ "source" := zigbee.Text ("zigbee." +:+ device) ]} (map_to_list data)
                (or_introl eq_refl)) as Hfields.
  destruct (existsb zigbee.malformed (map_to_list data)) eqn:Hbad.
  - destruct Hfields as [msg ->]. cbn [mbind Outcome_bind].
    split; [|by eexists]. split; [done|]. split; [done|].
    apply existsb_exists in Hbad as ([key value] & Hin & Hmal).
    exists data, key, value. split; [done|]. split; [|done].
    by apply list_elem_of_In, elem_of_map_to_list in Hin.
  - destruct Hfields as (topic' & fields' & -> & Htopic' & Hsource).
    cbn [mbind Outcome_bind fst snd].
    assert (Hgood : forall key value, data !! key = Some value ->
                                      zigbee.malformed (key, value) = false).
    { intros key value Hkv. destruct (zigbee.malformed (key, value)) eqn:Hm; [|done].
      assert (existsb zigbee.malformed (map_to_list data) = true); [|congruence].
      apply existsb_exists. exists (key, value). split; [|done].
      by apply list_elem_of_In, elem_of_map_to_list. }
    split.
    + exists device, data, topic', fields'.
      split; [done|]. split; [done|]. split; [done|]. split.
      { intros ->. rewrite Ht in Hset. vm_compute in Hset. discriminate Hset. }
      split; [done|]. split; [done|]. split; [done|]. split; [done|].
      split; [done|]. split; [done|]. split; [done|].
      intros Hns. rewrite Hsource; [by rewrite lookup_singleton_eq|].
      intros v Hin. apply elem_of_map_to_list in Hin. congruence.
    + intros (_ & _ & data' & key & value & [= <-] & Hkv & Hmal).
      rewrite (Hgood key value Hkv) in Hmal. discriminate Hmal.
Qed.

(** X25.  A repeated device update is dropped; a repeated bridge log is
    not.  After a message has been translated - into an event or not - the
    same payload on the same topic gives no event and leaves the map of
    last payloads as it is; on every topic but that of the bridge log it
    publishes nothing.  The bridge log is examined before [checkDup] is
    asked: a repeated message of it is examined again, and an
    "interview_successful" is announced again.  [checkDup] answers true
    exactly when the payload is the one it recorded last for the topic, and
    records every other payload. *)
Theorem zigbee_drops_repeats (H : zigbee.Host) (now : Z)
    (message : zigbee.MQTT_Message) (dedup : gmap string string) :
  let topic := zigbee.Topic message in
  let payload := zigbee.Payload message in
  let again :=
    if String.eqb topic "zigbee2mqtt/bridge/log" then zigbee.checkLogMessage H now message
    else if GoStrings.HasPrefix topic "zigbee2mqtt/bridge/" then []
    else if zigbee.HasSuffix topic "/set" then []
    else if zigbee.deviceUpdate topic then []
    else [LogPrint "Ignoring topic: %s" [VString topic]] in
  ((zigbee.checkDup message dedup).1 = true <-> dedup !! topic = Some payload)
  /\ (zigbee.checkDup message dedup).2 !! topic = Some payload
  /\ zigbee.checkDup message (zigbee.checkDup message dedup).2
     = (true, (zigbee.checkDup message dedup).2)
  /\ (forall r dedup' effs,
        zigbee.translate H now message dedup = Ret (r, dedup', effs) ->
        zigbee.translate H now message dedup' = Ret (None, dedup', again))
  /\ (forall ev, Emit ev ∈ again -> topic = "zigbee2mqtt/bridge/log")
  /\ (topic = "zigbee2mqtt/bridge/log" ->
      zigbee.Message (zigbee.UnmarshalLog H payload).1 = "interview_successful" ->
      exists ev, last again = Some (Emit ev)
                 /\ ev = zigbee.event H now "announce"
                           {[ "source" := zigbee.Text
                                            ("zigbee." +:+ zigbee.FriendlyName
                                               (zigbee.UnmarshalLog H payload).1);
                              "name" := zigbee.Text
                                          (zigbee.Description
                                             (zigbee.UnmarshalLog H payload).1) ]}).
Proof.
  destruct message as [topic payload]. cbv zeta.
  rewrite !checkDup_spec. cbn [zigbee.Topic zigbee.Payload].
  split; [|split; [|split; [|split; [|split]]]].
  - destruct (decide (dedup !! topic = Some payload)); cbn [fst];
      [done | split; [discriminate | done]].
  - destruct (decide (dedup !! topic = Some payload)) as [Hd|Hd]; cbn [snd];
      [done | by rewrite lookup_insert_eq].
  - destruct (decide (dedup !! topic = Some payload)) as [Hd|Hd]; cbn [snd].
    + by rewrite decide_True.
    + rewrite decide_True; [done | by rewrite lookup_insert_eq].
  - intros r dedup' effs. unfold zigbee.translate. cbn [zigbee.Topic zigbee.Payload].
    destruct (String.eqb topic "zigbee2mqtt/bridge/log"); [by intros [= _ <- _]|].
    destruct (GoStrings.HasPrefix topic "zigbee2mqtt/bridge/"); [by intros [= _ <- _]|].
    destruct (zigbee.HasSuffix topic "/set"); [by intros [= _ <- _]|].
    destruct (zigbee.deviceUpdate topic); cbn [negb]; [|by intros [= _ <- _]].
    rewrite checkDup_spec. cbn [zigbee.Topic zigbee.Payload].
    destruct (decide (dedup !! topic = Some payload)) as [Hdup|Hdup].
    + intros [= _ <- _]. rewrite checkDup_spec. cbn [zigbee.Topic zigbee.Payload].
      by rewrite decide_True.
    + assert (Hnext : zigbee.checkDup (zigbee.mkMessage topic payload)
                        (<[topic := payload]> dedup)
                      = (true, <[topic := payload]> dedup)).
      { rewrite checkDup_spec. cbn [zigbee.Topic zigbee.Payload].
        rewrite decide_True; [done | by rewrite lookup_insert_eq]. }
      destruct (zigbee.Unmarshal H payload) as [data|].
      * destruct (zigbee.getDevice topic) as [device|]; [|discriminate].
        cbn [mbind Outcome_bind].
        destruct (zigbee.translateFields H _ _) as [acc|]; [|discriminate].
        cbn [mbind Outcome_bind]. intros [= _ <- _]. by rewrite Hnext.
      * intros [= _ <- _]. by rewrite Hnext.
  - intros ev. destruct (String.eqb_spec topic "zigbee2mqtt/bridge/log"); [done|].
    destruct (GoStrings.HasPrefix topic "zigbee2mqtt/bridge/");
      [by intros ?%elem_of_nil|].
    destruct (zigbee.HasSuffix topic "/set"); [by intros ?%elem_of_nil|].
    destruct (zigbee.deviceUpdate topic); [by intros ?%elem_of_nil|].
    intros Hin%list_elem_of_singleton. discriminate Hin.
  - intros -> Hmsg. rewrite String.eqb_refl.
    unfold zigbee.checkLogMessage. cbn [zigbee.Topic zigbee.Payload].
    destruct (zigbee.UnmarshalLog H payload) as [msg failed]. cbn [fst] in *.
    rewrite Hmsg, String.eqb_refl. cbn [negb].
    eexists. split; [|reflexivity]. by rewrite last_app.
Qed.
